(** * Request queue and response cache of the chat assistant

    A shallow embedding of [services/cacheService.ts], of the request queue
    ([services/requestQueue.ts], whose text is the third document of
    [README.md]) and of the error classifiers of [services/geminiService.ts],
    followed by the properties proved about them.

    Conventions.  JavaScript numbers that hold counts, byte sizes and
    millisecond clocks are integers ([Z]).  The three ratios of the cache
    are each one division of two integers and are kept as rationals ([Q]);
    the running mean of the queue, which is computed from its own earlier
    value, is an IEEE 754 double ([JS.number]).  The characters of a
    string are its code units, which are below 256.  Every call of
    [Date.now()] is an explicit argument; a synchronous call reads the
    clock once, except [processRequest], whose two readings are
    subtracted.  The callback of a timer is a function that is applied
    when the timer fires.  An object that the source mutates in place is a
    record that is written back to the place it is stored in.  [emit] runs
    the listeners registered with [on]; they are taken to observe and not
    to call the service they listen to.  The queue keeps the list of what
    it emitted, the cache does not. *)

From Stdlib Require Import ZArith QArith List String Ascii Bool Lia.
From Stdlib Require Import Permutation Sorted SpecFloat.
Import ListNotations.
Open Scope Z_scope.

(* ================================================================== *)
(** ** JavaScript built-ins used by the services *)
(* ================================================================== *)

Module JS.

Section Sort.
Context {A : Type}.
(** The comparator of [Array.prototype.sort]: negative when the first
    argument goes first. *)
Variable cmp : A -> A -> Z.

(** [x] comes from the left of every element of [l] in the array being
    sorted, so it stays in front of the elements it compares equal to. *)
Fixpoint insert (x : A) (l : list A) : list A :=
  match l with
  | [] => [x]
  | y :: r => if cmp x y <=? 0 then x :: y :: r else y :: insert x r
  end.

(** [Array.prototype.sort] is a stable sort. *)
Fixpoint sort (l : list A) : list A :=
  match l with
  | [] => []
  | x :: r => insert x (sort r)
  end.

(** The comparator lets [x] stand in front of [y]. *)
Definition before (x y : A) : Prop := cmp x y <= 0.
End Sort.

(** [a / b] on numbers. *)
Definition div (a b : Z) : Q := (inject_Z a / inject_Z b)%Q.

(** A number as JavaScript has it: a binary64 double; the operations round
    to the nearest double, ties to even. *)
Definition number : Type := spec_float.

(** The double nearest to an integer. *)
Definition of_Z (z : Z) : number := binary_normalize 53 1024 z 0 false.

(** [a * b], [a + b] and [a / b] on doubles. *)
Definition times (a b : number) : number := SFmul 53 1024 a b.
Definition plus (a b : number) : number := SFadd 53 1024 a b.
Definition over (a b : number) : number := SFdiv 53 1024 a b.

(** [Math.ceil(n * 0.2)] for an array length [n].  The double nearest to
    0.2 exceeds it by less than one part in 2^54, so the product is
    rounded to the exact fifth when 5 divides [n], and stays strictly
    between the same two integers as [n / 5] otherwise. *)
Definition ceil_fifth (n : nat) : nat := Nat.div (n + 4) 5.

Fixpoint startsWith (needle hay : string) : bool :=
  match needle, hay with
  | EmptyString, _ => true
  | String a n', String b h' => Ascii.eqb a b && startsWith n' h'
  | String _ _, EmptyString => false
  end.

(** [hay.includes(needle)] *)
Fixpoint includes (hay needle : string) : bool :=
  startsWith needle hay ||
  match hay with
  | EmptyString => false
  | String _ h' => includes h' needle
  end.

(** The lower-case form of a code unit below 256: the letters of ASCII, and
    those of U+00C0 to U+00DE without the multiplication sign U+00D7, are 32
    below their lower-case forms. *)
Definition lower_ascii (c : ascii) : ascii :=
  let n := nat_of_ascii c in
  if ((Nat.leb 65 n && Nat.leb n 90)
      || (Nat.leb 192 n && Nat.leb n 222 && negb (Nat.eqb n 215)))%bool
  then ascii_of_nat (n + 32) else c.

(** [s.toLowerCase()]; the characters of a [string] are code units below
    256. *)
Fixpoint toLowerCase (s : string) : string :=
  match s with
  | EmptyString => EmptyString
  | String c r => String (lower_ascii c) (toLowerCase r)
  end.

(** Truthiness of an optional number: [undefined], and [0], are falsy. *)
Definition truthy (x : option Z) : bool :=
  match x with
  | Some v => negb (v =? 0)
  | None => false
  end.

(** [x || d] on an optional number. *)
Definition or_default (x : option Z) (d : Z) : Z :=
  match x with
  | Some v => if v =? 0 then d else v
  | None => d
  end.

End JS.

(* ================================================================== *)
(** ** services/cacheService.ts *)
(* ================================================================== *)

Module Cache.

(** [CacheItem] of types/api.ts. *)
Record CacheItem (V : Type) : Type := mkItem {
  key : string;
  data : V;
  createdAt : Z;
  expiresAt : Z;
  lastAccessedAt : Z;
  accessCount : Z;
  size : Z;
  tags : list string
}.
Arguments mkItem {V}.
Arguments key {V}.
Arguments data {V}.
Arguments createdAt {V}.
Arguments expiresAt {V}.
Arguments lastAccessedAt {V}.
Arguments accessCount {V}.
Arguments size {V}.
Arguments tags {V}.

(** [CacheStats] of types/api.ts. *)
Record CacheStats : Type := mkStats {
  totalItems : Z;
  hitCount : Z;
  missCount : Z;
  hitRate : Q;
  totalSize : Z;
  averageItemSize : Q;
  expiredItems : Z;
  mostAccessedItem : option string
}.

(** [CacheConfig] of types/api.ts. *)
Record CacheConfig : Type := mkConfig {
  enabled : bool;
  defaultTTL : Z;
  maxSize : Z;
  maxItems : Z;
  cleanupInterval : Z;
  useCompression : bool
}.

Definition DEFAULT_CACHE_CONFIG : CacheConfig :=
  {| enabled := true;
     defaultTTL := 24 * 60 * 60 * 1000;
     maxSize := 10 * 1024 * 1024;
     maxItems := 1000;
     cleanupInterval := 60 * 60 * 1000;
     useCompression := false |}.

(** The fields of a [CacheService] that its methods read and write.
    [memoryCache] is the [Map<string, CacheItem>] in insertion order, the
    order [forEach] visits it in; every entry is stored under its own
    [key] field (both [set] and [loadFromStorage] do that), so the list of
    items stands for the map. *)
Record CacheService (V : Type) : Type := mkCache {
  memoryCache : list (CacheItem V);
  stats : CacheStats
}.
Arguments mkCache {V}.
Arguments memoryCache {V}.
Arguments stats {V}.

Definition emptyStats : CacheStats :=
  {| totalItems := 0; hitCount := 0; missCount := 0; hitRate := 0%Q;
     totalSize := 0; averageItemSize := 0%Q; expiredItems := 0;
     mostAccessedItem := None |}.

Definition MAX_STORAGE_SIZE : Z := 5 * 1024 * 1024.

Section MapOps.
Context {V : Type}.

(** [Map.prototype.get] *)
Fixpoint map_get (k : string) (m : list (CacheItem V)) : option (CacheItem V) :=
  match m with
  | [] => None
  | it :: r => if String.eqb (key it) k then Some it else map_get k r
  end.

(** [Map.prototype.set]: an existing key keeps its place, a new one goes
    last. *)
Fixpoint map_set (it : CacheItem V) (m : list (CacheItem V)) : list (CacheItem V) :=
  match m with
  | [] => [it]
  | x :: r => if String.eqb (key x) (key it) then it :: r else x :: map_set it r
  end.

(** [Map.prototype.delete] *)
Fixpoint map_delete (k : string) (m : list (CacheItem V)) : list (CacheItem V) :=
  match m with
  | [] => []
  | x :: r => if String.eqb (key x) k then r else x :: map_delete k r
  end.

(** The keys of a [Map] are pairwise different. *)
Fixpoint distinct_keys (m : list (CacheItem V)) : bool :=
  match m with
  | [] => true
  | x :: r =>
      match map_get (key x) r with
      | None => distinct_keys r
      | Some _ => false
      end
  end.

Definition sum_sizes (m : list (CacheItem V)) : Z :=
  fold_right (fun it acc => size it + acc) 0 m.
End MapOps.

Section Service.
Context {V : Type}.

(** [calculateSize]: the byte length of [JSON.stringify(data)], or 0 when
    serialising throws. *)
Variable calculateSize : V -> Z.

(** [JSON.stringify(data).length] for the array of all stored items, as
    [saveToStorage] computes it. *)
Variable jsonLength : list (CacheItem V) -> Z.

Variable config : CacheConfig.

Definition isExpired (now : Z) (item : CacheItem V) : bool :=
  expiresAt item <? now.

Definition wouldExceedStorageLimit (additionalSize : Z) (c : CacheService V) : bool :=
  maxSize config <? totalSize (stats c) + additionalSize.

Definition updateHitRate (st : CacheStats) : CacheStats :=
  let total := hitCount st + missCount st in
  {| totalItems := totalItems st; hitCount := hitCount st;
     missCount := missCount st;
     hitRate := if 0 <? total then JS.div (hitCount st) total else 0%Q;
     totalSize := totalSize st; averageItemSize := averageItemSize st;
     expiredItems := expiredItems st;
     mostAccessedItem := mostAccessedItem st |}.

(** The body of [remove] up to the call of [saveToStorage], for the item
    found under the key. *)
Definition remove_entry (item : CacheItem V) (c : CacheService V) : CacheService V :=
  let st := stats c in
  let n := totalItems st - 1 in
  let sz := totalSize st - size item in
  {| memoryCache := map_delete (key item) (memoryCache c);
     stats :=
       {| totalItems := n; hitCount := hitCount st; missCount := missCount st;
          hitRate := hitRate st; totalSize := sz;
          averageItemSize := if 0 <? n then JS.div sz n else 0%Q;
          expiredItems := expiredItems st;
          mostAccessedItem := mostAccessedItem st |} |}.

(** [cleanupOldItems], over the [remove] it calls. *)
Definition cleanupOldItems_with
    (rm : string -> CacheService V -> bool * CacheService V)
    (c : CacheService V) : CacheService V :=
  let items :=
    JS.sort (fun a b => lastAccessedAt a - lastAccessedAt b) (memoryCache c) in
  let removeCount := JS.ceil_fifth (List.length items) in
  fold_left (fun c' it => snd (rm (key it) c')) (firstn removeCount items) c.

(** [saveToStorage], over the [remove] it calls: the write to
    localStorage changes neither the map nor the statistics, the
    eviction pass in front of it does.  A failing write is caught. *)
Definition saveToStorage_with
    (rm : string -> CacheService V -> bool * CacheService V)
    (c : CacheService V) : CacheService V :=
  if MAX_STORAGE_SIZE <? jsonLength (memoryCache c)
  then cleanupOldItems_with rm c
  else c.

(** [remove] calls [saveToStorage], which may call [cleanupOldItems],
    which calls [remove] on a map that has lost an entry.  [fuel] bounds
    the depth of that nesting; the number of stored entries is enough
    (see [remove_fuel_enough]). *)
Fixpoint remove_fuel (fuel : nat) (k : string) (c : CacheService V)
  : bool * CacheService V :=
  match map_get k (memoryCache c) with
  | None => (false, c)
  | Some item =>
      let c1 := remove_entry item c in
      match fuel with
      | O => (true, c1)
      | S n => (true, saveToStorage_with (remove_fuel n) c1)
      end
  end.

Definition remove (k : string) (c : CacheService V) : bool * CacheService V :=
  remove_fuel (List.length (memoryCache c)) k c.

Definition cleanupOldItems (c : CacheService V) : CacheService V :=
  cleanupOldItems_with remove c.

Definition saveToStorage (c : CacheService V) : CacheService V :=
  saveToStorage_with remove c.

Definition updateMostAccessedItem (k : string) (count : Z) (c : CacheService V)
  : option string :=
  match mostAccessedItem (stats c) with
  | None => Some k
  | Some EmptyString => Some k
  | Some cur =>
      match map_get cur (memoryCache c) with
      | None => Some k
      | Some currentItem =>
          if accessCount currentItem <? count then Some k else Some cur
      end
  end.

Definition count_miss (expired : bool) (c : CacheService V) : CacheService V :=
  let st := stats c in
  {| memoryCache := memoryCache c;
     stats :=
       updateHitRate
         {| totalItems := totalItems st; hitCount := hitCount st;
            missCount := missCount st + 1; hitRate := hitRate st;
            totalSize := totalSize st; averageItemSize := averageItemSize st;
            expiredItems := if expired then expiredItems st + 1 else expiredItems st;
            mostAccessedItem := mostAccessedItem st |} |}.

(** The hit branch of [get]: the stored item is updated in place. *)
Definition touch (now : Z) (item : CacheItem V) (c : CacheService V) : CacheService V :=
  let item' :=
    {| key := key item; data := data item; createdAt := createdAt item;
       expiresAt := expiresAt item; lastAccessedAt := now;
       accessCount := accessCount item + 1; size := size item;
       tags := tags item |} in
  let c' := {| memoryCache := map_set item' (memoryCache c); stats := stats c |} in
  let st := stats c in
  {| memoryCache := memoryCache c';
     stats :=
       updateHitRate
         {| totalItems := totalItems st; hitCount := hitCount st + 1;
            missCount := missCount st; hitRate := hitRate st;
            totalSize := totalSize st; averageItemSize := averageItemSize st;
            expiredItems := expiredItems st;
            mostAccessedItem :=
              updateMostAccessedItem (key item) (accessCount item') c' |} |}.

(** [get]: [None] is [null]. *)
Definition get (k : string) (now : Z) (c : CacheService V)
  : option V * CacheService V :=
  match map_get k (memoryCache c) with
  | None => (None, count_miss false c)
  | Some item =>
      if isExpired now item
      then (None, count_miss true (snd (remove k c)))
      else (Some (data item), touch now item c)
  end.

(** The capacity check of [set] and the sweep it may start: whether the
    write goes on, and the cache it goes on with. *)
Definition set_room (sz : Z) (c : CacheService V) : bool * CacheService V :=
  if wouldExceedStorageLimit sz c
  then
    let c' := cleanupOldItems c in
    (negb (wouldExceedStorageLimit sz c'), c')
  else (true, c).

Definition new_item (k : string) (d : V) (ttl : option Z) (now : Z) : CacheItem V :=
  {| key := k; data := d; createdAt := now;
     expiresAt := now + JS.or_default ttl (defaultTTL config);
     lastAccessedAt := now; accessCount := 0;
     size := calculateSize d; tags := [] |}.

(** The insertion of [set], up to the call of [saveToStorage]. *)
Definition set_insert (item : CacheItem V) (c : CacheService V) : CacheService V :=
  let st := stats c in
  let '(ts, ti) :=
    match map_get (key item) (memoryCache c) with
    | Some existingItem => (totalSize st - size existingItem, totalItems st)
    | None => (totalSize st, totalItems st + 1)
    end in
  let ts' := ts + size item in
  {| memoryCache := map_set item (memoryCache c);
     stats :=
       {| totalItems := ti; hitCount := hitCount st; missCount := missCount st;
          hitRate := hitRate st; totalSize := ts';
          averageItemSize := JS.div ts' ti;
          expiredItems := expiredItems st;
          mostAccessedItem := mostAccessedItem st |} |}.

Definition set (k : string) (d : V) (ttl : option Z) (now : Z) (c : CacheService V)
  : bool * CacheService V :=
  let '(room, c1) := set_room (calculateSize d) c in
  if room
  then (true, saveToStorage (set_insert (new_item k d ttl now) c1))
  else (false, c1).

Definition clear (c : CacheService V) : CacheService V :=
  {| memoryCache := []; stats := emptyStats |}.

(** [has] *)
Definition has (k : string) (now : Z) (c : CacheService V) : bool :=
  match map_get k (memoryCache c) with
  | Some item => negb (isExpired now item)
  | None => false
  end.

(** One callback of the [forEach] in [cleanup]: an entry that an earlier
    callback deleted is not visited. *)
Definition cleanup_visit (now : Z) (acc : Z * CacheService V) (it : CacheItem V)
  : Z * CacheService V :=
  let '(cleanedCount, c) := acc in
  match map_get (key it) (memoryCache c) with
  | Some cur =>
      if isExpired now cur
      then (cleanedCount + 1, snd (remove (key it) c))
      else (cleanedCount, c)
  | None => (cleanedCount, c)
  end.

Definition cleanup (now : Z) (c : CacheService V) : Z * CacheService V :=
  let '(cleanedCount, c') :=
    fold_left (cleanup_visit now) (memoryCache c) (0, c) in
  let st := stats c' in
  (cleanedCount,
   {| memoryCache := memoryCache c';
      stats :=
        {| totalItems := totalItems st; hitCount := hitCount st;
           missCount := missCount st; hitRate := hitRate st;
           totalSize := totalSize st; averageItemSize := averageItemSize st;
           expiredItems := expiredItems st + cleanedCount;
           mostAccessedItem := mostAccessedItem st |} |}).

Definition updateStatsFromMemory (c : CacheService V) : CacheService V :=
  let st := stats c in
  let n := Z.of_nat (List.length (memoryCache c)) in
  let sz := fold_left (fun acc it => acc + size it) (memoryCache c) 0 in
  {| memoryCache := memoryCache c;
     stats :=
       {| totalItems := n; hitCount := hitCount st; missCount := missCount st;
          hitRate := hitRate st; totalSize := sz;
          averageItemSize := if 0 <? n then JS.div sz n else 0%Q;
          expiredItems := expiredItems st;
          mostAccessedItem := mostAccessedItem st |} |}.

(** The constructor: [loadFromStorage] over the items of the stored
    array that pass [isValidCacheItem].  An absent or malformed snapshot
    is the empty array. *)
Definition loadFromStorage (stored : list (CacheItem V)) (now : Z) : CacheService V :=
  updateStatsFromMemory
    {| memoryCache :=
         fold_left
           (fun m it => if isExpired now it then m else map_set it m)
           stored [];
       stats := emptyStats |}.

(** The public operations, as a caller issues them. *)
Inductive Op : Type :=
| OGet (k : string) (now : Z)
| OSet (k : string) (d : V) (ttl : option Z) (now : Z)
| ORemove (k : string)
| OClear
| OCleanup (now : Z).

Definition apply (c : CacheService V) (o : Op) : CacheService V :=
  match o with
  | OGet k now => snd (get k now c)
  | OSet k d ttl now => snd (set k d ttl now c)
  | ORemove k => snd (remove k c)
  | OClear => clear c
  | OCleanup now => snd (cleanup now c)
  end.

Definition run (ops : list Op) (c : CacheService V) : CacheService V :=
  fold_left apply ops c.

(** The aggregate statistics agree with the stored entries. *)
Definition stats_consistent (c : CacheService V) : Prop :=
  totalItems (stats c) = Z.of_nat (List.length (memoryCache c)) /\
  totalSize (stats c) = sum_sizes (memoryCache c) /\
  averageItemSize (stats c) =
    (if 0 <? totalItems (stats c)
     then JS.div (totalSize (stats c)) (totalItems (stats c))
     else 0%Q).

End Service.

End Cache.


(* ================================================================== *)
(** ** types/api.ts *)
(* ================================================================== *)

Module Api.

Inductive RequestStatus : Type :=
| PENDING | PROCESSING | COMPLETED | FAILED | RETRYING | CANCELLED.

Definition status_eqb (a b : RequestStatus) : bool :=
  match a, b with
  | PENDING, PENDING | PROCESSING, PROCESSING | COMPLETED, COMPLETED
  | FAILED, FAILED | RETRYING, RETRYING | CANCELLED, CANCELLED => true
  | _, _ => false
  end.

Record RetryPolicy : Type := mkPolicy {
  maxRetries : Z;
  retryDelay : Z;
  useExponentialBackoff : bool;
  maxRetryDelay : Z
}.

Definition DEFAULT_RETRY_POLICY : RetryPolicy :=
  {| maxRetries := 3; retryDelay := 1000;
     useExponentialBackoff := true; maxRetryDelay := 30000 |}.

Inductive ApiErrorType : Type :=
| RATE_LIMIT_EXCEEDED | NETWORK_ERROR | TIMEOUT
| INVALID_REQUEST | SERVER_ERROR | UNKNOWN.

(** An [Error] object seen as an [ApiError]: the classifiers cast the error
    they are given and assign the fields, so before classification the
    fields may be missing, and a field that a classifier does not assign
    keeps the value it had. *)
Record ApiError : Type := mkError {
  message : string;
  type : option ApiErrorType;
  retryable : option bool;
  retryAfter : option Z
}.

(** [new Error(msg)] *)
Definition Error (msg : string) : ApiError :=
  {| message := msg; type := None; retryable := None; retryAfter := None |}.

(** The fields of [API_CONFIG.RATE_LIMIT] (config file, [getConfig] keeps
    both in every environment) that the Gemini service reads. *)
Definition RETRY_DELAY_MS : Z := 5000.
Definition MAX_RETRIES : Z := 3.

End Api.

(* ================================================================== *)
(** ** services/requestQueue.ts *)
(* ================================================================== *)

Module Queue.
Import Api.

Section RequestQueue.
(** The request and result types of [addRequest<T, R>]. *)
Context {T R : Type}.

(** [QueueItem] of types/api.ts; [None] is [undefined]. *)
Record QueueItem : Type := mkQueueItem {
  id : string;
  request : T;
  status : RequestStatus;
  createdAt : Z;
  startedAt : option Z;
  completedAt : option Z;
  retryCount : Z;
  retryPolicy : RetryPolicy;
  priority : Z;
  error : option ApiError;
  result : option R
}.

Record Stats : Type := mkStats {
  totalProcessed : Z;
  totalFailed : Z;
  totalRetries : Z;
  averageProcessingTime : JS.number
}.

(** What [emit] is called with, whoever listens. *)
Inductive Emitted : Type :=
| requestAdded (i : string) (req : T)
| requestStarted (i : string) (req : T)
| requestCompleted (i : string) (res : option R)
| requestRetrying (i : string) (count delay : Z)
| requestFailed (i : string) (e : ApiError)
| requestCancelled (i : string)
| queueCleared.

(** The fields of a [RequestQueue].  [processing] is the [Set<string>] of
    ids, [emitted] the calls of [emit] so far, oldest first. *)
Record RequestQueue : Type := mkQueue {
  queue : list QueueItem;
  processing : list string;
  isProcessing : bool;
  stats : Stats;
  maxConcurrentRequests : Z;
  defaultRetryPolicy : RetryPolicy;
  emitted : list Emitted
}.

Definition emptyStats : Stats :=
  {| totalProcessed := 0; totalFailed := 0; totalRetries := 0;
     averageProcessingTime := JS.of_Z 0 |}.

(** The constructor; [startProcessing] sets [isProcessing] before its first
    iteration. *)
Definition new (maxConcurrent : Z) (policy : RetryPolicy) : RequestQueue :=
  {| queue := []; processing := []; isProcessing := true; stats := emptyStats;
     maxConcurrentRequests := maxConcurrent; defaultRetryPolicy := policy;
     emitted := [] |}.

(** Field updates of the mutable objects. *)
Definition with_status (s : RequestStatus) (it : QueueItem) : QueueItem :=
  {| id := id it; request := request it; status := s; createdAt := createdAt it;
     startedAt := startedAt it; completedAt := completedAt it;
     retryCount := retryCount it; retryPolicy := retryPolicy it;
     priority := priority it; error := error it; result := result it |}.

Definition with_startedAt (t : Z) (it : QueueItem) : QueueItem :=
  {| id := id it; request := request it; status := status it;
     createdAt := createdAt it; startedAt := Some t;
     completedAt := completedAt it; retryCount := retryCount it;
     retryPolicy := retryPolicy it; priority := priority it;
     error := error it; result := result it |}.

Definition with_completedAt (t : Z) (it : QueueItem) : QueueItem :=
  {| id := id it; request := request it; status := status it;
     createdAt := createdAt it; startedAt := startedAt it;
     completedAt := Some t; retryCount := retryCount it;
     retryPolicy := retryPolicy it; priority := priority it;
     error := error it; result := result it |}.

Definition with_retryCount (n : Z) (it : QueueItem) : QueueItem :=
  {| id := id it; request := request it; status := status it;
     createdAt := createdAt it; startedAt := startedAt it;
     completedAt := completedAt it; retryCount := n;
     retryPolicy := retryPolicy it; priority := priority it;
     error := error it; result := result it |}.

Definition with_error (e : ApiError) (it : QueueItem) : QueueItem :=
  {| id := id it; request := request it; status := status it;
     createdAt := createdAt it; startedAt := startedAt it;
     completedAt := completedAt it; retryCount := retryCount it;
     retryPolicy := retryPolicy it; priority := priority it;
     error := Some e; result := result it |}.

Definition with_queue (l : list QueueItem) (q : RequestQueue) : RequestQueue :=
  {| queue := l; processing := processing q; isProcessing := isProcessing q;
     stats := stats q; maxConcurrentRequests := maxConcurrentRequests q;
     defaultRetryPolicy := defaultRetryPolicy q; emitted := emitted q |}.

Definition with_processing (p : list string) (q : RequestQueue) : RequestQueue :=
  {| queue := queue q; processing := p; isProcessing := isProcessing q;
     stats := stats q; maxConcurrentRequests := maxConcurrentRequests q;
     defaultRetryPolicy := defaultRetryPolicy q; emitted := emitted q |}.

Definition with_isProcessing (b : bool) (q : RequestQueue) : RequestQueue :=
  {| queue := queue q; processing := processing q; isProcessing := b;
     stats := stats q; maxConcurrentRequests := maxConcurrentRequests q;
     defaultRetryPolicy := defaultRetryPolicy q; emitted := emitted q |}.

Definition with_stats (s : Stats) (q : RequestQueue) : RequestQueue :=
  {| queue := queue q; processing := processing q;
     isProcessing := isProcessing q; stats := s;
     maxConcurrentRequests := maxConcurrentRequests q;
     defaultRetryPolicy := defaultRetryPolicy q; emitted := emitted q |}.

(** [this.emit(event, data)] *)
Definition emit (e : Emitted) (q : RequestQueue) : RequestQueue :=
  {| queue := queue q; processing := processing q;
     isProcessing := isProcessing q; stats := stats q;
     maxConcurrentRequests := maxConcurrentRequests q;
     defaultRetryPolicy := defaultRetryPolicy q;
     emitted := emitted q ++ [e] |}.

(** An item object is designated by the place it has in the [queue] array
    at the moment it is used; [set_item] writes a mutated object back. *)
Fixpoint set_item (i : nat) (it : QueueItem) (l : list QueueItem) : list QueueItem :=
  match l, i with
  | [], _ => []
  | _ :: r, O => it :: r
  | x :: r, S j => x :: set_item j it r
  end.

Definition mutate (i : nat) (f : QueueItem -> QueueItem) (q : RequestQueue)
  : RequestQueue :=
  match nth_error (queue q) i with
  | Some it => with_queue (set_item i (f it) (queue q)) q
  | None => q
  end.

(** [Set.prototype.has], [add] and [delete] *)
Definition set_has (k : string) (s : list string) : bool :=
  existsb (String.eqb k) s.

Definition set_add (k : string) (s : list string) : list string :=
  if set_has k s then s else s ++ [k].

Definition set_delete (k : string) (s : list string) : list string :=
  filter (fun x => negb (String.eqb k x)) s.

(** The comparator of [sortQueueByPriority]. *)
Definition compare_items (a b : QueueItem) : Z :=
  if negb (priority a =? priority b)
  then priority a - priority b
  else createdAt a - createdAt b.

Definition sortQueueByPriority (q : RequestQueue) : RequestQueue :=
  with_queue (JS.sort compare_items (queue q)) q.

(** [Partial<RetryPolicy>] *)
Record PartialRetryPolicy : Type := mkPartial {
  p_maxRetries : option Z;
  p_retryDelay : option Z;
  p_useExponentialBackoff : option bool;
  p_maxRetryDelay : option Z
}.

(** The [options] argument of [addRequest]. *)
Record Options : Type := mkOptions {
  o_priority : option Z;
  o_retryPolicy : option PartialRetryPolicy;
  o_timeout : option Z
}.

Definition no_options : Options :=
  {| o_priority := None; o_retryPolicy := None; o_timeout := None |}.

Definition from_option {A : Type} (o : option A) (d : A) : A :=
  match o with Some v => v | None => d end.

(** [{ ...this.defaultRetryPolicy, ...options.retryPolicy }] *)
Definition merge_policy (d : RetryPolicy) (o : option PartialRetryPolicy) : RetryPolicy :=
  match o with
  | None => d
  | Some p =>
      {| maxRetries := from_option (p_maxRetries p) (maxRetries d);
         retryDelay := from_option (p_retryDelay p) (retryDelay d);
         useExponentialBackoff :=
           from_option (p_useExponentialBackoff p) (useExponentialBackoff d);
         maxRetryDelay := from_option (p_maxRetryDelay p) (maxRetryDelay d) |}
  end.

(** What the promise that an async handler returns comes to. *)
Inductive Promised : Type :=
| Fulfils (r : R)
| Rejects (e : ApiError).

(** [addRequest] up to the [return]: [newId] is what [generateId] returns
    and [now] the clock.  The source hands [handler] on to
    [waitForCompletion] and does nothing else with it; what it returns is
    the promise of [waitForCompletion newId handler (o_timeout options)]
    on the queue it leaves. *)
Definition addRequest (req : T) (handler : T -> Promised) (options : Options)
    (newId : string) (now : Z) (q : RequestQueue) : RequestQueue :=
  let queueItem :=
    {| id := newId; request := req; status := PENDING; createdAt := now;
       startedAt := None; completedAt := None; retryCount := 0;
       retryPolicy := merge_policy (defaultRetryPolicy q) (o_retryPolicy options);
       priority := JS.or_default (o_priority options) 0;
       error := None; result := None |} in
  emit (requestAdded newId req)
    (sortQueueByPriority (with_queue (queue q ++ [queueItem]) q)).

(** How the promise of [waitForCompletion] stands. *)
Inductive Settled : Type :=
| Resolved (value : option R)
| RejectedNotFound
| RejectedWith (e : option ApiError)
| RejectedCancelled
| RejectedTimedOut
| StillWaiting.

Definition is_waiting (s : Settled) : bool :=
  match s with
  | StillWaiting => true
  | _ => false
  end.

(** One run of [checkCompletion] for the id [i]: what it makes of a promise
    that is not settled. *)
Definition checkCompletion (i : string) (q : RequestQueue) : Settled :=
  match find (fun it => String.eqb (id it) i) (queue q) with
  | None => RejectedNotFound
  | Some item =>
      match status item with
      | COMPLETED => Resolved (result item)
      | FAILED => RejectedWith (error item)
      | CANCELLED => RejectedCancelled
      | _ => StillWaiting
      end
  end.

(** The promise of [waitForCompletion]: whether its timeout timer is set,
    and how it stands.  Every run of [checkCompletion] that settles the
    promise clears the timer. *)
Record Promise : Type := mkPromise {
  timer : bool;
  settled : Settled
}.

(** [waitForCompletion(id, handler, timeout)]: the executor of the promise
    sets the timer when [timeout] is truthy and runs [checkCompletion]
    once.  The source never uses [handler]. *)
Definition waitForCompletion (i : string) (handler : T -> Promised)
    (timeout : option Z) (q : RequestQueue) : Promise :=
  let s := checkCompletion i q in
  {| timer := JS.truthy timeout && is_waiting s; settled := s |}.

(** A later run of [checkCompletion], which follows every 100 ms on a run
    that found the item neither absent nor in a final state.  Once the
    promise is settled the runs that may still follow do not change it. *)
Definition check (i : string) (p : Promise) (q : RequestQueue) : Promise :=
  if is_waiting (settled p)
  then
    let s := checkCompletion i q in
    {| timer := timer p && is_waiting s; settled := s |}
  else p.

Fixpoint find_index {A : Type} (p : A -> bool) (l : list A) : option nat :=
  match l with
  | [] => None
  | x :: r => if p x then Some O else option_map S (find_index p r)
  end.

Definition is_pending (it : QueueItem) : bool := status_eqb (status it) PENDING.

(** [getNextPendingItem]: the place of the object that [find] returns. *)
Definition getNextPendingItem (q : RequestQueue) : option nat :=
  find_index is_pending (queue q).

Definition updateStats (item : QueueItem) (q : RequestQueue) : RequestQueue :=
  let st := stats q in
  let avg :=
    if (JS.truthy (startedAt item) && JS.truthy (completedAt item))%bool
    then
      let processingTime :=
        from_option (completedAt item) 0 - from_option (startedAt item) 0 in
      JS.over
        (JS.plus
           (JS.times (averageProcessingTime st) (JS.of_Z (totalProcessed st)))
           (JS.of_Z processingTime))
        (JS.of_Z (totalProcessed st + 1))
    else averageProcessingTime st in
  with_stats
    {| totalProcessed := totalProcessed st + 1;
       totalFailed :=
         if status_eqb (status item) FAILED
         then totalFailed st + 1 else totalFailed st;
       totalRetries :=
         if 0 <? retryCount item
         then totalRetries st + retryCount item else totalRetries st;
       averageProcessingTime := avg |} q.

(** [calculateRetryDelay]; its only caller has just incremented
    [retryCount], which makes the exponent a natural number. *)
Definition calculateRetryDelay (item : QueueItem) : Z :=
  let p := retryPolicy item in
  let delay := retryDelay p in
  if useExponentialBackoff p
  then Z.min (delay * 2 ^ (retryCount item - 1)) (maxRetryDelay p)
  else delay.

(** [createApiError] of the queue. *)
Definition createApiError (e : ApiError) : ApiError :=
  let m := message e in
  if (JS.includes m "429" || JS.includes m "rate limit")%bool then
    {| message := m; type := Some RATE_LIMIT_EXCEEDED; retryable := Some true;
       retryAfter := Some 5000 |}
  else if (JS.includes m "network" || JS.includes m "fetch")%bool then
    {| message := m; type := Some NETWORK_ERROR; retryable := Some true;
       retryAfter := retryAfter e |}
  else if JS.includes m "timeout" then
    {| message := m; type := Some TIMEOUT; retryable := Some true;
       retryAfter := retryAfter e |}
  else
    {| message := m; type := Some UNKNOWN; retryable := Some false;
       retryAfter := retryAfter e |}.

Definition is_true (b : option bool) : bool :=
  match b with Some true => true | _ => false end.

(** [handleRequestError(item, error)] for the item at place [i].  The
    second component is the delay given to [setTimeout] when a retry is
    scheduled. *)
Definition handleRequestError (i : nat) (e : ApiError) (now : Z) (q : RequestQueue)
  : RequestQueue * option Z :=
  match nth_error (queue q) i with
  | None => (q, None)
  | Some item0 =>
      let apiError := createApiError e in
      let item := with_error apiError item0 in
      if ((retryCount item <? maxRetries (retryPolicy item))
          && is_true (retryable apiError))%bool
      then
        let item' := with_retryCount (retryCount item + 1) (with_status RETRYING item) in
        let delay := calculateRetryDelay item' in
        (emit (requestRetrying (id item') (retryCount item') delay)
           (with_queue (set_item i item' (queue q)) q),
         Some delay)
      else
        let item' := with_completedAt now (with_status FAILED item) in
        (emit (requestFailed (id item') apiError)
           (updateStats item' (with_queue (set_item i item' (queue q)) q)),
         None)
  end.

(** The callback that [handleRequestError] gives to [setTimeout], run for
    the item that is now at place [i]. *)
Definition retryTimer (i : nat) (q : RequestQueue) : RequestQueue :=
  sortQueueByPriority (mutate i (with_status PENDING) q).

(** How the [try] block of [processRequest] ends.  The block of the source
    has no call that can throw ([emit] catches what a listener throws), so
    the source always runs as [Returns]; [Throws] is the path through its
    [catch] clause, taken from the head of the block, where the comment of
    the source puts the call of the handler. *)
Inductive Outcome : Type :=
| Returns
| Throws (e : ApiError).

(** [processRequest] up to and including [emit('requestStarted')]. *)
Definition processRequest_started (i : nat) (t_start : Z) (q : RequestQueue)
  : RequestQueue :=
  match nth_error (queue q) i with
  | None => q
  | Some item =>
      let item' := with_startedAt t_start (with_status PROCESSING item) in
      emit (requestStarted (id item') (request item'))
        (with_queue (set_item i item' (queue q))
           (with_processing (set_add (id item) (processing q)) q))
  end.

(** The [try] block. *)
Definition processRequest_try (i : nat) (t_end : Z) (q : RequestQueue)
  : RequestQueue :=
  match nth_error (queue q) i with
  | None => q
  | Some item =>
      let item' := with_completedAt t_end (with_status COMPLETED item) in
      emit (requestCompleted (id item') (result item'))
        (updateStats item' (with_queue (set_item i item' (queue q)) q))
  end.

(** The [finally] block. *)
Definition processRequest_finally (k : string) (q : RequestQueue) : RequestQueue :=
  with_processing (set_delete k (processing q)) q.

Definition processRequest_with (o : Outcome) (i : nat) (t_start t_end : Z)
    (q : RequestQueue) : RequestQueue * option Z :=
  match nth_error (queue q) i with
  | None => (q, None)
  | Some item =>
      if set_has (id item) (processing q) then (q, None)
      else
        let q1 := processRequest_started i t_start q in
        let '(q2, timer) :=
          match o with
          | Returns => (processRequest_try i t_end q1, None)
          | Throws e => handleRequestError i e t_end q1
          end in
        (processRequest_finally (id item) q2, timer)
  end.

(** [processRequest] as the source has it. *)
Definition processRequest (i : nat) (t_start t_end : Z) (q : RequestQueue)
  : RequestQueue :=
  fst (processRequest_with Returns i t_start t_end q).

(** One turn of the [while] loop of [startProcessing]: the item it admits,
    if any. *)
Definition admits (q : RequestQueue) : option nat :=
  if isProcessing q
  then
    let availableSlots :=
      maxConcurrentRequests q - Z.of_nat (List.length (processing q)) in
    if 0 <? availableSlots then getNextPendingItem q else None
  else None.

Definition startProcessing_turn (t_start t_end : Z) (q : RequestQueue)
  : RequestQueue :=
  match admits q with
  | Some i => processRequest i t_start t_end q
  | None => q
  end.

Definition cancelRequest (k : string) (now : Z) (q : RequestQueue)
  : bool * RequestQueue :=
  match find_index (fun it => String.eqb (id it) k) (queue q) with
  | None => (false, q)
  | Some i =>
      match nth_error (queue q) i with
      | None => (false, q)
      | Some item =>
          if status_eqb (status item) COMPLETED then (false, q)
          else
            (true,
             emit (requestCancelled k)
               (mutate i (fun it => with_completedAt now (with_status CANCELLED it)) q))
      end
  end.

Definition count_status (s : RequestStatus) (q : RequestQueue) : Z :=
  Z.of_nat (List.length (filter (fun it => status_eqb (status it) s) (queue q))).

(** [RequestQueueStatus] of types/api.ts. *)
Record RequestQueueStatus : Type := mkStatus {
  totalLength : Z;
  pendingCount : Z;
  processingCount : Z;
  failedCount : Z;
  retryingCount : Z;
  st_averageProcessingTime : JS.number
}.

Definition getStatus (q : RequestQueue) : RequestQueueStatus :=
  {| totalLength := Z.of_nat (List.length (queue q));
     pendingCount := count_status PENDING q;
     processingCount := Z.of_nat (List.length (processing q));
     failedCount := count_status FAILED q;
     retryingCount := count_status RETRYING q;
     st_averageProcessingTime := averageProcessingTime (stats q) |}.

Definition clear (q : RequestQueue) : RequestQueue :=
  emit queueCleared
    (with_stats emptyStats (with_processing [] (with_queue [] q))).

Definition stop (q : RequestQueue) : RequestQueue := with_isProcessing false q.

(** [start()]: when the loop does not run, [startProcessing] sets
    [isProcessing] and the first turn of its loop is taken before [start]
    returns. *)
Definition start (t_start t_end : Z) (q : RequestQueue) : RequestQueue :=
  if isProcessing q then q
  else startProcessing_turn t_start t_end (with_isProcessing true q).

(** The callback of the timeout timer of [waitForCompletion]:
    [cancelRequest(id)], then the promise is rejected as timed out. *)
Definition timeoutTimer (i : string) (now : Z) (p : Promise) (q : RequestQueue)
  : Promise * RequestQueue :=
  if timer p
  then
    ({| timer := false;
        settled := if is_waiting (settled p) then RejectedTimedOut else settled p |},
     snd (cancelRequest i now q))
  else (p, q).

(** What can happen to a queue: the calls of its public methods and the
    turns of its processing loop. *)
Inductive Op : Type :=
| OAdd (req : T) (handler : T -> Promised) (options : Options) (newId : string)
       (now : Z)
| OTurn (t_start t_end : Z)
| OCancel (k : string) (now : Z)
| OClear
| OStop
| OStart (t_start t_end : Z).

Definition apply (q : RequestQueue) (o : Op) : RequestQueue :=
  match o with
  | OAdd req handler options newId now => addRequest req handler options newId now q
  | OTurn t_start t_end => startProcessing_turn t_start t_end q
  | OCancel k now => snd (cancelRequest k now q)
  | OClear => clear q
  | OStop => stop q
  | OStart t_start t_end => start t_start t_end q
  end.

Definition run (ops : list Op) (q : RequestQueue) : RequestQueue :=
  fold_left apply ops q.

(** The ids of the items admitted so far, in the order of admission. *)
Definition admission_order (q : RequestQueue) : list string :=
  flat_map (fun e => match e with requestStarted i _ => [i] | _ => [] end)
    (emitted q).

(** The retry delays handed to [setTimeout] so far. *)
Definition scheduled_delays (q : RequestQueue) : list Z :=
  flat_map (fun e => match e with requestRetrying _ _ d => [d] | _ => [] end)
    (emitted q).

(** [a] goes before [b], or may: smaller priority, then older. *)
Definition goes_first (a b : QueueItem) : Prop :=
  priority a < priority b \/
  (priority a = priority b /\ createdAt a <= createdAt b).

End RequestQueue.

Arguments QueueItem : clear implicits.
Arguments RequestQueue : clear implicits.
Arguments Emitted : clear implicits.
Arguments Op : clear implicits.
Arguments Settled : clear implicits.
Arguments Promised : clear implicits.
Arguments Promise : clear implicits.

End Queue.

(* ================================================================== *)
(** ** services/geminiService.ts: the two services' own retry helpers *)
(* ================================================================== *)

Module GeminiService.
Import Api.

(** [calculateRetryDelay(attempt, retryAfter)] *)
Definition calculateRetryDelay (attempt : Z) (after : option Z) : Z :=
  if JS.truthy after
  then match after with Some d => d | None => 0 end
  else Z.min (RETRY_DELAY_MS * 2 ^ attempt) 30000.

Definition createApiError (e : ApiError) : ApiError :=
  let m := message e in
  if (JS.includes m "429" || JS.includes m "RESOURCE_EXHAUSTED")%bool then
    {| message := m; type := Some RATE_LIMIT_EXCEEDED; retryable := Some true;
       retryAfter := Some 5000 |}
  else if (JS.includes m "network" || JS.includes m "fetch")%bool then
    {| message := m; type := Some NETWORK_ERROR; retryable := Some true;
       retryAfter := retryAfter e |}
  else if JS.includes m "timeout" then
    {| message := m; type := Some TIMEOUT; retryable := Some true;
       retryAfter := retryAfter e |}
  else
    {| message := m; type := Some UNKNOWN; retryable := Some false;
       retryAfter := retryAfter e |}.

End GeminiService.

Module OllamaService.
Import Api.

Definition getErrorType (e : ApiError) : ApiErrorType :=
  let m := JS.toLowerCase (message e) in
  if (JS.includes m "rate limit" || JS.includes m "429")%bool then RATE_LIMIT_EXCEEDED
  else if (JS.includes m "network" || JS.includes m "fetch")%bool then NETWORK_ERROR
  else if JS.includes m "timeout" then TIMEOUT
  else if (JS.includes m "400" || JS.includes m "invalid")%bool then INVALID_REQUEST
  else if (JS.includes m "500" || JS.includes m "server")%bool then SERVER_ERROR
  else UNKNOWN.

Definition isRetryableError (e : ApiError) : bool :=
  let m := JS.toLowerCase (message e) in
  (JS.includes m "network" || JS.includes m "timeout"
   || JS.includes m "500" || JS.includes m "server")%bool.

Definition createApiError (e : ApiError) : ApiError :=
  {| message := message e; type := Some (getErrorType e);
     retryable := Some (isRetryableError e); retryAfter := retryAfter e |}.

End OllamaService.


(* ================================================================== *)
(** ** Notions used to state the properties, and concrete caches *)
(* ================================================================== *)

Module CacheSpec.
Import Cache.

Section Sweep.
Context {V : Type}.
Variable jsonLength : list (CacheItem V) -> Z.

(** The comparator of [cleanupOldItems]. *)
Definition by_lastAccessed (a b : CacheItem V) : Z :=
  lastAccessedAt a - lastAccessedAt b.

(** The entries that the loop of [cleanupOldItems] asks [remove] for. *)
Definition victims (c : CacheService V) : list (CacheItem V) :=
  firstn (JS.ceil_fifth (List.length (memoryCache c)))
    (JS.sort by_lastAccessed (memoryCache c)).

Definition delete_all (l : list (CacheItem V)) (m : list (CacheItem V))
  : list (CacheItem V) :=
  fold_left (fun m' it => map_delete (key it) m') l m.

(** Every snapshot written during the sweep fits the storage cap, so that
    no [saveToStorage] starts an eviction pass of its own. *)
Definition sweep_fits (c : CacheService V) : bool :=
  forallb
    (fun j =>
       jsonLength (delete_all (firstn j (victims c)) (memoryCache c))
       <=? MAX_STORAGE_SIZE)
    (seq 1 (List.length (victims c))).

(** The number of stored entries. *)
Definition entries (c : CacheService V) : nat := List.length (memoryCache c).

(** The cache holds a [Map]. *)
Definition well_formed (c : CacheService V) : Prop :=
  distinct_keys (memoryCache c) = true.

End Sweep.

(** The counters of [get] agree. *)
Definition same_counters (s1 s2 : CacheStats) : Prop :=
  missCount s1 = missCount s2 /\ expiredItems s1 = expiredItems s2 /\
  hitCount s1 = hitCount s2.

(** A payload given by the number of bytes of its JSON text. *)
Definition sized_payload_size (bytes : Z) : Z := bytes.

(** The snapshot of a cache of ASCII payloads is at least as long as the
    brackets of the array and the JSON texts of the payloads together;
    this is that length. *)
Definition payload_length (m : list (CacheItem Z)) : Z := 2 + sum_sizes m.

Definition empty_cache : CacheService Z := loadFromStorage [] 0.

Definition small_config : CacheConfig :=
  {| enabled := true; defaultTTL := 1000; maxSize := 100; maxItems := 1000;
     cleanupInterval := 3600000; useCompression := false |}.

(** Five entries of 20 bytes written in the same millisecond. *)
Definition five_at_once : CacheService Z :=
  run sized_payload_size payload_length small_config
    [OSet "k1" 20 None 0; OSet "k2" 20 None 0; OSet "k3" 20 None 0;
     OSet "k4" 20 None 0; OSet "k5" 20 None 0]
    empty_cache.

(** Five entries of 20 bytes written one millisecond apart. *)
Definition five_in_turn : CacheService Z :=
  run sized_payload_size payload_length small_config
    [OSet "k1" 20 None 1; OSet "k2" 20 None 2; OSet "k3" 20 None 3;
     OSet "k4" 20 None 4; OSet "k5" 20 None 5]
    empty_cache.

Definition stored_item (k : string) (bytes accessed : Z) : CacheItem Z :=
  {| key := k; data := bytes; createdAt := 0; expiresAt := 86400000;
     lastAccessedAt := accessed; accessCount := 0; size := bytes; tags := [] |}.

(** A stored snapshot of five entries of 1.9 MB, as the constructor loads
    it. *)
Definition five_large : CacheService Z :=
  loadFromStorage
    [stored_item "k1" 1900000 1; stored_item "k2" 1900000 2;
     stored_item "k3" 1900000 3; stored_item "k4" 1900000 4;
     stored_item "k5" 1900000 5]
    10.

End CacheSpec.

Module QueueSpec.
Import Api Queue.

Section Scenarios.
Context {T R : Type}.

(** A turn of the processing loop in which the [catch] block of
    [processRequest] is entered with [e], which no statement of its [try]
    block brings about: the queue after it, and the delay of the retry
    timer that [handleRequestError] started, if it started one. *)
Definition failing_turn (e : ApiError) (t : Z) (q : RequestQueue T R)
  : RequestQueue T R * option Z :=
  match admits q with
  | Some i => processRequest_with (Throws e) i t t q
  | None => (q, None)
  end.

Definition is_retrying (it : QueueItem T R) : bool := status_eqb (status it) RETRYING.

(** The retry timer of the item that waits in [RETRYING] fires. *)
Definition retryTimer_due (q : RequestQueue T R) : RequestQueue T R :=
  match find_index is_retrying (queue q) with
  | Some i => retryTimer i q
  | None => q
  end.

(** The rank that [sortQueueByPriority] orders by. *)
Definition rank (it : QueueItem T R) : Z * Z := (priority it, createdAt it).

Definition sorted (q : RequestQueue T R) : Prop :=
  StronglySorted (fun a b => compare_items a b <= 0) (queue q).

(** Between two calls nothing is being processed. *)
Definition idle (q : RequestQueue T R) : Prop :=
  processing q = [] /\ Forall (fun it => status it <> PROCESSING) (queue q).

Definition with_priority (p : Z) : Options :=
  {| o_priority := Some p; o_retryPolicy := None; o_timeout := None |}.

(** A timeout of 30 seconds. *)
Definition half_a_minute : Options :=
  {| o_priority := None; o_retryPolicy := None; o_timeout := Some 30000 |}.

Definition statuses (q : RequestQueue T R) : list RequestStatus :=
  map status (queue q).

(** The object that a completed [processRequest] leaves. *)
Definition completed (t_start t_end : Z) (item : QueueItem T R) : QueueItem T R :=
  with_completedAt t_end
    (with_status COMPLETED (with_startedAt t_start (with_status PROCESSING item))).

(** The object that [handleRequestError] leaves when it schedules a retry,
    and when it gives up. *)
Definition retried (e : ApiError) (t : Z) (item : QueueItem T R) : QueueItem T R :=
  let failed :=
    with_error (createApiError e) (with_startedAt t (with_status PROCESSING item)) in
  with_retryCount (retryCount failed + 1) (with_status RETRYING failed).

Definition gave_up (e : ApiError) (t : Z) (item : QueueItem T R) : QueueItem T R :=
  with_completedAt t
    (with_status FAILED
       (with_error (createApiError e)
          (with_startedAt t (with_status PROCESSING item)))).

(** A running queue that holds the items [l], has a free slot and
    processes nothing. *)
Definition ready (q : RequestQueue T R) (l : list (QueueItem T R)) : Prop :=
  queue q = l /\ processing q = [] /\ isProcessing q = true /\
  0 < maxConcurrentRequests q.

End Scenarios.

(** The policy of the retry property, given as an override. *)
Definition three_retries : Options :=
  {| o_priority := None;
     o_retryPolicy :=
       Some {| p_maxRetries := Some 3; p_retryDelay := Some 1000;
               p_useExponentialBackoff := Some true;
               p_maxRetryDelay := Some 30000 |};
     o_timeout := None |}.

(** [new RequestQueue()], the global instance, for string requests and
    answers. *)
Definition requestQueue : RequestQueue string string :=
  new 1 DEFAULT_RETRY_POLICY.

Definition answer (question : string) : Promised string :=
  Fulfils "answer"%string.

(** A handler whose promise is rejected with the error [e]. *)
Definition refuses (e : ApiError) (question : string) : Promised string :=
  Rejects e.

(** One request on the global queue. *)
Definition one_request : RequestQueue string string :=
  addRequest "question"%string answer no_options "req_1" 0 requestQueue.

(** The request after it was cancelled, and after a turn of the loop. *)
Definition cancelled_request : RequestQueue string string :=
  snd (cancelRequest "req_1" 5 one_request).

Definition completed_request : RequestQueue string string :=
  startProcessing_turn 1 2 one_request.

(** A queue whose only item is [FAILED]. *)
Definition failed_request : RequestQueue string string :=
  mutate 0 (with_status FAILED) one_request.

(** Four requests with priorities 2, 0, 1, 0, one millisecond apart. *)
Definition four_requests : list (Op string string) :=
  [OAdd "first"%string answer (with_priority 2) "a" 1;
   OAdd "second"%string answer (with_priority 0) "b" 2;
   OAdd "third"%string answer (with_priority 1) "c" 3;
   OAdd "fourth"%string answer (with_priority 0) "d" 4].

Definition four_turns : list (Op string string) :=
  [OTurn 5 6; OTurn 7 8; OTurn 9 10; OTurn 11 12].

(** Errors as a backend raises them. *)
Definition network_down : ApiError := Error "network down".
Definition too_many_requests : ApiError := Error "429 Too Many Requests".
Definition internal_server_error : ApiError := Error "500 Internal Server Error".

End QueueSpec.

(* ================================================================== *)
(** ** More of the services: text, the question cache, the Gemini loop *)
(* ================================================================== *)

Module JSText.

(** A character of [\s] and of [trim] among the code units below 256: the
    space, tab to carriage return, and the no-break space U+00A0. *)
Definition is_space (c : ascii) : bool :=
  let n := nat_of_ascii c in
  (Nat.eqb n 32 || (Nat.leb 9 n && Nat.leb n 13) || Nat.eqb n 160)%bool.

Fixpoint trimStart (s : string) : string :=
  match s with
  | EmptyString => EmptyString
  | String c r => if is_space c then trimStart r else s
  end.

Fixpoint trimEnd (s : string) : string :=
  match s with
  | EmptyString => EmptyString
  | String c r =>
      match trimEnd r with
      | EmptyString => if is_space c then EmptyString else String c EmptyString
      | r' => String c r'
      end
  end.

(** [s.trim()] *)
Definition trim (s : string) : string := trimEnd (trimStart s).

(** [s.replace(/\s+/g, ' ')]; [in_run] says that the character before was
    part of the run being replaced. *)
Fixpoint replace_runs (in_run : bool) (s : string) : string :=
  match s with
  | EmptyString => EmptyString
  | String c r =>
      if is_space c
      then if in_run then replace_runs true r else String " " (replace_runs true r)
      else String c (replace_runs false r)
  end.

Definition collapse_spaces (s : string) : string := replace_runs false s.

(** [s.split(' ')] *)
Fixpoint split_space (s : string) : list string :=
  match s with
  | EmptyString => [EmptyString]
  | String c r =>
      if Ascii.eqb c " " then EmptyString :: split_space r
      else
        match split_space r with
        | w :: ws => String c w :: ws
        | [] => [String c EmptyString]
        end
  end.

(** [s.charCodeAt(i)] for every [i]: the characters of a [string] are its
    code units. *)
Fixpoint charCodes (s : string) : list Z :=
  match s with
  | EmptyString => []
  | String c r => Z.of_nat (nat_of_ascii c) :: charCodes r
  end.

(** The conversion of a number to a signed 32-bit integer that [<<] and
    [&] apply to their operands and give as their result. *)
Definition toInt32 (z : Z) : Z := (z + 2 ^ 31) mod 2 ^ 32 - 2 ^ 31.

(** [h << 5] *)
Definition shiftLeft5 (h : Z) : Z := toInt32 (toInt32 h * 32).

Definition digit36 (d : Z) : ascii :=
  if d <? 10 then ascii_of_nat (Z.to_nat (48 + d))
  else ascii_of_nat (Z.to_nat (87 + d)).

Fixpoint digits36 (fuel : nat) (n : Z) (acc : string) : string :=
  match fuel with
  | O => acc
  | S f =>
      let acc' := String (digit36 (n mod 36)) acc in
      if n <? 36 then acc' else digits36 f (n / 36) acc'
  end.

(** [n.toString(36)] for an integer [n >= 0]; a number has fewer digits
    than bits. *)
Definition toString36 (n : Z) : string :=
  digits36 (S (Z.to_nat (Z.log2 n))) n EmptyString.

End JSText.

(** [qaCache] of services/cacheService.ts, over a cache service. *)
Module QaCache.
Import Cache.

(** One turn of the loop of [hashString]. *)
Definition hash_step (hash char : Z) : Z :=
  let hash' := (JSText.shiftLeft5 hash - hash) + char in
  JSText.toInt32 hash'.

(** [hash] when the loop of [hashString] ends. *)
Definition hash_of (str : string) : Z :=
  fold_left hash_step (JSText.charCodes str) 0.

Definition hashString (str : string) : string :=
  JSText.toString36 (Z.abs (hash_of str)).

Definition normalized (question : string) : string :=
  JSText.collapse_spaces (JS.toLowerCase (JSText.trim question)).

Definition generateQuestionKey (question : string) : string :=
  ("qa_" ++ hashString (normalized question))%string.

(** The value that [setAnswer] stores: [{ question, answer }]. *)
Record Pair : Type := mkPair { question : string; answer : string }.

Section Over.
Variable calculateSize : Pair -> Z.
Variable jsonLength : list (CacheItem Pair) -> Z.
Variable config : CacheConfig.

Definition setAnswer (q a : string) (ttl : option Z) (now : Z)
    (c : CacheService Pair) : bool * CacheService Pair :=
  set calculateSize jsonLength config (generateQuestionKey q)
    {| question := q; answer := a |} ttl now c.

Definition getAnswer (q : string) (now : Z) (c : CacheService Pair)
  : option string * CacheService Pair :=
  let '(result, c') := get jsonLength (generateQuestionKey q) now c in
  (option_map answer result, c').
End Over.

End QaCache.

(** The rest of the two services in services/geminiService.ts. *)
Module Response.

(** [ApiResponseStatus] of types/api.ts. *)
Inductive ApiResponseStatus : Type :=
| SUCCESS | ERROR | RATE_LIMITED | CACHED | RETRYING.

End Response.

Module GeminiLoop.
Import Api.

(** [getResponseStatusFromError] of the Gemini service; an error without a
    type takes the [default] branch. *)
Definition getResponseStatusFromError (e : ApiError) : Response.ApiResponseStatus :=
  match type e with
  | Some RATE_LIMIT_EXCEEDED => Response.RATE_LIMITED
  | Some NETWORK_ERROR | Some TIMEOUT => Response.RETRYING
  | _ => Response.ERROR
  end.

(** What one run of [processMessageWithRetry] did: the calls of
    [chatSession.sendMessageStream], the delays it slept, and how it
    ended. *)
Record Run : Type := mkRun {
  calls : nat;
  slept : list Z;
  outcome : ApiError + string
}.

(** The [for] loop of [processMessageWithRetry].  [send k] is how the call
    number [k] of [sendMessageStream] and the reading of its stream end;
    [left] is the number of turns the loop still has, [attempt] its
    counter. *)
Fixpoint attempts (maxRetries : Z) (send : nat -> ApiError + string)
    (left : nat) (attempt : nat) (lastError : option ApiError) (sleeps : list Z)
  : Run :=
  match left with
  | O =>
      {| calls := attempt; slept := sleeps;
         outcome :=
           inl (match lastError with
                | Some e => e
                | None => Error "Unknown error occurred"
                end) |}
  | S left' =>
      match send attempt with
      | inr response =>
          {| calls := S attempt; slept := sleeps; outcome := inr response |}
      | inl error =>
          let apiError := GeminiService.createApiError error in
          if negb (Queue.is_true (retryable apiError))
          then {| calls := S attempt; slept := sleeps; outcome := inl apiError |}
          else if Z.of_nat attempt =? maxRetries
          then {| calls := S attempt; slept := sleeps; outcome := inl apiError |}
          else
            let delay :=
              GeminiService.calculateRetryDelay (Z.of_nat attempt)
                (retryAfter apiError) in
            attempts maxRetries send left' (S attempt) (Some apiError)
              (sleeps ++ [delay])
      end
  end.

(** [processMessageWithRetry]: the loop runs while
    [attempt <= maxRetries]. *)
Definition processMessageWithRetry_for (maxRetries : Z)
    (send : nat -> ApiError + string) : Run :=
  attempts maxRetries send (Z.to_nat (maxRetries + 1)) 0 None [].

Definition processMessageWithRetry (send : nat -> ApiError + string) : Run :=
  processMessageWithRetry_for MAX_RETRIES send.

(** The chunks that [simulateStreamResponse] hands to [onChunk], one every
    50 ms, the first at once. *)
Fixpoint chunks_of (words : list string) : list string :=
  match words with
  | [] => []
  | [w] => [w]
  | w :: rest => (w ++ " ")%string :: chunks_of rest
  end.

Definition simulateStreamResponse (answer : string) : list string :=
  chunks_of (JSText.split_space answer).

End GeminiLoop.

Module OllamaStatus.
Import Api.

(** [getResponseStatusFromError] of the Ollama service. *)
Definition getResponseStatusFromError (e : ApiError) : Response.ApiResponseStatus :=
  match type e with
  | Some RATE_LIMIT_EXCEEDED => Response.RATE_LIMITED
  | Some NETWORK_ERROR | Some TIMEOUT | Some SERVER_ERROR => Response.RETRYING
  | _ => Response.ERROR
  end.

End OllamaStatus.

(** Notions used to state the further properties of the cache. *)
Module MoreCacheSpec.
Import Cache.

Section C.
Context {V : Type}.

(** [hitRate] is the share of hits among the lookups counted. *)
Definition rate_consistent (c : CacheService V) : Prop :=
  hitRate (stats c) =
  (if 0 <? hitCount (stats c) + missCount (stats c)
   then JS.div (hitCount (stats c)) (hitCount (stats c) + missCount (stats c))
   else 0%Q).

(** The entry that a hit of [get] leaves in the map. *)
Definition touched (now : Z) (item : CacheItem V) : CacheItem V :=
  {| key := key item; data := data item; createdAt := createdAt item;
     expiresAt := expiresAt item; lastAccessedAt := now;
     accessCount := accessCount item + 1; size := size item;
     tags := tags item |}.

(** What the caller of [get] receives: the payload of the entry after a
    hit, and [null] after a miss.  A payload can be [null] itself: [null]
    is that value of the payload type. *)
Definition returned (null : V) (r : option V) : V :=
  match r with
  | Some d => d
  | None => null
  end.

(** Every entry of [c'] is an entry of [c]. *)
Definition within (c c' : CacheService V) : Prop :=
  forall x, In x (memoryCache c') -> In x (memoryCache c).

Definition sizes_not_negative (c : CacheService V) : Prop :=
  Forall (fun it => 0 <= size it) (memoryCache c).

End C.

(** The entry that [five_in_turn] holds for the key written at [t]. *)
Definition stored_item_of_set (k : string) (t : Z) : CacheItem Z :=
  new_item CacheSpec.sized_payload_size CacheSpec.small_config k 20 None t.

End MoreCacheSpec.

(** Notions used to state the properties of the text functions. *)
Module TextSpec.

(** The value at 31 of the polynomial whose coefficients are the code
    units, the first one leading. *)
Definition poly31 (codes : list Z) : Z :=
  fold_left (fun h c => 31 * h + c) codes 0.

(** A string of whitespace. *)
Fixpoint all_spaces (s : string) : bool :=
  match s with
  | EmptyString => true
  | String c r => JSText.is_space c && all_spaces r
  end.

(** The number of spaces of a string. *)
Fixpoint count_space (s : string) : nat :=
  match s with
  | EmptyString => O
  | String c r => if Ascii.eqb c " " then S (count_space r) else count_space r
  end.

Definition two_pow_32 : Z := 2 ^ 32.

(** The number that a text in base 36 stands for. *)
Definition digit_value (c : ascii) : Z :=
  let n := Z.of_nat (nat_of_ascii c) in
  if n <? 58 then n - 48 else n - 87.

Fixpoint value36 (s : string) (v : Z) : Z :=
  match s with
  | EmptyString => v
  | String c r => value36 r (36 * v + digit_value c)
  end.

Definition parse36 (s : string) : Z := value36 s 0.

(** A string of ASCII characters. *)
Fixpoint ascii_only (s : string) : bool :=
  match s with
  | EmptyString => true
  | String c r => (nat_of_ascii c <? 128)%nat && ascii_only r
  end.

End TextSpec.

(** A cache of questions and answers to run. *)
Module QaSpec.
Import Cache QaCache.

(** The length of the JSON text of a pair of ASCII strings that need no
    escape: the braces, the two quoted names, the colons, the comma and
    the quotes of the two values take 27 characters. *)
Definition pair_size (p : Pair) : Z :=
  27 + Z.of_nat (String.length (question p) + String.length (answer p)).

(** The snapshot is at least as long as the brackets and the JSON texts of
    the pairs together; this is that length. *)
Definition pairs_length (m : list (CacheItem Pair)) : Z := 2 + sum_sizes m.

Definition no_answers : CacheService Pair := loadFromStorage [] 0.

End QaSpec.

(** Notions used to state the further properties. *)
Module MoreSpec.
Import Api Queue.

Section Q.
Context {T R : Type}.

(** The counter of processed items agrees with the queue, and the mean is
    0 as long as the queue holds no completed item. *)
Definition counted (q : RequestQueue T R) : Prop :=
  totalProcessed (stats q) = count_status COMPLETED q /\
  (count_status COMPLETED q = 0 -> averageProcessingTime (stats q) = JS.of_Z 0).

(** The items of [l] that go before [x] or tie with it, and the others. *)
Definition ahead_of (x : QueueItem T R) (l : list (QueueItem T R)) :=
  filter (fun y => compare_items y x <=? 0) l.

Definition behind (x : QueueItem T R) (l : list (QueueItem T R)) :=
  filter (fun y => negb (compare_items y x <=? 0)) l.

(** The item that [addRequest] builds. *)
Definition new_request (req : T) (options : Options) (newId : string) (now : Z)
    (q : RequestQueue T R) : QueueItem T R :=
  {| id := newId; request := req; status := PENDING; createdAt := now;
     startedAt := None; completedAt := None; retryCount := 0;
     retryPolicy := merge_policy (defaultRetryPolicy q) (o_retryPolicy options);
     priority := JS.or_default (o_priority options) 0;
     error := None; result := None |}.

(** An item that no failure has touched. *)
Definition never_failed (it : QueueItem T R) : Prop :=
  (status it = PENDING \/ status it = COMPLETED \/ status it = CANCELLED) /\
  result it = None /\ error it = None /\ retryCount it = 0.

(** A queue that no failure has touched. *)
Definition calm (q : RequestQueue T R) : Prop :=
  Forall never_failed (queue q) /\
  totalFailed (stats q) = 0 /\ totalRetries (stats q) = 0 /\
  scheduled_delays q = [].

(** The calls that leave a stopped queue stopped. *)
Definition keeps_stopped (o : Op T R) : bool :=
  match o with
  | OStart _ _ => false
  | _ => true
  end.

(** The calls of [addRequest] that give the id [k] to the new item. *)
Definition adds_id (k : string) (o : Op T R) : bool :=
  match o with
  | OAdd _ _ _ newId _ => String.eqb newId k
  | _ => false
  end.

(** Every item with the id [k] is cancelled. *)
Definition cancelled_for_good (k : string) (q : RequestQueue T R) : Prop :=
  forall y, In y (queue q) -> id y = k -> status y = CANCELLED.

(** What [getStatus] returns for a queue without items. *)
Definition nothing_queued : RequestQueueStatus :=
  {| totalLength := 0; pendingCount := 0; processingCount := 0;
     failedCount := 0; retryingCount := 0;
     st_averageProcessingTime := JS.of_Z 0 |}.

End Q.

(** A stream of calls that fail with [e] until call number [n], which
    answers. *)
Definition answers_at (n : nat) (e : ApiError) (text : string) (k : nat)
  : ApiError + string :=
  if Nat.ltb k n then inl e else inr text.

(** Whether the loop of [processMessageWithRetry] ends with call number
    [k] whatever the number of retries left: the call answers, or fails with
    an error that is not retryable. *)
Definition stops (send : nat -> ApiError + string) (k : nat) : bool :=
  match send k with
  | inr _ => true
  | inl e => negb (Queue.is_true (retryable (GeminiService.createApiError e)))
  end.

(** The delay that the loop sleeps after the failure of call number [k]. *)
Definition delay_after (send : nat -> ApiError + string) (k : nat) : Z :=
  match send k with
  | inr _ => 0
  | inl e =>
      GeminiService.calculateRetryDelay (Z.of_nat k)
        (retryAfter (GeminiService.createApiError e))
  end.

(** How call number [k] ends the run. *)
Definition ending (send : nat -> ApiError + string) (k : nat) : ApiError + string :=
  match send k with
  | inr text => inr text
  | inl e => inl (GeminiService.createApiError e)
  end.

End MoreSpec.

(* ================================================================== *)
(** ** Facts about the built-ins *)
(* ================================================================== *)

Module JSFacts.

Section SortFacts.
Context {A : Type}.
Variable cmp : A -> A -> Z.

Local Abbreviation before := (JS.before cmp).

Lemma insert_perm (x : A) (l : list A) :
  Permutation (JS.insert cmp x l) (x :: l).
Proof.
  induction l as [|y r IH]; simpl.
  - apply Permutation_refl.
  - destruct (cmp x y <=? 0).
    + apply Permutation_refl.
    + eapply perm_trans; [apply perm_skip, IH | apply perm_swap].
Qed.

Lemma sort_perm (l : list A) : Permutation (JS.sort cmp l) l.
Proof.
  induction l as [|x r IH]; simpl.
  - constructor.
  - eapply perm_trans; [apply insert_perm | apply perm_skip, IH].
Qed.

Lemma sort_length (l : list A) : List.length (JS.sort cmp l) = List.length l.
Proof. apply Permutation_length, sort_perm. Qed.

Lemma sort_In (x : A) (l : list A) : In x (JS.sort cmp l) <-> In x l.
Proof.
  split; apply Permutation_in; [apply sort_perm | apply Permutation_sym, sort_perm].
Qed.

(** A comparator that orders its arguments. *)
Hypothesis cmp_total : forall x y, before x y \/ before y x.
Hypothesis cmp_trans : forall x y z, before x y -> before y z -> before x z.

Lemma insert_sorted (x : A) (l : list A) :
  StronglySorted before l -> StronglySorted before (JS.insert cmp x l).
Proof.
  induction 1 as [|y r Hr IH Hy]; simpl.
  - repeat constructor.
  - destruct (Z.leb_spec (cmp x y) 0) as [Hxy|Hxy].
    + constructor; [constructor; assumption|].
      constructor; [exact Hxy|].
      rewrite Forall_forall in *. intros z Hz. eapply cmp_trans; eauto.
    + constructor; [exact IH|].
      assert (Hyx : before y x).
      { destruct (cmp_total x y) as [H|H]; [unfold JS.before in H; lia | exact H]. }
      rewrite Forall_forall in *. intros z Hz.
      apply (Permutation_in _ (insert_perm x r)) in Hz.
      destruct Hz as [<-|Hz]; auto.
Qed.

Lemma sort_sorted (l : list A) : StronglySorted before (JS.sort cmp l).
Proof.
  induction l as [|x r IH]; simpl; [constructor | apply insert_sorted, IH].
Qed.

(** Sorting a sorted array leaves it as it is. *)
Lemma insert_head (x : A) (l : list A) :
  Forall (before x) l -> JS.insert cmp x l = x :: l.
Proof.
  destruct l as [|y r]; simpl; [reflexivity|].
  intros H. inversion H as [|? ? Hxy _]; subst.
  destruct (Z.leb_spec (cmp x y) 0); [reflexivity | unfold JS.before in Hxy; lia].
Qed.

Lemma sort_sorted_id (l : list A) : StronglySorted before l -> JS.sort cmp l = l.
Proof.
  induction 1 as [|x r Hr IH Hx]; simpl; [reflexivity|].
  rewrite IH. apply insert_head, Hx.
Qed.

(** In a sorted array every element of a prefix goes before every element
    of the rest. *)
Lemma sorted_prefix (n : nat) (l : list A) (x y : A) :
  StronglySorted before l -> In x (firstn n l) -> In y (skipn n l) -> before x y.
Proof.
  intros Hs. revert n. induction Hs as [|a r Hr IH Ha]; intros n Hx Hy.
  - destruct n; simpl in Hx; contradiction.
  - destruct n as [|n]; simpl in Hx, Hy; [contradiction|].
    destruct Hx as [<-|Hx].
    + rewrite Forall_forall in Ha. apply Ha.
      rewrite <- (firstn_skipn n r). apply in_or_app. right. exact Hy.
    + eapply IH; eauto.
Qed.

End SortFacts.

Lemma ceil_fifth_le (n : nat) : (JS.ceil_fifth n <= n)%nat.
Proof.
  unfold JS.ceil_fifth.
  destruct n as [|n]; [reflexivity|].
  apply Nat.Div0.div_le_upper_bound. lia.
Qed.

(** [JS.ceil_fifth n] is the least integer that is at least [n / 5]. *)
Lemma ceil_fifth_spec (n : nat) :
  (n <= 5 * JS.ceil_fifth n < n + 5)%nat.
Proof.
  unfold JS.ceil_fifth.
  pose proof (Nat.div_mod_eq (n + 4) 5) as E.
  pose proof (Nat.mod_upper_bound (n + 4) 5 ltac:(lia)) as B.
  lia.
Qed.

End JSFacts.


(* ================================================================== *)
(** ** The cache: the map, the nesting of [remove], the statistics *)
(* ================================================================== *)

Module CacheFacts.
Import Cache CacheSpec.

Section MapFacts.
Context {V : Type}.
Implicit Types (m : list (CacheItem V)) (k : string) (it : CacheItem V).

Lemma map_get_key k m it : map_get k m = Some it -> key it = k.
Proof.
  induction m as [|x r IH]; simpl; [discriminate|].
  destruct (String.eqb_spec (key x) k) as [E|E]; [|exact IH].
  intros [= <-]. exact E.
Qed.

Lemma map_get_In k m it : map_get k m = Some it -> In it m.
Proof.
  induction m as [|x r IH]; simpl; [discriminate|].
  destruct (String.eqb (key x) k); [intros [= <-]; now left | right; auto].
Qed.

Lemma map_get_None k m : map_get k m = None <-> (forall x, In x m -> key x <> k).
Proof.
  induction m as [|x r IH]; simpl.
  - split; [intros _ y [] | reflexivity].
  - destruct (String.eqb_spec (key x) k) as [E|E].
    + split; [discriminate | intros H; exfalso; apply (H x); auto].
    + rewrite IH. split.
      * intros H y [<-|Hy]; auto.
      * intros H y Hy. apply H. now right.
Qed.

Lemma map_get_set_same it m : map_get (key it) (map_set it m) = Some it.
Proof.
  induction m as [|x r IH]; simpl.
  - now rewrite String.eqb_refl.
  - destruct (String.eqb_spec (key x) (key it)) as [E|E]; simpl.
    + now rewrite String.eqb_refl.
    + destruct (String.eqb_spec (key x) (key it)); [contradiction | exact IH].
Qed.

Lemma map_get_set_other it k m :
  key it <> k -> map_get k (map_set it m) = map_get k m.
Proof.
  intros Hk. induction m as [|x r IH]; simpl.
  - destruct (String.eqb_spec (key it) k); [contradiction | reflexivity].
  - destruct (String.eqb_spec (key x) (key it)) as [E|E]; simpl.
    + destruct (String.eqb_spec (key it) k); [contradiction|].
      destruct (String.eqb_spec (key x) k); [congruence | reflexivity].
    + now rewrite IH.
Qed.

Lemma map_delete_length k m it :
  map_get k m = Some it -> S (List.length (map_delete k m)) = List.length m.
Proof.
  induction m as [|x r IH]; simpl; [discriminate|].
  destruct (String.eqb (key x) k); [reflexivity|].
  intros H. simpl. now rewrite IH.
Qed.

Lemma map_delete_absent k m : map_get k m = None -> map_delete k m = m.
Proof.
  induction m as [|x r IH]; simpl; [reflexivity|].
  destruct (String.eqb (key x) k); [discriminate|].
  intros H. now rewrite IH.
Qed.

Lemma map_delete_length_le k m :
  (List.length (map_delete k m) <= List.length m)%nat.
Proof.
  induction m as [|x r IH]; simpl; [lia|].
  destruct (String.eqb (key x) k); simpl; lia.
Qed.

Lemma map_delete_In k m x : In x (map_delete k m) -> In x m.
Proof.
  induction m as [|y r IH]; simpl; [tauto|].
  destruct (String.eqb (key y) k); simpl; intuition.
Qed.

Lemma sum_sizes_delete k m it :
  map_get k m = Some it -> sum_sizes (map_delete k m) = sum_sizes m - size it.
Proof.
  unfold sum_sizes.
  induction m as [|x r IH]; simpl; [discriminate|].
  destruct (String.eqb (key x) k).
  - intros [= <-]. lia.
  - intros H. simpl. rewrite (IH H). lia.
Qed.

Lemma map_set_length_present it m old :
  map_get (key it) m = Some old -> List.length (map_set it m) = List.length m.
Proof.
  induction m as [|x r IH]; simpl; [discriminate|].
  destruct (String.eqb (key x) (key it)); simpl; [reflexivity|].
  intros H. now rewrite IH.
Qed.

Lemma map_set_length_absent it m :
  map_get (key it) m = None -> List.length (map_set it m) = S (List.length m).
Proof.
  induction m as [|x r IH]; simpl; [reflexivity|].
  destruct (String.eqb (key x) (key it)); simpl; [discriminate|].
  intros H. now rewrite IH.
Qed.

Lemma sum_sizes_set_present it m old :
  map_get (key it) m = Some old ->
  sum_sizes (map_set it m) = sum_sizes m - size old + size it.
Proof.
  unfold sum_sizes.
  induction m as [|x r IH]; simpl; [discriminate|].
  destruct (String.eqb (key x) (key it)); simpl.
  - intros [= <-]. lia.
  - intros H. rewrite (IH H). lia.
Qed.

Lemma sum_sizes_set_absent it m :
  map_get (key it) m = None -> sum_sizes (map_set it m) = sum_sizes m + size it.
Proof.
  unfold sum_sizes.
  induction m as [|x r IH]; simpl; [lia|].
  destruct (String.eqb (key x) (key it)); simpl; [discriminate|].
  intros H. rewrite (IH H). lia.
Qed.

Lemma sum_sizes_fold m (a : Z) :
  fold_left (fun acc it => acc + size it) m a = a + sum_sizes m.
Proof.
  revert a. unfold sum_sizes.
  induction m as [|x r IH]; intros a; simpl; [lia|].
  rewrite IH. lia.
Qed.

Lemma map_get_delete_other k k' m :
  k <> k' -> map_get k' (map_delete k m) = map_get k' m.
Proof.
  intros Hk. induction m as [|x r IH]; simpl; [reflexivity|].
  destruct (String.eqb_spec (key x) k) as [E|E]; simpl.
  - destruct (String.eqb_spec (key x) k'); [congruence | reflexivity].
  - now rewrite IH.
Qed.

Lemma map_get_delete_same k m :
  distinct_keys m = true -> map_get k (map_delete k m) = None.
Proof.
  induction m as [|x r IH]; simpl; [reflexivity|].
  destruct (map_get (key x) r) eqn:G; [discriminate|].
  intros D. destruct (String.eqb_spec (key x) k) as [E|E]; simpl.
  - now rewrite <- E.
  - destruct (String.eqb_spec (key x) k); [contradiction | auto].
Qed.

Lemma distinct_keys_delete k m :
  distinct_keys m = true -> distinct_keys (map_delete k m) = true.
Proof.
  induction m as [|x r IH]; simpl; [reflexivity|].
  destruct (map_get (key x) r) eqn:G; [discriminate|].
  intros D. destruct (String.eqb_spec (key x) k) as [E|E]; simpl; [exact D|].
  rewrite map_get_delete_other by congruence. rewrite G. auto.
Qed.

Lemma distinct_keys_set it m :
  distinct_keys m = true -> distinct_keys (map_set it m) = true.
Proof.
  induction m as [|x r IH]; simpl; [reflexivity|].
  destruct (map_get (key x) r) eqn:G; [discriminate|].
  intros D. destruct (String.eqb_spec (key x) (key it)) as [E|E]; simpl.
  - rewrite <- E, G. exact D.
  - rewrite map_get_set_other by congruence. rewrite G. auto.
Qed.

(** In a map an item is the one stored under its key. *)
Lemma distinct_keys_get m x :
  distinct_keys m = true -> In x m -> map_get (key x) m = Some x.
Proof.
  induction m as [|y r IH]; simpl; [tauto|].
  destruct (map_get (key y) r) eqn:G; [discriminate|].
  intros D [<-|Hx].
  - now rewrite String.eqb_refl.
  - destruct (String.eqb_spec (key y) (key x)) as [E|E]; [|auto].
    rewrite E in G. rewrite (IH D Hx) in G. discriminate.
Qed.

(** An item survives the deletion of another key, and only then. *)
Lemma map_delete_In_iff k m x :
  distinct_keys m = true ->
  (In x (map_delete k m) <-> In x m /\ key x <> k).
Proof.
  intros D. split.
  - intros H. split; [eapply map_delete_In; eauto|].
    intros E. pose proof (map_get_delete_same k m D) as N.
    rewrite map_get_None in N. exact (N x H E).
  - intros [H E]. induction m as [|y r IH]; simpl in *; [tauto|].
    destruct (map_get (key y) r) eqn:G; [discriminate|].
    destruct (String.eqb_spec (key y) k) as [Ey|Ey].
    + destruct H as [<-|H]; [contradiction | exact H].
    + destruct H as [<-|H]; [now left | right; auto].
Qed.

End MapFacts.

Section ServiceFacts.
Context {V : Type}.
Variable calculateSize : V -> Z.
Variable jsonLength : list (CacheItem V) -> Z.
Variable config : CacheConfig.

Implicit Types (c : CacheService V) (k : string) (item : CacheItem V).

Lemma remove_fuel_unfold n k c :
  remove_fuel jsonLength n k c =
  match map_get k (memoryCache c) with
  | None => (false, c)
  | Some item =>
      (true,
       match n with
       | O => remove_entry item c
       | S n' =>
           saveToStorage_with jsonLength (remove_fuel jsonLength n')
             (remove_entry item c)
       end)
  end.
Proof. destruct n; simpl; destruct (map_get k (memoryCache c)); reflexivity. Qed.

(** What every [remove] in a sweep keeps, the sweep keeps. *)
Lemma cleanupOldItems_with_inv (P : CacheService V -> Prop) rm c :
  (forall k c', P c' -> P (snd (rm k c'))) ->
  P c -> P (cleanupOldItems_with rm c).
Proof.
  intros Hrm. unfold cleanupOldItems_with.
  generalize (firstn
    (JS.ceil_fifth
       (List.length
          (JS.sort (fun a b => lastAccessedAt a - lastAccessedAt b) (memoryCache c))))
    (JS.sort (fun a b => lastAccessedAt a - lastAccessedAt b) (memoryCache c))).
  intros l. revert c. induction l as [|x r IH]; intros c Hc; simpl; auto.
Qed.

Lemma saveToStorage_with_inv (P : CacheService V -> Prop) rm c :
  (forall k c', P c' -> P (snd (rm k c'))) ->
  P c -> P (saveToStorage_with jsonLength rm c).
Proof.
  intros Hrm Hc. unfold saveToStorage_with.
  destruct (MAX_STORAGE_SIZE <? jsonLength (memoryCache c)); [|exact Hc].
  now apply cleanupOldItems_with_inv.
Qed.

Lemma remove_entry_entries k c item :
  map_get k (memoryCache c) = Some item ->
  S (entries (remove_entry item c)) = entries c.
Proof.
  intros G. unfold entries, remove_entry; simpl.
  rewrite (map_get_key _ _ _ G). eapply map_delete_length; eauto.
Qed.

Lemma remove_fuel_le n : forall k c,
  (entries (snd (remove_fuel jsonLength n k c)) <= entries c)%nat.
Proof.
  induction n as [|n IH]; intros k c; rewrite remove_fuel_unfold;
    destruct (map_get k (memoryCache c)) as [item|] eqn:G; simpl; try lia.
  - pose proof (remove_entry_entries _ _ _ G). lia.
  - pose proof (remove_entry_entries _ _ _ G) as E.
    apply (saveToStorage_with_inv (fun c' => (entries c' <= entries c)%nat)).
    + intros k' c' H. etransitivity; [apply IH | exact H].
    + lia.
Qed.

(** Two versions of [remove] that agree on small maps sweep alike. *)
Lemma sweep_agree (f g : string -> CacheService V -> bool * CacheService V)
    (bound : nat) (l : list (CacheItem V)) : forall c,
  (entries c <= bound)%nat ->
  (forall k c', (entries c' <= bound)%nat -> f k c' = g k c') ->
  (forall k c', (entries (snd (f k c')) <= entries c')%nat) ->
  fold_left (fun c' it => snd (f (key it) c')) l c =
  fold_left (fun c' it => snd (g (key it) c')) l c.
Proof.
  induction l as [|x r IH]; intros c Hc Hfg Hf; simpl; [reflexivity|].
  rewrite <- (Hfg _ _ Hc). apply IH; auto.
  etransitivity; [apply Hf | exact Hc].
Qed.

Lemma remove_fuel_agree n : forall m k c,
  (entries c <= n)%nat -> (entries c <= m)%nat ->
  remove_fuel jsonLength n k c = remove_fuel jsonLength m k c.
Proof.
  induction n as [|n IH]; intros m k c Hn Hm;
    rewrite (remove_fuel_unfold _ k c), (remove_fuel_unfold m k c);
    destruct (map_get k (memoryCache c)) as [item|] eqn:G; try reflexivity;
    pose proof (remove_entry_entries _ _ _ G) as E.
  - lia.
  - destruct m as [|m]; [lia|]. f_equal.
    unfold saveToStorage_with.
    destruct (MAX_STORAGE_SIZE <? jsonLength (memoryCache (remove_entry item c)));
      [|reflexivity].
    unfold cleanupOldItems_with.
    apply sweep_agree with (bound := Nat.min n m).
    + lia.
    + intros k' c' H. apply IH; lia.
    + intros k' c'. apply remove_fuel_le.
Qed.

(** The fuel that [remove] starts with is enough: more fuel gives the same
    result. *)
Lemma remove_fuel_enough n k c :
  (entries c <= n)%nat -> remove_fuel jsonLength n k c = remove jsonLength k c.
Proof. intros H. unfold remove. apply remove_fuel_agree; [exact H | reflexivity]. Qed.

(** [remove] as the source reads. *)
Lemma remove_eq k c :
  remove jsonLength k c =
  match map_get k (memoryCache c) with
  | None => (false, c)
  | Some item => (true, saveToStorage jsonLength (remove_entry item c))
  end.
Proof.
  unfold remove. rewrite remove_fuel_unfold.
  destruct (map_get k (memoryCache c)) as [item|] eqn:G; [|reflexivity].
  pose proof (remove_entry_entries _ _ _ G) as E. unfold entries in E.
  destruct (List.length (memoryCache c)) as [|n]; [discriminate|].
  f_equal. unfold saveToStorage, saveToStorage_with.
  destruct (MAX_STORAGE_SIZE <? jsonLength (memoryCache (remove_entry item c)));
    [|reflexivity].
  unfold cleanupOldItems_with.
  apply sweep_agree with (bound := n).
  - unfold entries. lia.
  - intros k' c' H. apply remove_fuel_enough. exact H.
  - intros k' c'. apply remove_fuel_le.
Qed.

Lemma remove_le k c : (entries (snd (remove jsonLength k c)) <= entries c)%nat.
Proof. apply remove_fuel_le. Qed.

(** When the snapshot fits the storage cap, [saveToStorage] evicts nothing. *)
Lemma saveToStorage_fits c :
  jsonLength (memoryCache c) <= MAX_STORAGE_SIZE -> saveToStorage jsonLength c = c.
Proof.
  intros H. unfold saveToStorage, saveToStorage_with.
  destruct (Z.ltb_spec MAX_STORAGE_SIZE (jsonLength (memoryCache c))); [lia | reflexivity].
Qed.

(** *** The statistics *)

Lemma remove_entry_consistent k c item :
  map_get k (memoryCache c) = Some item ->
  stats_consistent c -> stats_consistent (remove_entry item c).
Proof.
  intros G (H1 & H2 & H3).
  pose proof (map_get_key _ _ _ G) as K. subst k.
  unfold stats_consistent, remove_entry; simpl.
  repeat split.
  - pose proof (map_delete_length _ _ _ G). lia.
  - rewrite (sum_sizes_delete _ _ _ G). lia.
Qed.

Lemma remove_fuel_consistent n : forall k c,
  stats_consistent c -> stats_consistent (snd (remove_fuel jsonLength n k c)).
Proof.
  induction n as [|n IH]; intros k c Hc; rewrite remove_fuel_unfold;
    destruct (map_get k (memoryCache c)) as [item|] eqn:G; simpl; auto.
  - eapply remove_entry_consistent; eauto.
  - apply saveToStorage_with_inv; [auto|].
    eapply remove_entry_consistent; eauto.
Qed.

Lemma remove_consistent k c :
  stats_consistent c -> stats_consistent (snd (remove jsonLength k c)).
Proof. apply remove_fuel_consistent. Qed.

Lemma cleanupOldItems_consistent c :
  stats_consistent c -> stats_consistent (cleanupOldItems jsonLength c).
Proof.
  apply cleanupOldItems_with_inv. intros k c'. apply remove_consistent.
Qed.

Lemma saveToStorage_consistent c :
  stats_consistent c -> stats_consistent (saveToStorage jsonLength c).
Proof.
  apply saveToStorage_with_inv. intros k c'. apply remove_consistent.
Qed.

Lemma set_insert_consistent item c :
  stats_consistent c -> stats_consistent (set_insert item c).
Proof.
  intros (H1 & H2 & H3). unfold stats_consistent, set_insert.
  destruct (map_get (key item) (memoryCache c)) as [old|] eqn:G; simpl.
  - assert (0 < List.length (memoryCache c))%nat as L.
    { apply map_get_In in G. destruct (memoryCache c); [destruct G | simpl; lia]. }
    repeat split.
    + rewrite (map_set_length_present _ _ _ G). exact H1.
    + rewrite (sum_sizes_set_present _ _ _ G). lia.
    + destruct (Z.ltb_spec 0 (totalItems (stats c))); [reflexivity | lia].
  - repeat split.
    + rewrite (map_set_length_absent _ _ G). lia.
    + rewrite (sum_sizes_set_absent _ _ G). lia.
    + destruct (Z.ltb_spec 0 (totalItems (stats c) + 1)); [reflexivity | lia].
Qed.

Lemma set_consistent k (d : V) ttl now c :
  stats_consistent c ->
  stats_consistent (snd (set calculateSize jsonLength config k d ttl now c)).
Proof.
  intros Hc. unfold set, set_room.
  destruct (wouldExceedStorageLimit config (calculateSize d) c).
  - destruct (negb _); simpl.
    + apply saveToStorage_consistent, set_insert_consistent,
        cleanupOldItems_consistent, Hc.
    + apply cleanupOldItems_consistent, Hc.
  - simpl. apply saveToStorage_consistent, set_insert_consistent, Hc.
Qed.

Lemma count_miss_consistent expired c :
  stats_consistent c -> stats_consistent (count_miss expired c).
Proof. intros H. exact H. Qed.

Lemma touch_consistent k now item c :
  map_get k (memoryCache c) = Some item ->
  stats_consistent c -> stats_consistent (touch now item c).
Proof.
  intros G (H1 & H2 & H3).
  pose proof (map_get_key _ _ _ G) as K. subst k.
  unfold stats_consistent, touch; simpl.
  set (item' := {| key := key item; data := data item; createdAt := createdAt item;
                   expiresAt := expiresAt item; lastAccessedAt := now;
                   accessCount := accessCount item + 1; size := size item;
                   tags := tags item |}).
  assert (G' : map_get (key item') (memoryCache c) = Some item) by exact G.
  repeat split.
  - rewrite (map_set_length_present _ _ _ G'). exact H1.
  - rewrite (sum_sizes_set_present _ _ _ G'). simpl. lia.
  - exact H3.
Qed.

Lemma get_consistent k now c :
  stats_consistent c -> stats_consistent (snd (get jsonLength k now c)).
Proof.
  intros Hc. unfold get.
  destruct (map_get k (memoryCache c)) as [item|] eqn:G; simpl.
  - destruct (isExpired now item); simpl.
    + apply count_miss_consistent, remove_consistent, Hc.
    + eapply touch_consistent; eauto.
  - apply count_miss_consistent, Hc.
Qed.

Lemma cleanup_consistent now c :
  stats_consistent c -> stats_consistent (snd (cleanup jsonLength now c)).
Proof.
  intros Hc. unfold cleanup.
  assert (H : forall l acc, stats_consistent (snd acc) ->
            stats_consistent (snd (fold_left (cleanup_visit jsonLength now) l acc))).
  { induction l as [|x r IH]; intros [n c'] Hacc; simpl; [exact Hacc|].
    apply IH. simpl in Hacc.
    destruct (map_get (key x) (memoryCache c')) as [cur|]; [|exact Hacc].
    destruct (isExpired now cur); simpl; [|exact Hacc].
    apply remove_consistent, Hacc. }
  specialize (H (memoryCache c) (0, c) Hc).
  destruct (fold_left (cleanup_visit jsonLength now) (memoryCache c) (0, c)) as [n c'].
  exact H.
Qed.

Lemma loadFromStorage_consistent stored now :
  stats_consistent (loadFromStorage stored now : CacheService V).
Proof.
  unfold loadFromStorage, updateStatsFromMemory, stats_consistent; simpl.
  rewrite sum_sizes_fold. repeat split.
Qed.

Lemma run_consistent ops : forall c,
  stats_consistent c ->
  stats_consistent (run calculateSize jsonLength config ops c).
Proof.
  unfold run. induction ops as [|o r IH]; intros c Hc; simpl; [exact Hc|].
  apply IH. destruct o; simpl.
  - apply get_consistent, Hc.
  - apply set_consistent, Hc.
  - apply remove_consistent, Hc.
  - repeat split.
  - apply cleanup_consistent, Hc.
Qed.

(** *** What every removal keeps *)

Lemma remove_fuel_inv (P : CacheService V -> Prop) :
  (forall k c item,
      map_get k (memoryCache c) = Some item -> P c -> P (remove_entry item c)) ->
  forall n k c, P c -> P (snd (remove_fuel jsonLength n k c)).
Proof.
  intros H. induction n as [|n IH]; intros k c Hc; rewrite remove_fuel_unfold;
    destruct (map_get k (memoryCache c)) as [item|] eqn:G; simpl; auto.
  - eapply H; eauto.
  - apply saveToStorage_with_inv; [auto|]. eapply H; eauto.
Qed.

Lemma remove_inv (P : CacheService V -> Prop) :
  (forall k c item,
      map_get k (memoryCache c) = Some item -> P c -> P (remove_entry item c)) ->
  forall k c, P c -> P (snd (remove jsonLength k c)).
Proof. intros H k c. apply remove_fuel_inv, H. Qed.

Lemma saveToStorage_inv (P : CacheService V -> Prop) :
  (forall k c item,
      map_get k (memoryCache c) = Some item -> P c -> P (remove_entry item c)) ->
  forall c, P c -> P (saveToStorage jsonLength c).
Proof.
  intros H c. apply saveToStorage_with_inv. intros k c'. apply remove_inv, H.
Qed.

Lemma cleanupOldItems_inv (P : CacheService V -> Prop) :
  (forall k c item,
      map_get k (memoryCache c) = Some item -> P c -> P (remove_entry item c)) ->
  forall c, P c -> P (cleanupOldItems jsonLength c).
Proof.
  intros H c. apply cleanupOldItems_with_inv. intros k c'. apply remove_inv, H.
Qed.

Lemma remove_entry_well_formed k c item :
  map_get k (memoryCache c) = Some item ->
  well_formed c -> well_formed (remove_entry item c).
Proof. intros _ H. apply distinct_keys_delete, H. Qed.

Lemma remove_entry_absent k0 k c item :
  map_get k (memoryCache c) = Some item ->
  map_get k0 (memoryCache c) = None ->
  map_get k0 (memoryCache (remove_entry item c)) = None.
Proof.
  intros _ H. simpl. rewrite map_get_None in *.
  intros x Hx. apply H. eapply map_delete_In; eauto.
Qed.

Lemma set_room_well_formed sz c :
  well_formed c -> well_formed (snd (set_room jsonLength config sz c)).
Proof.
  intros H. unfold set_room.
  destruct (wouldExceedStorageLimit config sz c); simpl; [|exact H].
  apply (cleanupOldItems_inv well_formed); [apply remove_entry_well_formed | exact H].
Qed.

Lemma remove_well_formed k c :
  well_formed c -> well_formed (snd (remove jsonLength k c)).
Proof. apply (remove_inv well_formed), remove_entry_well_formed. Qed.

Lemma set_insert_well_formed item c :
  well_formed c -> well_formed (set_insert item c).
Proof.
  intros W. unfold well_formed, set_insert.
  destruct (map_get (key item) (memoryCache c)); simpl; apply distinct_keys_set, W.
Qed.

Lemma apply_well_formed c (o : Op (V := V)) :
  well_formed c -> well_formed (apply calculateSize jsonLength config c o).
Proof.
  intros W. destruct o; simpl.
  - unfold get. destruct (map_get k (memoryCache c)) as [item|]; simpl; [|exact W].
    destruct (isExpired now item); simpl.
    + apply remove_well_formed, W.
    + unfold well_formed. simpl. apply distinct_keys_set, W.
  - unfold set.
    pose proof (set_room_well_formed (calculateSize d) c W) as W1.
    destruct (set_room jsonLength config (calculateSize d) c) as [[|] c1]; simpl in *;
      [|exact W1].
    apply (saveToStorage_inv well_formed); [apply remove_entry_well_formed|].
    apply set_insert_well_formed, W1.
  - apply remove_well_formed, W.
  - reflexivity.
  - unfold cleanup.
    assert (H : forall l acc, well_formed (snd acc) ->
              well_formed (snd (fold_left (cleanup_visit jsonLength now) l acc))).
    { induction l as [|x r IH]; intros [n c'] Hacc; simpl; [exact Hacc|].
      apply IH. simpl in Hacc.
      destruct (map_get (key x) (memoryCache c')) as [cur|]; [|exact Hacc].
      destruct (isExpired now cur); simpl; [|exact Hacc].
      apply remove_well_formed, Hacc. }
    specialize (H (memoryCache c) (0, c) W).
    destruct (fold_left (cleanup_visit jsonLength now) (memoryCache c) (0, c)) as [n c'].
    exact H.
Qed.

Lemma loadFromStorage_well_formed stored now :
  well_formed (loadFromStorage stored now : CacheService V).
Proof.
  unfold well_formed, loadFromStorage, updateStatsFromMemory. simpl.
  assert (H : forall l (m : list (CacheItem V)), distinct_keys m = true ->
            distinct_keys
              (fold_left (fun m it => if isExpired now it then m else map_set it m) l m)
            = true).
  { induction l as [|x r IH]; intros m D; simpl; [exact D|].
    apply IH. destruct (isExpired now x); [exact D | apply distinct_keys_set, D]. }
  apply H. reflexivity.
Qed.

(** A cache that was constructed and then used holds a [Map]. *)
Lemma used_cache_well_formed stored now0 (ops : list (Op (V := V))) :
  well_formed (run calculateSize jsonLength config ops (loadFromStorage stored now0)).
Proof.
  unfold run. generalize (loadFromStorage_well_formed stored now0).
  generalize (loadFromStorage stored now0 : CacheService V).
  induction ops as [|o r IH]; intros c W; simpl; [exact W|].
  apply IH, apply_well_formed, W.
Qed.

(** A sweep, a removal and the eviction pass of a snapshot leave the hit
    and miss counters alone. *)
Lemma remove_counters k c :
  same_counters (stats (snd (remove jsonLength k c))) (stats c).
Proof.
  apply (remove_inv (fun c' => same_counters (stats c') (stats c))).
  - intros k' c' item _ H. exact H.
  - repeat split.
Qed.

(** A removal whose snapshot fits the cap deletes the key and nothing
    else. *)
Lemma remove_fits k c :
  jsonLength (map_delete k (memoryCache c)) <= MAX_STORAGE_SIZE ->
  memoryCache (snd (remove jsonLength k c)) = map_delete k (memoryCache c).
Proof.
  intros F. rewrite remove_eq.
  destruct (map_get k (memoryCache c)) as [item|] eqn:G; simpl.
  - pose proof (map_get_key _ _ _ G) as K.
    rewrite saveToStorage_fits; simpl; rewrite K; [reflexivity | exact F].
  - symmetry. apply map_delete_absent, G.
Qed.

End ServiceFacts.

End CacheFacts.

(* ================================================================== *)
(** ** The cache: the properties *)
(* ================================================================== *)

Module CacheClaims.
Import Cache CacheSpec CacheFacts.

Section Claims.
Context {V : Type}.
Variable calculateSize : V -> Z.
Variable jsonLength : list (CacheItem V) -> Z.
Variable config : CacheConfig.

Implicit Types (c : CacheService V) (k : string) (item : CacheItem V).

(** C10.  Whatever snapshot the constructor loads and whatever public
    operations ([get], [set], [remove], [clear], [cleanup]) follow, the
    statistics agree with the stored entries after each of them:
    [totalItems] is the number of entries, [totalSize] the sum of their
    [size] fields, and [averageItemSize] their quotient, or 0 for an empty
    cache. *)
Theorem stats_follow_entries (stored : list (CacheItem V)) (now0 : Z)
    (ops : list (Op (V := V))) :
  stats_consistent
    (run calculateSize jsonLength config ops (loadFromStorage stored now0)).
Proof. apply run_consistent, loadFromStorage_consistent. Qed.

Lemma set_accepted k (d : V) ttl now c :
  fst (set calculateSize jsonLength config k d ttl now c) = true ->
  fst (set_room jsonLength config (calculateSize d) c) = true.
Proof.
  unfold set. destruct (set_room jsonLength config (calculateSize d) c) as [[|] c1];
    simpl; congruence.
Qed.

(** C2, as the code has it.  After a [set(k, v)] that returns [true] and
    whose snapshot fits the storage cap, [get(k)] returns [v] at every time
    up to [expiresAt]; at a later time it returns [null], the entry is
    stored before that call and gone after it, and the call counts one miss
    and one expired item. *)
Theorem set_get_until_expiry c k (d : V) (ttl : option Z) (now : Z) :
  let item := new_item calculateSize config k d ttl now in
  let room := set_room jsonLength config (calculateSize d) c in
  well_formed c ->
  fst (set calculateSize jsonLength config k d ttl now c) = true ->
  jsonLength (memoryCache (set_insert item (snd room))) <= MAX_STORAGE_SIZE ->
  exists c',
    set calculateSize jsonLength config k d ttl now c = (true, c') /\
    (forall t, t <= expiresAt item -> fst (get jsonLength k t c') = Some d) /\
    (forall t, expiresAt item < t ->
       fst (get jsonLength k t c') = None /\
       map_get k (memoryCache c') = Some item /\
       map_get k (memoryCache (snd (get jsonLength k t c'))) = None /\
       missCount (stats (snd (get jsonLength k t c'))) = missCount (stats c') + 1 /\
       expiredItems (stats (snd (get jsonLength k t c')))
         = expiredItems (stats c') + 1).
Proof.
  intros item room W A F.
  apply set_accepted in A. fold room in A.
  pose proof (set_room_well_formed jsonLength config (calculateSize d) c W) as W1.
  fold room in W1.
  exists (set_insert item (snd room)).
  assert (G : map_get k (memoryCache (set_insert item (snd room))) = Some item).
  { unfold set_insert.
    destruct (map_get (key item) (memoryCache (snd room))); simpl;
      apply (map_get_set_same item). }
  split; [|split].
  - unfold set. fold room. destruct room as [r c1]. simpl in *. subst r.
    fold item. now rewrite saveToStorage_fits.
  - intros t Ht. unfold get. rewrite G. unfold isExpired.
    destruct (Z.ltb_spec (expiresAt item) t); [lia | reflexivity].
  - intros t Ht. unfold get. rewrite G. unfold isExpired.
    destruct (Z.ltb_spec (expiresAt item) t); [|lia]. simpl.
    set (c' := set_insert item (snd room)) in *.
    assert (W' : well_formed c').
    { unfold well_formed, c', set_insert.
      destruct (map_get (key item) (memoryCache (snd room))); simpl;
        apply distinct_keys_set, W1. }
    destruct (remove_counters jsonLength k c') as (M & E & _).
    repeat split; try assumption; try (f_equal; assumption).
    rewrite remove_eq, G. simpl.
    apply (saveToStorage_inv jsonLength
             (fun c'' => map_get k (memoryCache c'') = None)).
    + intros k' c'' it. apply remove_entry_absent.
    + simpl. replace (key item) with k by reflexivity.
      apply map_get_delete_same, W'.
Qed.

(** *** The sweep *)

Lemma distinct_keys_NoDup (m : list (CacheItem V)) :
  distinct_keys m = true -> NoDup (map key m).
Proof.
  induction m as [|x r IH]; simpl; [constructor|].
  destruct (map_get (key x) r) eqn:G; [discriminate|].
  intros D. constructor; [|auto].
  rewrite map_get_None in G. rewrite in_map_iff.
  intros (y & E & Hy). exact (G y Hy E).
Qed.

Lemma delete_all_In (l m : list (CacheItem V)) x :
  distinct_keys m = true ->
  (In x (delete_all l m) <-> In x m /\ ~ In (key x) (map key l)).
Proof.
  unfold delete_all. revert m.
  induction l as [|v r IH]; intros m D; simpl; [tauto|].
  rewrite IH by (apply distinct_keys_delete, D).
  rewrite (map_delete_In_iff _ _ _ D). intuition congruence.
Qed.

Lemma delete_all_distinct (l m : list (CacheItem V)) :
  distinct_keys m = true -> distinct_keys (delete_all l m) = true.
Proof.
  unfold delete_all. revert m.
  induction l as [|v r IH]; intros m D; simpl; [exact D|].
  apply IH, distinct_keys_delete, D.
Qed.

Lemma delete_all_length (l m : list (CacheItem V)) :
  distinct_keys m = true ->
  (forall x, In x l -> In x m) ->
  NoDup (map key l) ->
  (List.length (delete_all l m) + List.length l = List.length m)%nat.
Proof.
  unfold delete_all. revert m.
  induction l as [|v r IH]; intros m D Sub N; simpl; [lia|].
  inversion N as [|? ? Hv Hr]; subst.
  assert (G : map_get (key v) m = Some v)
    by (apply distinct_keys_get; [exact D | apply Sub; now left]).
  pose proof (map_delete_length _ _ _ G) as L.
  enough (List.length
            (fold_left (fun m' it => map_delete (key it) m') r (map_delete (key v) m))
          + List.length r = List.length (map_delete (key v) m))%nat by lia.
  apply IH; [apply distinct_keys_delete, D | | exact Hr].
  intros x Hx. rewrite (map_delete_In_iff _ _ _ D). split.
  - apply Sub. now right.
  - intros E. apply Hv. rewrite <- E. apply in_map, Hx.
Qed.

Lemma NoDup_firstn {A : Type} (n : nat) (l : list A) :
  NoDup l -> NoDup (firstn n l).
Proof.
  intros H. rewrite <- (firstn_skipn n l) in H.
  eapply NoDup_app_remove_r; eauto.
Qed.

Lemma victims_in c x : In x (victims c) -> In x (memoryCache c).
Proof.
  unfold victims. intros H.
  apply (JSFacts.sort_In by_lastAccessed).
  rewrite <- (firstn_skipn (JS.ceil_fifth (List.length (memoryCache c)))
                (JS.sort by_lastAccessed (memoryCache c))).
  apply in_or_app. now left.
Qed.

Lemma victims_length c :
  List.length (victims c) = JS.ceil_fifth (List.length (memoryCache c)).
Proof.
  unfold victims. apply firstn_length_le.
  rewrite JSFacts.sort_length. apply JSFacts.ceil_fifth_le.
Qed.

Lemma victims_NoDup c : well_formed c -> NoDup (map key (victims c)).
Proof.
  intros W. unfold victims. rewrite <- firstn_map. apply NoDup_firstn.
  eapply Permutation_NoDup; [|apply distinct_keys_NoDup, W].
  apply Permutation_map, Permutation_sym, JSFacts.sort_perm.
Qed.

Lemma sweep_fits_spec c (j : nat) :
  sweep_fits jsonLength c = true ->
  (1 <= j <= List.length (victims c))%nat ->
  jsonLength (delete_all (firstn j (victims c)) (memoryCache c)) <= MAX_STORAGE_SIZE.
Proof.
  unfold sweep_fits. rewrite forallb_forall. intros H Hj.
  apply Z.leb_le, H, in_seq. lia.
Qed.

(** While the snapshots fit, the loop of the sweep deletes its keys one by
    one. *)
Lemma sweep_deletes (l : list (CacheItem V)) : forall c,
  (forall j, (1 <= j <= List.length l)%nat ->
     jsonLength (delete_all (firstn j l) (memoryCache c)) <= MAX_STORAGE_SIZE) ->
  memoryCache (fold_left (fun c' it => snd (remove jsonLength (key it) c')) l c)
  = delete_all l (memoryCache c).
Proof.
  induction l as [|x r IH]; intros c F; simpl; [reflexivity|].
  assert (E : memoryCache (snd (remove jsonLength (key x) c))
              = map_delete (key x) (memoryCache c)).
  { apply remove_fits. apply (F 1%nat). simpl. lia. }
  rewrite IH.
  - unfold delete_all. simpl. now rewrite E.
  - intros j Hj. rewrite E. apply (F (S j)). simpl. lia.
Qed.

(** C8, as the code has it.  When [set] finds that the write would push
    [totalSize] over [maxSize], and while the snapshots written during the
    sweep fit the storage cap, the sweep removes the first
    [ceil(0.2 * n)] entries of the stored entries sorted by
    [lastAccessedAt] ascending, and only them; no evicted entry was
    accessed later than a surviving one; and if the write still exceeds the
    budget, [set] returns [false] and leaves the swept cache without
    inserting. *)
Theorem sweep_evicts_least_recent c k (d : V) (ttl : option Z) (now : Z) :
  let c' := cleanupOldItems jsonLength c in
  let n := List.length (memoryCache c) in
  well_formed c ->
  sweep_fits jsonLength c = true ->
  wouldExceedStorageLimit config (calculateSize d) c = true ->
  memoryCache c' = delete_all (victims c) (memoryCache c) /\
  (List.length (memoryCache c') + JS.ceil_fifth n = n)%nat /\
  (forall x, In x (memoryCache c) ->
     (In x (victims c) <-> ~ In x (memoryCache c'))) /\
  (forall e s, In e (victims c) -> In s (memoryCache c') ->
     lastAccessedAt e <= lastAccessedAt s) /\
  (wouldExceedStorageLimit config (calculateSize d) c' = true ->
     set calculateSize jsonLength config k d ttl now c = (false, c')) /\
  (wouldExceedStorageLimit config (calculateSize d) c' = false ->
     set calculateSize jsonLength config k d ttl now c
     = (true,
        saveToStorage jsonLength
          (set_insert (new_item calculateSize config k d ttl now) c'))).
Proof.
  intros c' n W F X.
  assert (M : memoryCache c' = delete_all (victims c) (memoryCache c)).
  { unfold c', cleanupOldItems, cleanupOldItems_with.
    rewrite JSFacts.sort_length.
    apply (sweep_deletes (victims c)).
    intros j Hj. now apply sweep_fits_spec. }
  assert (S : forall x, In x (memoryCache c') <->
                In x (memoryCache c) /\ ~ In (key x) (map key (victims c))).
  { intros x. rewrite M. apply delete_all_In, W. }
  split; [exact M|]. split; [|split; [|split; [|split]]].
  - unfold n. rewrite M. rewrite <- (victims_length c).
    apply delete_all_length; [exact W | apply victims_in | apply victims_NoDup, W].
  - intros x Hx. rewrite S. split.
    + intros Hv [_ Hn]. apply Hn, in_map, Hv.
    + intros Hn.
      destruct (in_dec string_dec (key x) (map key (victims c))) as [I|I];
        [|exfalso; apply Hn; now split].
      apply in_map_iff in I. destruct I as (v & E & Hv).
      pose proof (distinct_keys_get _ _ W (victims_in _ _ Hv)) as G1.
      pose proof (distinct_keys_get _ _ W Hx) as G2.
      rewrite E in G1. rewrite G1 in G2. injection G2 as <-. exact Hv.
  - intros e s He Hs. apply S in Hs. destruct Hs as [Hs Hn].
    assert (B : JS.before by_lastAccessed e s).
    { apply (JSFacts.sorted_prefix by_lastAccessed
               (JS.ceil_fifth (List.length (memoryCache c)))
               (JS.sort by_lastAccessed (memoryCache c))).
      - apply JSFacts.sort_sorted; unfold JS.before, by_lastAccessed; intros; lia.
      - exact He.
      - apply (JSFacts.sort_In by_lastAccessed) in Hs.
        rewrite <- (firstn_skipn (JS.ceil_fifth (List.length (memoryCache c)))
                      (JS.sort by_lastAccessed (memoryCache c))) in Hs.
        apply in_app_or in Hs. destruct Hs as [Hs|Hs]; [|exact Hs].
        exfalso. apply Hn, in_map, Hs. }
    unfold JS.before, by_lastAccessed in B. lia.
  - intros X'. unfold set, set_room. rewrite X. fold c'. now rewrite X'.
  - intros X'. unfold set, set_room. rewrite X. fold c'. now rewrite X'.
Qed.

End Claims.

(** A write of 20 bytes into the empty cache, read back before and after
    its expiry. *)
Lemma set_get_until_expiry_witness :
  well_formed empty_cache /\
  fst (set sized_payload_size payload_length small_config "k" 20 None 0 empty_cache)
    = true /\
  payload_length
    (memoryCache
       (set_insert (new_item sized_payload_size small_config "k" 20 None 0)
          (snd (set_room payload_length small_config 20 empty_cache))))
    <= MAX_STORAGE_SIZE /\
  exists c',
    set sized_payload_size payload_length small_config "k" 20 None 0 empty_cache
      = (true, c') /\
    fst (get payload_length "k" 1000 c') = Some 20 /\
    fst (get payload_length "k" 1001 c') = None /\
    map_get "k" (memoryCache (snd (get payload_length "k" 1001 c'))) = None.
Proof.
  assert (W : well_formed empty_cache) by reflexivity.
  assert (A : fst (set sized_payload_size payload_length small_config
                     "k" 20 None 0 empty_cache) = true) by reflexivity.
  assert (F : payload_length
                (memoryCache
                   (set_insert (new_item sized_payload_size small_config "k" 20 None 0)
                      (snd (set_room payload_length small_config 20 empty_cache))))
              <= MAX_STORAGE_SIZE) by (vm_compute; discriminate).
  repeat (split; [assumption|]).
  destruct (set_get_until_expiry sized_payload_size payload_length small_config
              empty_cache "k" 20 None 0 W A F) as (c' & E & Hbefore & Hafter).
  exists c'. split; [exact E|]. split.
  - apply Hbefore. vm_compute. discriminate.
  - destruct (Hafter 1001) as (H1 & _ & H3 & _); [reflexivity|]. now split.
Defined.

(** C2 as stated fails: with the default configuration a write of six
    million bytes into the empty cache is accepted, its snapshot exceeds the
    storage cap of five megabytes, the eviction pass of [saveToStorage]
    removes the only entry, and one millisecond later, a day before
    [expiresAt], [get] returns [null]. *)
Lemma accepted_write_evicted_by_snapshot :
  let item := new_item sized_payload_size DEFAULT_CACHE_CONFIG "k" 6000000 None 0 in
  let r := set sized_payload_size payload_length DEFAULT_CACHE_CONFIG
             "k" 6000000 None 0 empty_cache in
  fst r = true /\
  1 < expiresAt item /\
  memoryCache (snd r) = [] /\
  fst (get payload_length "k" 1 (snd r)) <> Some 6000000.
Proof. vm_compute. repeat split; discriminate. Qed.

(** The sweep of five entries written one millisecond apart. *)
Lemma sweep_evicts_least_recent_witness :
  well_formed five_in_turn /\
  sweep_fits payload_length five_in_turn = true /\
  wouldExceedStorageLimit small_config (sized_payload_size 20) five_in_turn = true /\
  (List.length (memoryCache (cleanupOldItems payload_length five_in_turn))
   + JS.ceil_fifth 5 = 5)%nat /\
  (forall e s,
     In e (victims five_in_turn) ->
     In s (memoryCache (cleanupOldItems payload_length five_in_turn)) ->
     lastAccessedAt e <= lastAccessedAt s).
Proof.
  assert (W : well_formed five_in_turn) by reflexivity.
  assert (F : sweep_fits payload_length five_in_turn = true) by reflexivity.
  assert (X : wouldExceedStorageLimit small_config (sized_payload_size 20)
                five_in_turn = true) by reflexivity.
  repeat (split; [assumption|]).
  destruct (sweep_evicts_least_recent sized_payload_size payload_length small_config
              five_in_turn "k6" 20 None 6 W F X) as (_ & L & _ & O & _).
  split; [exact L | exact O].
Defined.

(** C8 as stated fails in two ways.  Five entries written in the same
    millisecond have the same [lastAccessedAt]; the sweep evicts the first
    of them, which was not accessed earlier than the four that stay.  And
    where the snapshot of what is left exceeds the storage cap, the
    [saveToStorage] inside [remove] sweeps again: of five stored entries of
    1.9 MB the sweep started by a write of one megabyte removes three, not
    [ceil(0.2 * 5) = 1]. *)
Lemma sweep_ties_and_nested_sweeps :
  (wouldExceedStorageLimit small_config (sized_payload_size 20) five_at_once = true /\
   map (fun it => (key it, lastAccessedAt it)) (memoryCache five_at_once)
     = [("k1"%string, 0); ("k2"%string, 0); ("k3"%string, 0); ("k4"%string, 0); ("k5"%string, 0)] /\
   map (fun it => (key it, lastAccessedAt it))
       (memoryCache (cleanupOldItems payload_length five_at_once))
     = [("k2"%string, 0); ("k3"%string, 0); ("k4"%string, 0); ("k5"%string, 0)]) /\
  (wouldExceedStorageLimit DEFAULT_CACHE_CONFIG (sized_payload_size 1000000) five_large
     = true /\
   map key (memoryCache five_large) = ["k1"; "k2"; "k3"; "k4"; "k5"]%string /\
   JS.ceil_fifth (List.length (memoryCache five_large)) = 1%nat /\
   map key (memoryCache (cleanupOldItems payload_length five_large)) = ["k4"; "k5"]%string).
Proof. vm_compute. repeat split. Qed.

End CacheClaims.

(* ================================================================== *)
(** ** The queue: places, order, and what is being processed *)
(* ================================================================== *)

Module QueueFacts.
Import Api Queue QueueSpec.

Section Places.
Context {T R : Type}.
Implicit Types (l : list (QueueItem T R)) (x y z : QueueItem T R) (i j : nat).

Lemma nth_error_set_item_same i x l y :
  nth_error l i = Some y -> nth_error (set_item i x l) i = Some x.
Proof.
  revert i. induction l as [|a r IH]; intros [|i]; simpl; try discriminate; auto.
Qed.

Lemma nth_error_set_item_other i j x l :
  i <> j -> nth_error (set_item i x l) j = nth_error l j.
Proof.
  revert i j. induction l as [|a r IH]; intros [|i] [|j] H; simpl; auto; try congruence.
Qed.

Lemma set_item_twice i x y l : set_item i x (set_item i y l) = set_item i x l.
Proof.
  revert i. induction l as [|a r IH]; intros [|i]; simpl; auto. now rewrite IH.
Qed.

Lemma set_item_In i x l z : In z (set_item i x l) -> z = x \/ In z l.
Proof.
  revert i. induction l as [|a r IH]; intros [|i]; simpl; try tauto.
  - intros [H|H]; auto.
  - intros [H|H]; auto. destruct (IH _ H); auto.
Qed.

(** Writing to one place leaves the objects at the other places. *)
Lemma set_item_keeps i x l y z :
  nth_error l i = Some y -> In z l -> z <> y -> In z (set_item i x l).
Proof.
  revert i. induction l as [|a r IH]; intros [|i]; simpl; try tauto.
  - intros [= ->] [H|H] N; [congruence | now right].
  - intros E [H|H] N; [now left | right; eauto].
Qed.

Lemma set_item_Forall (P : QueueItem T R -> Prop) i x l :
  P x -> Forall P l -> Forall P (set_item i x l).
Proof.
  intros Hx Hl. rewrite Forall_forall in *. intros z Hz.
  destruct (set_item_In _ _ _ _ Hz) as [->|H]; auto.
Qed.

Lemma find_index_nth (p : QueueItem T R -> bool) l i :
  find_index p l = Some i -> exists x, nth_error l i = Some x /\ p x = true.
Proof.
  revert i. induction l as [|a r IH]; intros i; simpl; [discriminate|].
  destruct (p a) eqn:Pa.
  - intros [= <-]. now exists a.
  - destruct (find_index p r) as [j|]; simpl; [|discriminate].
    intros [= <-]. apply IH. reflexivity.
Qed.

(** [find] returns the object at the place [find_index] gives. *)
Lemma find_index_find (p : QueueItem T R -> bool) l :
  find p l = match find_index p l with Some i => nth_error l i | None => None end.
Proof.
  induction l as [|a r IH]; simpl; [reflexivity|].
  destruct (p a); [reflexivity|].
  rewrite IH. destruct (find_index p r); reflexivity.
Qed.

Lemma find_index_first (p : QueueItem T R -> bool) l i j x :
  find_index p l = Some i -> nth_error l j = Some x -> p x = true -> (i <= j)%nat.
Proof.
  revert i j. induction l as [|a r IH]; intros i j; simpl; [discriminate|].
  destruct (p a) eqn:Pa.
  - intros [= <-]. lia.
  - destruct (find_index p r) as [i'|] eqn:F; simpl; [|discriminate].
    intros [= <-]. destruct j as [|j]; simpl.
    + intros [= ->]. congruence.
    + intros Hx Px. specialize (IH i' j eq_refl Hx Px). lia.
Qed.

(** *** The order of the array *)

Lemma compare_goes_first x y : compare_items x y <= 0 <-> goes_first x y.
Proof.
  unfold compare_items, goes_first.
  destruct (Z.eqb_spec (priority x) (priority y)); simpl; lia.
Qed.

Lemma compare_total x y : compare_items x y <= 0 \/ compare_items y x <= 0.
Proof. rewrite !compare_goes_first. unfold goes_first. lia. Qed.

Lemma compare_trans x y z :
  compare_items x y <= 0 -> compare_items y z <= 0 -> compare_items x z <= 0.
Proof. rewrite !compare_goes_first. unfold goes_first. lia. Qed.

Lemma compare_rank x y x' y' :
  rank x = rank x' -> rank y = rank y' ->
  compare_items x y <= 0 -> compare_items x' y' <= 0.
Proof.
  unfold rank. intros [= P C] [= P' C']. rewrite !compare_goes_first.
  unfold goes_first. lia.
Qed.

Lemma before_ranks x x' l : forall l',
  rank x = rank x' -> map rank l = map rank l' ->
  Forall (fun b => compare_items x b <= 0) l ->
  Forall (fun b => compare_items x' b <= 0) l'.
Proof.
  induction l as [|b r IH]; intros [|b' r'] Ex E F; simpl in E; try discriminate;
    [constructor|].
  assert (Eb : rank b = rank b') by congruence.
  assert (Er : map rank r = map rank r') by congruence.
  inversion F as [|? ? Hb Fr]; subst. constructor.
  - exact (compare_rank _ _ _ _ Ex Eb Hb).
  - now apply IH.
Qed.

Lemma sorted_ranks l : forall l',
  map rank l = map rank l' ->
  StronglySorted (fun a b => compare_items a b <= 0) l ->
  StronglySorted (fun a b => compare_items a b <= 0) l'.
Proof.
  induction l as [|a r IH]; intros [|a' r'] E S; simpl in E; try discriminate.
  - constructor.
  - assert (Ea : rank a = rank a') by congruence.
    assert (Er : map rank r = map rank r') by congruence.
    inversion S as [|? ? Sr Fa]; subst.
    constructor; [now apply IH|].
    eapply before_ranks; eauto.
Qed.

Lemma map_rank_set_item i x l y :
  nth_error l i = Some y -> rank x = rank y ->
  map rank (set_item i x l) = map rank l.
Proof.
  revert i. induction l as [|a r IH]; intros [|i]; simpl; try discriminate.
  - intros [= ->] E. now rewrite E.
  - intros H E. now rewrite (IH _ H E).
Qed.

(** In a sorted array the first pending item goes before every pending
    item. *)
Lemma first_pending_least l i x :
  StronglySorted (fun a b => compare_items a b <= 0) l ->
  find_index is_pending l = Some i ->
  nth_error l i = Some x ->
  forall y, In y l -> is_pending y = true -> goes_first x y.
Proof.
  intros S. revert i. induction S as [|a r Sr IH Fa]; intros i; simpl; [discriminate|].
  destruct (is_pending a) eqn:Pa.
  - intros [= <-]. simpl. intros [= <-] y [<-|Hy] _.
    + unfold goes_first. lia.
    + apply compare_goes_first. rewrite Forall_forall in Fa. auto.
  - destruct (find_index is_pending r) as [i'|] eqn:F; simpl; [|discriminate].
    intros [= <-]. simpl. intros Hx y [<-|Hy] Py; [congruence|].
    eapply IH; eauto.
Qed.

End Places.

Section Turns.
Context {T R : Type}.
Implicit Types (q : RequestQueue T R) (item x y : QueueItem T R) (i : nat).

Lemma set_delete_singleton (k : string) : set_delete k [k] = [].
Proof. unfold set_delete. simpl. now rewrite String.eqb_refl. Qed.

(** [processRequest] when nothing else is being processed. *)
Lemma processRequest_idle i t1 t2 q item :
  processing q = [] ->
  nth_error (queue q) i = Some item ->
  queue (processRequest i t1 t2 q) = set_item i (completed t1 t2 item) (queue q) /\
  processing (processRequest i t1 t2 q) = [] /\
  emitted (processRequest i t1 t2 q)
    = emitted q ++ [requestStarted (id item) (request item);
                    requestCompleted (id item) (result item)] /\
  maxConcurrentRequests (processRequest i t1 t2 q) = maxConcurrentRequests q /\
  isProcessing (processRequest i t1 t2 q) = isProcessing q.
Proof.
  intros P N. unfold processRequest, processRequest_with. rewrite N, P. simpl.
  unfold processRequest_started. rewrite N, P.
  unfold processRequest_try. simpl.
  rewrite (nth_error_set_item_same _ _ _ _ N). simpl.
  rewrite set_item_twice, String.eqb_refl, <- app_assoc. simpl.
  repeat split.
Qed.

Lemma admits_pending q i :
  admits q = Some i ->
  0 < maxConcurrentRequests q - Z.of_nat (List.length (processing q)) /\
  find_index is_pending (queue q) = Some i /\
  exists item, nth_error (queue q) i = Some item /\ status item = PENDING.
Proof.
  unfold admits, getNextPendingItem.
  destruct (isProcessing q); [|discriminate].
  destruct (Z.ltb_spec 0 (maxConcurrentRequests q - Z.of_nat (List.length (processing q))));
    [|discriminate].
  intros F. split; [assumption|]. split; [assumption|].
  destruct (find_index_nth _ _ _ F) as (item & N & Pn). exists item. split; [exact N|].
  unfold is_pending in Pn. destruct (status item); simpl in Pn; congruence.
Qed.

Lemma cancelRequest_cases (k : string) (now : Z) q :
  (cancelRequest k now q = (false, q)) \/
  (exists i item,
     find_index (fun it => String.eqb (id it) k) (queue q) = Some i /\
     nth_error (queue q) i = Some item /\
     status item <> COMPLETED /\
     cancelRequest k now q
     = (true,
        emit (requestCancelled k)
          (with_queue
             (set_item i (with_completedAt now (with_status CANCELLED item)) (queue q))
             q))).
Proof.
  unfold cancelRequest.
  destruct (find_index (fun it => String.eqb (id it) k) (queue q)) as [i|] eqn:F;
    [|now left].
  destruct (nth_error (queue q) i) as [item|] eqn:N; [|now left].
  destruct (status item) eqn:S; simpl; try (now left);
    right; exists i, item; unfold mutate; rewrite N;
    repeat split; congruence.
Qed.

(** *** What every call and every turn keeps *)

Lemma sorted_set_item q i item x :
  nth_error (queue q) i = Some item -> rank x = rank item ->
  StronglySorted (fun a b => compare_items a b <= 0) (queue q) ->
  StronglySorted (fun a b => compare_items a b <= 0) (set_item i x (queue q)).
Proof.
  intros N E S. eapply sorted_ranks; [|exact S].
  symmetry. eapply map_rank_set_item; eauto.
Qed.

Lemma sortQueueByPriority_sorted q : sorted (sortQueueByPriority q).
Proof.
  unfold sorted, sortQueueByPriority. simpl.
  apply (JSFacts.sort_sorted compare_items).
  - intros x y. apply compare_total.
  - intros x y z. apply compare_trans.
Qed.

Lemma turn_sorted t1 t2 q :
  idle q -> sorted q -> sorted (startProcessing_turn t1 t2 q).
Proof.
  intros [P _] S.
  unfold startProcessing_turn. destruct (admits q) as [i|] eqn:A; [|exact S].
  destruct (admits_pending _ _ A) as (_ & _ & item & N & _).
  destruct (processRequest_idle i t1 t2 q item P N) as (Q & _).
  unfold sorted. rewrite Q. eapply sorted_set_item; eauto.
Qed.

Lemma apply_sorted q (o : Op T R) : idle q -> sorted q -> sorted (apply q o).
Proof.
  intros I S. pose proof I as [P _]. destruct o; simpl.
  - apply sortQueueByPriority_sorted.
  - now apply turn_sorted.
  - destruct (cancelRequest_cases k now q) as [E|(i & item & _ & N & _ & E)];
      rewrite E; simpl; [exact S|].
    eapply sorted_set_item; eauto.
  - constructor.
  - exact S.
  - unfold start. destruct (isProcessing q); [exact S|].
    apply turn_sorted; [exact I | exact S].
Qed.

Lemma turn_idle t1 t2 q : idle q -> idle (startProcessing_turn t1 t2 q).
Proof.
  intros [P F].
  unfold startProcessing_turn. destruct (admits q) as [i|] eqn:A; [|now split].
  destruct (admits_pending _ _ A) as (_ & _ & item & N & _).
  destruct (processRequest_idle i t1 t2 q item P N) as (Q & P' & _).
  split; [exact P'|]. rewrite Q. apply set_item_Forall; [simpl; discriminate | exact F].
Qed.

Lemma apply_idle q (o : Op T R) : idle q -> idle (apply q o).
Proof.
  intros I. pose proof I as [P F]. destruct o; simpl.
  - split; [exact P|]. simpl. rewrite Forall_forall in *. intros x Hx.
    apply (Permutation_in _ (JSFacts.sort_perm compare_items _)) in Hx.
    apply in_app_or in Hx.
    destruct Hx as [Hx|[<-|[]]]; [auto | simpl; discriminate].
  - now apply turn_idle.
  - destruct (cancelRequest_cases k now q) as [E|(i & item & _ & N & _ & E)];
      rewrite E; simpl; [now split|].
    split; [exact P|]. simpl. apply set_item_Forall; [simpl; discriminate | exact F].
  - split; [reflexivity | constructor].
  - now split.
  - unfold start. destruct (isProcessing q); [exact I|].
    apply turn_idle. exact I.
Qed.

Lemma turn_ceiling t1 t2 q :
  idle q ->
  maxConcurrentRequests (startProcessing_turn t1 t2 q) = maxConcurrentRequests q.
Proof.
  intros [P _].
  unfold startProcessing_turn. destruct (admits q) as [i|] eqn:A; [|reflexivity].
  destruct (admits_pending _ _ A) as (_ & _ & item & N & _).
  now destruct (processRequest_idle i t1 t2 q item P N) as (_ & _ & _ & M & _).
Qed.

Lemma apply_ceiling q (o : Op T R) :
  idle q -> maxConcurrentRequests (apply q o) = maxConcurrentRequests q.
Proof.
  intros I. destruct o; simpl; try reflexivity.
  - now apply turn_ceiling.
  - destruct (cancelRequest_cases k now q) as [E|(i & item & _ & N & _ & E)];
      rewrite E; reflexivity.
  - unfold start. destruct (isProcessing q); [reflexivity|].
    now rewrite turn_ceiling.
Qed.

Lemma new_idle (maxc : Z) (policy : RetryPolicy) :
  idle (new maxc policy : RequestQueue T R).
Proof. split; [reflexivity | constructor]. Qed.

Lemma run_keeps (ops : list (Op T R)) : forall q,
  idle q -> sorted q ->
  idle (run ops q) /\ sorted (run ops q) /\
  maxConcurrentRequests (run ops q) = maxConcurrentRequests q.
Proof.
  unfold run. induction ops as [|o r IH]; intros q I S; simpl; [auto|].
  destruct (IH (apply q o) (apply_idle q o I) (apply_sorted q o I S)) as (I' & S' & M).
  rewrite M, apply_ceiling; auto.
Qed.

(** The state of a queue that was constructed and then used. *)
Lemma used_queue (maxc : Z) (policy : RetryPolicy) (ops : list (Op T R)) :
  idle (run ops (new maxc policy)) /\ sorted (run ops (new maxc policy)) /\
  maxConcurrentRequests (run ops (new maxc policy)) = maxc.
Proof. apply run_keeps; [apply new_idle | constructor]. Qed.

(** *** Counting *)

Lemma count_none (s : RequestStatus) (l : list (QueueItem T R)) :
  Forall (fun it => status it <> s) l ->
  filter (fun it => status_eqb (status it) s) l = [].
Proof.
  induction 1 as [|x r Hx _ IH]; simpl; [reflexivity|].
  destruct (status x), s; simpl; congruence.
Qed.

Lemma count_one (s : RequestStatus) (l : list (QueueItem T R)) i item x :
  Forall (fun it => status it <> s) l ->
  nth_error l i = Some item -> status x = s ->
  filter (fun it => status_eqb (status it) s) (set_item i x l) = [x].
Proof.
  intros F. revert i. induction F as [|a r Ha Fr IH]; intros [|i]; simpl;
    try discriminate.
  - intros _ <-. rewrite (count_none _ _ Fr).
    destruct (status x); reflexivity.
  - intros N S. rewrite (IH _ N S).
    destruct (status a), s; simpl; congruence.
Qed.

Lemma only_place (s : RequestStatus) (l : list (QueueItem T R)) i x j y :
  Forall (fun it => status it <> s) l ->
  nth_error (set_item i x l) j = Some y -> status y = s -> j = i.
Proof.
  intros F N S. destruct (Nat.eq_dec i j) as [E|E]; [auto|].
  rewrite nth_error_set_item_other in N by exact E.
  apply nth_error_In in N. rewrite Forall_forall in F. now destruct (F _ N).
Qed.

End Turns.

Section Scenes.
Context {T R : Type}.
Implicit Types (q : RequestQueue T R) (item x y : QueueItem T R) (i : nat).

(** What [processRequest] leaves in the array, whatever is being
    processed. *)
Lemma processRequest_queue i t1 t2 q item :
  nth_error (queue q) i = Some item ->
  queue (processRequest i t1 t2 q)
  = if set_has (id item) (processing q) then queue q
    else set_item i (completed t1 t2 item) (queue q).
Proof.
  intros N. unfold processRequest, processRequest_with. rewrite N.
  destruct (set_has (id item) (processing q)); [reflexivity|]. simpl.
  unfold processRequest_started. rewrite N.
  unfold processRequest_try. simpl.
  rewrite (nth_error_set_item_same _ _ _ _ N). simpl.
  now rewrite set_item_twice.
Qed.

Lemma find_set_item (p : QueueItem T R -> bool) (l : list (QueueItem T R)) i x :
  find_index p l = Some i -> p x = true -> find p (set_item i x l) = Some x.
Proof.
  revert i. induction l as [|a r IH]; intros i; simpl; [discriminate|].
  destruct (p a) eqn:Pa.
  - intros [= <-] Px. simpl. now rewrite Px.
  - destruct (find_index p r) as [j|]; simpl; [|discriminate].
    intros [= <-] Px. simpl. rewrite Pa. now apply IH.
Qed.

(** A turn of a ready queue. *)
Lemma turn_ready t1 t2 q l i x :
  ready q l -> find_index is_pending l = Some i -> nth_error l i = Some x ->
  ready (startProcessing_turn t1 t2 q) (set_item i (completed t1 t2 x) l) /\
  admission_order (startProcessing_turn t1 t2 q) = admission_order q ++ [id x].
Proof.
  intros (Q & P & I & M) F N. subst l.
  assert (A : admits q = Some i).
  { unfold admits, getNextPendingItem. rewrite I, P. simpl.
    destruct (Z.ltb_spec 0 (maxConcurrentRequests q - 0)); [exact F | lia]. }
  unfold startProcessing_turn. rewrite A.
  destruct (processRequest_idle i t1 t2 q x P N) as (Q' & P' & E' & M' & I').
  unfold ready, admission_order. rewrite Q', P', E', M', I', flat_map_app. simpl.
  repeat split; auto.
Qed.

(** A turn that throws, for a queue of one pending item with retries
    left. *)
Lemma failing_turn_retries e t q item :
  ready q [item] -> status item = PENDING ->
  retryCount item < maxRetries (retryPolicy item) ->
  retryable (createApiError e) = Some true ->
  snd (failing_turn e t q) = Some (calculateRetryDelay (retried e t item)) /\
  ready (fst (failing_turn e t q)) [retried e t item] /\
  emitted (fst (failing_turn e t q))
  = emitted q ++ [requestStarted (id item) (request item);
                  requestRetrying (id item) (retryCount item + 1)
                    (calculateRetryDelay (retried e t item))].
Proof.
  intros (Q & P & I & M) S C Rt.
  unfold failing_turn, admits, getNextPendingItem. rewrite I, P, Q. simpl.
  destruct (Z.ltb_spec 0 (maxConcurrentRequests q - 0)); [|lia].
  unfold is_pending. rewrite S. simpl.
  unfold processRequest_with. rewrite Q, P. simpl.
  unfold processRequest_started. rewrite Q. simpl.
  unfold handleRequestError. simpl.
  rewrite Rt. simpl.
  destruct (Z.ltb_spec (retryCount item) (maxRetries (retryPolicy item))); [|lia].
  simpl. unfold ready, processRequest_finally, retried. simpl. rewrite P.
  unfold set_add, set_delete. simpl. rewrite String.eqb_refl. simpl.
  rewrite <- app_assoc. repeat split; auto.
Qed.

(** A turn that throws, when the retries are used up or the error is not
    retryable. *)
Lemma failing_turn_gives_up e t q item :
  ready q [item] -> status item = PENDING ->
  (maxRetries (retryPolicy item) <= retryCount item
   \/ retryable (createApiError e) = Some false) ->
  snd (failing_turn e t q) = None /\
  ready (fst (failing_turn e t q)) [gave_up e t item] /\
  emitted (fst (failing_turn e t q))
  = emitted q ++ [requestStarted (id item) (request item);
                  requestFailed (id item) (createApiError e)].
Proof.
  intros (Q & P & I & M) S C.
  unfold failing_turn, admits, getNextPendingItem. rewrite I, P, Q. simpl.
  destruct (Z.ltb_spec 0 (maxConcurrentRequests q - 0)); [|lia].
  unfold is_pending. rewrite S. simpl.
  unfold processRequest_with. rewrite Q, P. simpl.
  unfold processRequest_started. rewrite Q. simpl.
  unfold handleRequestError. simpl.
  assert (G : ((retryCount item <? maxRetries (retryPolicy item))
               && is_true (retryable (createApiError e)))%bool = false).
  { destruct C as [C|C].
    - destruct (Z.ltb_spec (retryCount item) (maxRetries (retryPolicy item)));
        [lia | reflexivity].
    - rewrite C. apply Bool.andb_false_r. }
  rewrite G.
  simpl. unfold ready, processRequest_finally, gave_up. simpl. rewrite P.
  unfold set_add, set_delete. simpl. rewrite String.eqb_refl. simpl.
  rewrite <- app_assoc. repeat split; auto.
Qed.

Lemma retryTimer_due_ready q item :
  ready q [item] -> status item = RETRYING ->
  ready (retryTimer_due q) [with_status PENDING item] /\
  emitted (retryTimer_due q) = emitted q.
Proof.
  intros (Q & P & I & M) S.
  unfold retryTimer_due, is_retrying. rewrite Q. simpl. rewrite S. simpl.
  unfold retryTimer, mutate. rewrite Q. simpl.
  unfold ready. simpl. repeat split; auto.
Qed.

Lemma retryTimer_due_none q item :
  ready q [item] -> status item <> RETRYING -> retryTimer_due q = q.
Proof.
  intros (Q & P & I & M) S.
  unfold retryTimer_due, is_retrying. rewrite Q. simpl.
  destruct (status item); simpl; congruence.
Qed.

(** The retry timer re-sorts: the array is in order after a re-entry. *)
Lemma retryTimer_sorted i q : sorted (retryTimer i q).
Proof. apply sortQueueByPriority_sorted. Qed.

End Scenes.

End QueueFacts.

(* ================================================================== *)
(** ** The queue: the properties *)
(* ================================================================== *)

Module QueueClaims.
Import Api Queue QueueSpec QueueFacts.

Section Claims.
Context {T R : Type}.
Implicit Types (q : RequestQueue T R) (item x y : QueueItem T R).

(** C1, taken at the code.  A request is added to a new queue with any
    handler and any options, and the processing loop takes one turn.  The
    item is completed, [completedAt] is stamped and the events are
    emitted, but [processRequest] contains no call of the handler: the
    stored result is [undefined].  The promise of [addRequest] waits until
    then; the next run of [checkCompletion] resolves it with [undefined],
    whatever the promise of the handler would come to, unless the request
    has a timeout whose timer fires before that run, which rejects it as
    timed out and leaves the completed item as it is. *)
Theorem handler_is_never_called (req : T) (handler : T -> Promised R)
    (options : Options) (newId : string) (now t1 t2 : Z) :
  let q0 := run [OAdd req handler options newId now] (new 1 DEFAULT_RETRY_POLICY) in
  let promise := waitForCompletion newId handler (o_timeout options) q0 in
  let q := run [OAdd req handler options newId now; OTurn t1 t2]
             (new 1 DEFAULT_RETRY_POLICY) in
  promise = {| timer := JS.truthy (o_timeout options); settled := StillWaiting |} /\
  check newId promise q = {| timer := false; settled := Resolved None |} /\
  (forall t,
     timeoutTimer newId t promise q
     = if JS.truthy (o_timeout options)
       then ({| timer := false; settled := RejectedTimedOut |}, q)
       else (promise, q)) /\
  statuses q = [COMPLETED] /\
  map completedAt (queue q) = [Some t2] /\
  emitted q = [requestAdded newId req; requestStarted newId req;
               requestCompleted newId None].
Proof.
  intros q0' promise q.
  set (q0 := addRequest req handler options newId now (new 1 DEFAULT_RETRY_POLICY)).
  set (item := {| id := newId; request := req; status := PENDING; createdAt := now;
                  startedAt := None; completedAt := None; retryCount := 0;
                  retryPolicy :=
                    merge_policy DEFAULT_RETRY_POLICY (o_retryPolicy options);
                  priority := JS.or_default (o_priority options) 0;
                  error := None; result := None |} : QueueItem T R).
  assert (R0 : ready q0 [item]) by (repeat split).
  destruct (turn_ready t1 t2 q0 _ 0%nat item R0 eq_refl eq_refl) as ((Q & _) & _).
  assert (Eq : q = startProcessing_turn t1 t2 q0) by reflexivity.
  assert (P0 : promise
               = {| timer := JS.truthy (o_timeout options); settled := StillWaiting |}).
  { unfold promise, waitForCompletion, checkCompletion. simpl.
    rewrite String.eqb_refl. simpl. now rewrite andb_true_r. }
  assert (C : checkCompletion newId q = Resolved None).
  { unfold checkCompletion. rewrite Eq, Q. simpl. now rewrite String.eqb_refl. }
  split; [exact P0|]. split; [|split; [|rewrite Eq; repeat split]].
  - rewrite P0. unfold check. simpl. rewrite C. simpl. now rewrite andb_false_r.
  - intros t. rewrite P0. unfold timeoutTimer. simpl.
    destruct (JS.truthy (o_timeout options)); [|reflexivity].
    f_equal. unfold cancelRequest. rewrite Eq, Q. simpl.
    now rewrite String.eqb_refl.
Qed.

(** The [catch] block of [processRequest], which no statement of its [try]
    block reaches, were it entered at every turn: for an item with the
    policy [maxRetries = 3], [retryDelay = 1000],
    [useExponentialBackoff = true], [maxRetryDelay = 30000] and an error
    that the queue classifies as retryable, [handleRequestError] starts
    timers of 1000, 2000 and 4000 ms, each of which puts the item back to
    [PENDING]; the fourth time it starts no timer and leaves the item
    [FAILED]. *)
Lemma catch_block_backoff_schedule (req : T) (handler : T -> Promised R)
    (newId : string)
    (now t1 t2 t3 t4 : Z) (policy : RetryPolicy) (e : ApiError) :
  retryable (createApiError e) = Some true ->
  retryAfter (createApiError e) = None ->
  let q0 := addRequest req handler three_retries newId now (new 1 policy) in
  let a1 := failing_turn e t1 q0 in
  let q1 := retryTimer_due (fst a1) in
  let a2 := failing_turn e t2 q1 in
  let q2 := retryTimer_due (fst a2) in
  let a3 := failing_turn e t3 q2 in
  let q3 := retryTimer_due (fst a3) in
  let a4 := failing_turn e t4 q3 in
  snd a1 = Some 1000 /\ statuses (fst a1) = [RETRYING] /\ statuses q1 = [PENDING] /\
  snd a2 = Some 2000 /\ statuses (fst a2) = [RETRYING] /\ statuses q2 = [PENDING] /\
  snd a3 = Some 4000 /\ statuses (fst a3) = [RETRYING] /\ statuses q3 = [PENDING] /\
  snd a4 = None /\ statuses (fst a4) = [FAILED] /\
  scheduled_delays (fst a4) = [1000; 2000; 4000] /\
  retryTimer_due (fst a4) = fst a4.
Proof.
  intros Hr Ha q0 a1 q1 a2 q2 a3 q3 a4.
  set (i0 := {| id := newId; request := req; status := PENDING; createdAt := now;
                startedAt := None; completedAt := None; retryCount := 0;
                retryPolicy := DEFAULT_RETRY_POLICY; priority := 0;
                error := None; result := None |} : QueueItem T R).
  assert (A0 : ready q0 [i0]) by (repeat split).
  destruct (failing_turn_retries e t1 q0 i0 A0 eq_refl eq_refl Hr) as (D1 & A1 & E1).
  fold a1 in D1, A1, E1.
  destruct (retryTimer_due_ready _ _ A1 eq_refl) as (B1 & F1). fold q1 in B1, F1.
  destruct (failing_turn_retries e t2 q1 _ B1 eq_refl eq_refl Hr) as (D2 & A2 & E2).
  fold a2 in D2, A2, E2.
  destruct (retryTimer_due_ready _ _ A2 eq_refl) as (B2 & F2). fold q2 in B2, F2.
  destruct (failing_turn_retries e t3 q2 _ B2 eq_refl eq_refl Hr) as (D3 & A3 & E3).
  fold a3 in D3, A3, E3.
  destruct (retryTimer_due_ready _ _ A3 eq_refl) as (B3 & F3). fold q3 in B3, F3.
  destruct (failing_turn_gives_up e t4 q3 _ B3 eq_refl (or_introl (Z.le_refl 3)))
    as (D4 & A4 & E4).
  fold a4 in D4, A4, E4.
  unfold statuses, scheduled_delays.
  destruct A1 as (-> & _), B1 as (-> & _), A2 as (-> & _), B2 as (-> & _),
    A3 as (-> & _), B3 as (-> & _).
  pose proof A4 as A4'. destruct A4' as (Q4 & _). rewrite Q4.
  rewrite E4, F3, E3, F2, E2, F1, E1.
  rewrite !flat_map_app.
  repeat split; try assumption.
  eapply retryTimer_due_none; [exact A4 | discriminate].
Qed.

(** C4, as the code has it.  An item in [COMPLETED] is left as it is by
    every call and every turn short of [clear], and [cancelRequest] on it
    returns [false] and changes nothing.  On an item in [FAILED] or
    [CANCELLED], [cancelRequest] returns [true] and leaves the item
    [CANCELLED] with [completedAt] stamped anew. *)
Theorem completed_items_stay q :
  (forall (o : Op T R) x,
     o <> OClear -> In x (queue q) -> status x = COMPLETED ->
     In x (queue (apply q o))) /\
  (forall (k : string) (now : Z) item,
     find (fun it => String.eqb (id it) k) (queue q) = Some item ->
     (status item = COMPLETED -> cancelRequest k now q = (false, q)) /\
     (status item = FAILED \/ status item = CANCELLED ->
        fst (cancelRequest k now q) = true /\
        find (fun it => String.eqb (id it) k)
             (queue (snd (cancelRequest k now q)))
        = Some (with_completedAt now (with_status CANCELLED item)))).
Proof.
  assert (Turn : forall q' t1 t2 x,
            In x (queue q') -> status x = COMPLETED ->
            In x (queue (startProcessing_turn t1 t2 q'))).
  { intros q' t1 t2 x Hx Sx.
    unfold startProcessing_turn. destruct (admits q') as [i|] eqn:A; [|exact Hx].
    destruct (admits_pending _ _ A) as (_ & _ & item & N & St).
    rewrite (processRequest_queue _ _ _ _ _ N).
    destruct (set_has (id item) (processing q')); [exact Hx|].
    eapply set_item_keeps; eauto. congruence. }
  split.
  - intros o x No Hx Sx. destruct o; simpl; try assumption; try congruence.
    + apply (Permutation_in _ (Permutation_sym (JSFacts.sort_perm compare_items _))).
      apply in_or_app. now left.
    + now apply Turn.
    + destruct (cancelRequest_cases k now q) as [E|(i & item & _ & N & Sc & E)];
        rewrite E; simpl; [exact Hx|].
      eapply set_item_keeps; eauto. congruence.
    + unfold start. destruct (isProcessing q); [exact Hx|]. now apply Turn.
  - intros k now item F. rewrite find_index_find in F.
    destruct (find_index (fun it => String.eqb (id it) k) (queue q)) as [i|] eqn:Fi;
      [|discriminate].
    destruct (find_index_nth _ _ _ Fi) as (item' & N & Pk).
    rewrite N in F. injection F as ->.
    split.
    + intros Sc. unfold cancelRequest. rewrite Fi, N, Sc. reflexivity.
    + intros Sc.
      assert (E : cancelRequest k now q
                  = (true,
                     emit (requestCancelled k)
                       (with_queue
                          (set_item i (with_completedAt now (with_status CANCELLED item))
                             (queue q)) q))).
      { unfold cancelRequest, mutate. rewrite Fi, N.
        destruct Sc as [-> | ->]; reflexivity. }
      rewrite E. simpl. split; [reflexivity|].
      apply find_set_item; [exact Fi | exact Pk].
Qed.

(** C5.  In a queue that was constructed and then used in any way, the
    item that the processing loop admits is pending and goes before every
    pending item: its priority is smaller, or equal with a [createdAt] that
    is not larger; and the turn adds its id to the order of admission.  The
    same holds for the item admitted after a retry timer has put an item
    back to [PENDING], in any queue.  Four items added with priorities 2,
    0, 1, 0 at increasing times are admitted second, fourth, third, first. *)
Theorem admission_by_priority_then_age (maxc : Z) (policy : RetryPolicy)
    (ops : list (Op T R)) :
  (let q := run ops (new maxc policy) in
   forall i x t1 t2,
     admits q = Some i -> nth_error (queue q) i = Some x ->
     status x = PENDING /\
     (forall y, In y (queue q) -> status y = PENDING -> goes_first x y) /\
     admission_order (startProcessing_turn t1 t2 q) = admission_order q ++ [id x]) /\
  (forall q0 j i x,
     let q := retryTimer j q0 in
     admits q = Some i -> nth_error (queue q) i = Some x ->
     status x = PENDING /\
     (forall y, In y (queue q) -> status y = PENDING -> goes_first x y)) /\
  (forall (qa qb qc qd : T) (handler : T -> Promised R) (ia ib ic id_ : string)
          (ta tb tc td s1 e1 s2 e2 s3 e3 s4 e4 : Z),
     ta < tb -> tb < tc -> tc < td ->
     admission_order
       (run [OTurn s1 e1; OTurn s2 e2; OTurn s3 e3; OTurn s4 e4]
          (run [OAdd qa handler (with_priority 2) ia ta;
                OAdd qb handler (with_priority 0) ib tb;
                OAdd qc handler (with_priority 1) ic tc;
                OAdd qd handler (with_priority 0) id_ td]
             (new 1 policy)))
     = [ib; id_; ic; ia]).
Proof.
  split; [|split].
  - intros q i x t1 t2 A N.
    destruct (used_queue maxc policy ops) as ((P & F) & S & M).
    fold q in P, F, S, M.
    destruct (admits_pending _ _ A) as (_ & Fi & item & N' & St).
    rewrite N in N'. injection N' as <-.
    split; [exact St|]. split.
    + intros y Hy Sy. eapply first_pending_least; eauto.
      unfold is_pending. now rewrite Sy.
    + unfold startProcessing_turn. rewrite A.
      destruct (processRequest_idle i t1 t2 q x P N) as (_ & _ & E & _).
      unfold admission_order. rewrite E, flat_map_app. reflexivity.
  - intros q0 j i x q A N.
    destruct (admits_pending _ _ A) as (_ & Fi & item & N' & St).
    rewrite N in N'. injection N' as <-.
    split; [exact St|].
    intros y Hy Sy. eapply first_pending_least; eauto.
    + apply (retryTimer_sorted j q0).
    + unfold is_pending. now rewrite Sy.
  - intros qa qb qc qd handler ia ib ic id_ ta tb tc td s1 e1 s2 e2 s3 e3 s4 e4
      H1 H2 H3.
    set (q4 := run [OAdd qa handler (with_priority 2) ia ta;
                    OAdd qb handler (with_priority 0) ib tb;
                    OAdd qc handler (with_priority 1) ic tc;
                    OAdd qd handler (with_priority 0) id_ td] (new 1 policy)).
    set (mk := fun (k : string) (r : T) (t p : Z) =>
           {| id := k; request := r; status := PENDING; createdAt := t;
              startedAt := None; completedAt := None; retryCount := 0;
              retryPolicy := policy; priority := p; error := None;
              result := None |} : QueueItem T R).
    assert (Rd : ready q4 [mk ib qb tb 0; mk id_ qd td 0; mk ic qc tc 1; mk ia qa ta 2]).
    { unfold ready, q4, run. simpl. unfold compare_items. simpl.
      destruct (Z.leb_spec (tb - td) 0); [|lia]. repeat split; reflexivity. }
    assert (O : admission_order q4 = []) by reflexivity.
    unfold run at 1. simpl.
    destruct (turn_ready s1 e1 _ _ 0%nat _ Rd eq_refl eq_refl) as (R1 & O1).
    destruct (turn_ready s2 e2 _ _ 1%nat _ R1 eq_refl eq_refl) as (R2 & O2).
    destruct (turn_ready s3 e3 _ _ 2%nat _ R2 eq_refl eq_refl) as (R3 & O3).
    destruct (turn_ready s4 e4 _ _ 3%nat _ R3 eq_refl eq_refl) as (R4 & O4).
    rewrite O4, O3, O2, O1, O. reflexivity.
Qed.

(** C6.  In a queue that was constructed with a ceiling that is not
    negative and then used in any way, the number of items in
    [PROCESSING], and the size of the [processing] set, are at most
    [maxConcurrentRequests]: between the calls, and inside [processRequest]
    at the moments when [requestStarted] and [requestCompleted] are
    emitted.  At the first of these moments an item in [PROCESSING] is the
    admitted one, so no two different items are in [PROCESSING] together. *)
Theorem processing_within_ceiling (maxc : Z) (policy : RetryPolicy)
    (ops : list (Op T R)) :
  0 <= maxc ->
  let q := run ops (new maxc policy) in
  count_status PROCESSING q <= maxc /\
  Z.of_nat (List.length (processing q)) <= maxc /\
  (forall i t t', admits q = Some i ->
     let q' := processRequest_started i t q in
     let q'' := processRequest_try i t' q' in
     count_status PROCESSING q' <= maxc /\
     Z.of_nat (List.length (processing q')) <= maxc /\
     (forall a b x y,
        nth_error (queue q') a = Some x -> nth_error (queue q') b = Some y ->
        status x = PROCESSING -> status y = PROCESSING -> a = b) /\
     count_status PROCESSING q'' <= maxc /\
     Z.of_nat (List.length (processing q'')) <= maxc).
Proof.
  intros M0 q.
  destruct (used_queue maxc policy ops) as ((P & F) & S & M). fold q in P, F, S, M.
  split; [|split].
  - unfold count_status. rewrite (count_none _ _ F). simpl. exact M0.
  - rewrite P. simpl. exact M0.
  - intros i t t' A q' q''.
    destruct (admits_pending _ _ A) as (Sl & _ & item & N & St).
    rewrite P, M in Sl. simpl in Sl.
    assert (Q' : queue q'
                 = set_item i (with_startedAt t (with_status PROCESSING item)) (queue q)).
    { unfold q', processRequest_started. rewrite N. reflexivity. }
    assert (P' : processing q' = [id item]).
    { unfold q', processRequest_started. rewrite N. simpl. now rewrite P. }
    assert (N' : nth_error (queue q') i
                 = Some (with_startedAt t (with_status PROCESSING item))).
    { rewrite Q'. eapply nth_error_set_item_same; eauto. }
    assert (Q'' : queue q'' = set_item i (completed t t' item) (queue q)).
    { unfold q'', processRequest_try. rewrite N'. simpl.
      rewrite Q'. apply set_item_twice. }
    assert (P'' : processing q'' = [id item]).
    { unfold q'', processRequest_try. rewrite N'. simpl. exact P'. }
    repeat split.
    + unfold count_status. rewrite Q'.
      rewrite (count_one PROCESSING _ _ _
                 (with_startedAt t (with_status PROCESSING item)) F N eq_refl).
      simpl. lia.
    + rewrite P'. simpl. lia.
    + intros a b x y Na Nb Sx Sy. rewrite Q' in Na, Nb.
      rewrite (only_place _ _ _ _ _ _ F Na Sx), (only_place _ _ _ _ _ _ F Nb Sy).
      reflexivity.
    + unfold count_status. rewrite Q''.
      rewrite count_none; [simpl; lia|].
      apply set_item_Forall; [simpl; discriminate | exact F].
    + rewrite P''. simpl. lia.
Qed.

(** The delay of the queue does not look at the error of the item. *)
Lemma calculateRetryDelay_ignores_error (e : ApiError) item :
  calculateRetryDelay (with_error e item) = calculateRetryDelay item.
Proof. reflexivity. Qed.

End Claims.

(** A completed and a cancelled request, cancelled. *)
Lemma completed_items_stay_witness :
  (exists item,
     find (fun it => String.eqb (id it) "req_1") (queue completed_request) = Some item /\
     status item = COMPLETED /\
     cancelRequest "req_1" 9 completed_request = (false, completed_request)) /\
  (exists item,
     find (fun it => String.eqb (id it) "req_1") (queue cancelled_request) = Some item /\
     (status item = FAILED \/ status item = CANCELLED) /\
     fst (cancelRequest "req_1" 9 cancelled_request) = true).
Proof.
  split; eexists; (split; [reflexivity|]).
  - split; [reflexivity|].
    exact (proj1 (proj2 (completed_items_stay completed_request)
                    "req_1"%string 9 _ eq_refl) eq_refl).
  - split; [right; reflexivity|].
    exact (proj1 (proj2 (proj2 (completed_items_stay cancelled_request)
                           "req_1"%string 9 _ eq_refl) (or_intror eq_refl))).
Defined.

(** C4 as stated fails.  A cancelled item is in a terminal state, yet a
    second [cancelRequest] for it returns [true] and stamps [completedAt]
    anew; and [cancelRequest] for a [FAILED] item returns [true] and makes
    it [CANCELLED].  The guard of [cancelRequest] names [COMPLETED] only. *)
Lemma cancel_of_terminal_items :
  (statuses cancelled_request = [CANCELLED] /\
   map completedAt (queue cancelled_request) = [Some 5] /\
   fst (cancelRequest "req_1" 9 cancelled_request) = true /\
   map completedAt (queue (snd (cancelRequest "req_1" 9 cancelled_request)))
   = [Some 9]) /\
  (statuses failed_request = [FAILED] /\
   fst (cancelRequest "req_1" 9 failed_request) = true /\
   statuses (snd (cancelRequest "req_1" 9 failed_request)) = [CANCELLED]).
Proof. vm_compute. repeat split. Qed.

(** The four requests of the ordering property. *)
Lemma admission_by_priority_then_age_witness :
  (exists x,
     admits (run four_requests requestQueue) = Some 0%nat /\
     nth_error (queue (run four_requests requestQueue)) 0 = Some x /\
     id x = "b"%string /\ status x = PENDING) /\
  (1 < 2 /\ 2 < 3 /\ 3 < 4 /\
   admission_order (run four_turns (run four_requests requestQueue))
   = ["b"; "d"; "c"; "a"]%string).
Proof.
  split.
  - eexists. split; [reflexivity|]. split; [reflexivity|]. split; [reflexivity|].
    exact (proj1 (proj1 (admission_by_priority_then_age 1 DEFAULT_RETRY_POLICY
                           four_requests) 0%nat _ 5 6 eq_refl eq_refl)).
  - repeat (split; [lia|]).
    apply (proj2 (proj2 (admission_by_priority_then_age 1 DEFAULT_RETRY_POLICY [])));
      lia.
Defined.

(** The global queue after four requests. *)
Lemma processing_within_ceiling_witness :
  0 <= 1 /\
  count_status PROCESSING (run four_requests requestQueue) <= 1 /\
  admits (run four_requests requestQueue) = Some 0%nat /\
  count_status PROCESSING
    (processRequest_started 0 5 (run four_requests requestQueue)) <= 1.
Proof.
  assert (H : 0 <= 1) by lia.
  destruct (processing_within_ceiling 1 DEFAULT_RETRY_POLICY four_requests H)
    as (C & _ & S).
  split; [exact H|]. split; [exact C|]. split; [reflexivity|].
  exact (proj1 (S 0%nat 5 6 eq_refl)).
Defined.

(** The callback of a retry timer sets [PENDING] without looking at the
    status: an item that was cancelled while it waited in [RETRYING] is
    pending again when its timer fires. *)
Lemma retry_timer_after_cancel :
  let waiting := fst (failing_turn network_down 3 one_request) in
  let cancelled := snd (cancelRequest "req_1" 4 waiting) in
  statuses waiting = [RETRYING] /\
  statuses cancelled = [CANCELLED] /\
  statuses (retryTimer 0 cancelled) = [PENDING].
Proof. vm_compute. repeat split. Qed.

(** The [catch] block again, were it entered with a rate-limit error: the
    queue classifies the error as retryable with [retryAfter = 5000], and
    [handleRequestError] starts a retry timer of 1000 ms, the delay of the
    policy; [calculateRetryDelay] of the queue never reads [retryAfter].
    [calculateRetryDelay] of the Gemini service returns the 5000 ms. *)
Lemma catch_block_ignores_retryAfter :
  let a := failing_turn too_many_requests 3 one_request in
  type (createApiError too_many_requests) = Some RATE_LIMIT_EXCEEDED /\
  retryable (createApiError too_many_requests) = Some true /\
  retryAfter (createApiError too_many_requests) = Some 5000 /\
  snd a = Some 1000 /\
  scheduled_delays (fst a) = [1000] /\
  statuses (fst a) = [RETRYING] /\
  GeminiService.calculateRetryDelay 0
    (retryAfter (GeminiService.createApiError too_many_requests)) = 5000.
Proof. vm_compute. repeat split. Qed.

(** C9, taken at the code.  A request on the global queue fails with
    "500 Internal Server Error".  [createApiError] of the queue, like that
    of the Gemini service, has no branch for server errors: the error is
    [UNKNOWN] and not retryable, and the item is [FAILED] at the first
    failure with no retry timer.  [createApiError] of the Ollama service
    classifies the same error as [SERVER_ERROR] and retryable. *)
Theorem server_error_is_not_retried :
  let a := failing_turn internal_server_error 3 one_request in
  type (createApiError internal_server_error) = Some UNKNOWN /\
  retryable (createApiError internal_server_error) = Some false /\
  snd a = None /\
  scheduled_delays (fst a) = [] /\
  statuses (fst a) = [FAILED] /\
  type (GeminiService.createApiError internal_server_error) = Some UNKNOWN /\
  type (OllamaService.createApiError internal_server_error) = Some SERVER_ERROR /\
  retryable (OllamaService.createApiError internal_server_error) = Some true.
Proof. vm_compute. repeat split. Qed.

End QueueClaims.

(* ================================================================== *)
(** ** The cache: lookups, removals and sweeps *)
(* ================================================================== *)

Module MoreCache.
Import Cache CacheSpec CacheFacts MoreCacheSpec.

Section More.
Context {V : Type}.
Variable calculateSize : V -> Z.
Variable jsonLength : list (CacheItem V) -> Z.
Variable config : CacheConfig.

Implicit Types (c : CacheService V) (k : string) (item : CacheItem V).

(** *** Removals take entries away and bring none *)

Lemma remove_entry_within k c c' item :
  map_get k (memoryCache c') = Some item ->
  within c c' -> within c (remove_entry item c').
Proof.
  intros _ H x Hx. apply H. simpl in Hx. eapply map_delete_In; eauto.
Qed.

Lemma map_set_In (it : CacheItem V) (m : list (CacheItem V)) x :
  In x (map_set it m) -> x = it \/ In x m.
Proof.
  induction m as [|y r IH]; simpl.
  - intros [<-|[]]. now left.
  - destruct (String.eqb (key y) (key it)); simpl.
    + intros [<-|H]; auto.
    + intros [<-|H]; auto. destruct (IH H); auto.
Qed.

Lemma map_set_keys (it old : CacheItem V) (m : list (CacheItem V)) :
  map_get (key it) m = Some old -> map key (map_set it m) = map key m.
Proof.
  induction m as [|y r IH]; simpl; [discriminate|].
  destruct (String.eqb_spec (key y) (key it)) as [E|E]; simpl.
  - intros _. now rewrite E.
  - intros H. now rewrite IH.
Qed.

(** X5.  [remove], the sweep of [cleanupOldItems], the eviction pass of
    [saveToStorage] and [cleanup] only take entries away: every entry
    stored afterwards was stored before, unchanged. *)
Theorem evictions_only_remove c :
  (forall k, within c (snd (remove jsonLength k c))) /\
  within c (cleanupOldItems jsonLength c) /\
  within c (saveToStorage jsonLength c) /\
  (forall now, within c (snd (cleanup jsonLength now c))).
Proof.
  assert (R : forall k c', within c c' -> within c (snd (remove jsonLength k c'))).
  { intros k c'. apply (remove_inv jsonLength (within c)).
    intros k' c'' item. apply remove_entry_within. }
  assert (I : within c c) by (intros x Hx; exact Hx).
  split; [|split; [|split]].
  - intros k. now apply R.
  - apply (cleanupOldItems_inv jsonLength (within c)); [|exact I].
    intros k' c'' item. apply remove_entry_within.
  - apply (saveToStorage_inv jsonLength (within c)); [|exact I].
    intros k' c'' item. apply remove_entry_within.
  - intros now. unfold cleanup.
    assert (H : forall l acc, within c (snd acc) ->
              within c (snd (fold_left (cleanup_visit jsonLength now) l acc))).
    { induction l as [|x r IH]; intros [n c'] Hacc; simpl; [exact Hacc|].
      apply IH. simpl in Hacc.
      destruct (map_get (key x) (memoryCache c')) as [cur|]; [|exact Hacc].
      destruct (isExpired now cur); simpl; [|exact Hacc].
      now apply R. }
    specialize (H (memoryCache c) (0, c) I).
    destruct (fold_left (cleanup_visit jsonLength now) (memoryCache c) (0, c)) as [n c'].
    exact H.
Qed.

Lemma remove_within k c : within c (snd (remove jsonLength k c)).
Proof.
  apply (remove_inv jsonLength (within c)).
  - intros k' c'' item. apply remove_entry_within.
  - intros x Hx. exact Hx.
Qed.

Lemma remove_absent_after k c :
  well_formed c -> map_get k (memoryCache (snd (remove jsonLength k c))) = None.
Proof.
  intros W. rewrite remove_eq.
  destruct (map_get k (memoryCache c)) as [item|] eqn:G; simpl; [|exact G].
  apply (saveToStorage_inv jsonLength
           (fun c'' => map_get k (memoryCache c'') = None)).
  - intros k' c'' it. apply remove_entry_absent.
  - simpl. rewrite (map_get_key _ _ _ G). apply map_get_delete_same, W.
Qed.

(** X4.  [remove(k)] of a key that is not stored returns [false] and
    changes nothing; of a stored key it returns [true].  Either way the key
    is not stored afterwards, [has(k)] is [false] and [get(k)] misses. *)
Theorem remove_then_lookup k c :
  well_formed c ->
  let r := remove jsonLength k c in
  (map_get k (memoryCache c) = None -> r = (false, c)) /\
  (map_get k (memoryCache c) <> None -> fst r = true) /\
  map_get k (memoryCache (snd r)) = None /\
  (forall now, has k now (snd r) = false) /\
  (forall now, fst (get jsonLength k now (snd r)) = None).
Proof.
  intros W r.
  pose proof (remove_absent_after k c W) as A. fold r in A.
  split; [|split; [|split; [|split]]].
  - intros G. unfold r. now rewrite remove_eq, G.
  - intros G. unfold r. rewrite remove_eq.
    destruct (map_get k (memoryCache c)); [reflexivity | congruence].
  - exact A.
  - intros now. unfold has. now rewrite A.
  - intros now. unfold get. now rewrite A.
Qed.

(** *** Lookups *)

(** X3.  [has(k)] is [true] exactly when a [get(k)] at the same time is a
    hit: it finds an entry that is not expired, returns its payload, which
    may itself be [null], and adds one to [hitCount].  [has(k)] is [false]
    exactly when that [get(k)] is a miss and adds one to [missCount]. *)
Theorem has_iff_get k (now : Z) c :
  (has k now c = true <->
   exists item,
     map_get k (memoryCache c) = Some item /\ isExpired now item = false /\
     fst (get jsonLength k now c) = Some (data item)) /\
  (has k now c = true <->
   hitCount (stats (snd (get jsonLength k now c))) = hitCount (stats c) + 1) /\
  (has k now c = false <->
   missCount (stats (snd (get jsonLength k now c))) = missCount (stats c) + 1).
Proof.
  unfold has, get.
  destruct (map_get k (memoryCache c)) as [item|] eqn:G; simpl.
  - destruct (isExpired now item) eqn:E; simpl.
    + destruct (remove_counters jsonLength k c) as (M & _ & H).
      rewrite H, M. repeat split; try discriminate; try lia; try reflexivity.
      intros (it & [= <-] & E' & _). congruence.
    + repeat split; try discriminate; try lia; try reflexivity.
      intros _. exists item. now repeat split.
  - repeat split; try discriminate; try lia; try reflexivity.
    intros (it & D & _). discriminate.
Qed.

(** X2.  Every [get] counts one lookup.  A call that finds an entry that is
    not expired is a hit: it returns the payload of the entry, adds one to
    [hitCount] and leaves [missCount].  Every other call is a miss: it
    returns [null], adds one to [missCount] and leaves [hitCount].  The
    payload of a hit may be [null]: the caller then receives [null] from a
    call that was counted as a hit. *)
Theorem get_counts_one k (now : Z) c :
  let r := get jsonLength k now c in
  (forall item,
     map_get k (memoryCache c) = Some item -> isExpired now item = false ->
     fst r = Some (data item) /\
     hitCount (stats (snd r)) = hitCount (stats c) + 1 /\
     missCount (stats (snd r)) = missCount (stats c)) /\
  (has k now c = false ->
     fst r = None /\
     hitCount (stats (snd r)) = hitCount (stats c) /\
     missCount (stats (snd r)) = missCount (stats c) + 1) /\
  (forall null item,
     map_get k (memoryCache c) = Some item -> isExpired now item = false ->
     data item = null ->
     returned null (fst r) = null /\
     hitCount (stats (snd r)) = hitCount (stats c) + 1).
Proof.
  unfold has, get.
  destruct (map_get k (memoryCache c)) as [item|]; simpl.
  - destruct (isExpired now item) eqn:E; simpl.
    + destruct (remove_counters jsonLength k c) as (M & _ & H).
      split; [|split].
      * intros it [= <-]. congruence.
      * intros _. rewrite H, M. now repeat split.
      * intros null it [= <-]. congruence.
    + split; [|split].
      * intros it [= <-] _. now repeat split.
      * discriminate.
      * intros null it [= <-] _ D. simpl. now split.
  - split; [|split]; try discriminate. intros _. now repeat split.
Qed.

Lemma apply_rate (c : CacheService V) (o : Op (V := V)) :
  rate_consistent c ->
  rate_consistent (apply calculateSize jsonLength config c o).
Proof.
  assert (K : forall c', rate_consistent c ->
            hitRate (stats c') = hitRate (stats c) ->
            hitCount (stats c') = hitCount (stats c) ->
            missCount (stats c') = missCount (stats c) ->
            rate_consistent c').
  { unfold rate_consistent. intros c' H -> -> ->. exact H. }
  assert (Rm : forall k c0,
            hitRate (stats (snd (remove jsonLength k c0))) = hitRate (stats c0) /\
            hitCount (stats (snd (remove jsonLength k c0))) = hitCount (stats c0) /\
            missCount (stats (snd (remove jsonLength k c0))) = missCount (stats c0)).
  { intros k c0.
    apply (remove_inv jsonLength
             (fun c' => hitRate (stats c') = hitRate (stats c0) /\
                        hitCount (stats c') = hitCount (stats c0) /\
                        missCount (stats c') = missCount (stats c0))).
    - intros k' c' item _ H. exact H.
    - repeat split. }
  intros H. destruct o; simpl.
  - unfold get. destruct (map_get k (memoryCache c)) as [item|]; simpl;
      [destruct (isExpired now item); simpl|]; reflexivity.
  - unfold set, set_room.
    assert (Sw : hitRate (stats (cleanupOldItems jsonLength c)) = hitRate (stats c) /\
                 hitCount (stats (cleanupOldItems jsonLength c)) = hitCount (stats c) /\
                 missCount (stats (cleanupOldItems jsonLength c))
                 = missCount (stats c)).
    { apply (cleanupOldItems_inv jsonLength
               (fun c' => hitRate (stats c') = hitRate (stats c) /\
                          hitCount (stats c') = hitCount (stats c) /\
                          missCount (stats c') = missCount (stats c))).
      - intros k' c' item _ H'. exact H'.
      - repeat split. }
    assert (Sv : forall c0,
              hitRate (stats (saveToStorage jsonLength c0)) = hitRate (stats c0) /\
              hitCount (stats (saveToStorage jsonLength c0)) = hitCount (stats c0) /\
              missCount (stats (saveToStorage jsonLength c0)) = missCount (stats c0)).
    { intros c0.
      apply (saveToStorage_inv jsonLength
               (fun c' => hitRate (stats c') = hitRate (stats c0) /\
                          hitCount (stats c') = hitCount (stats c0) /\
                          missCount (stats c') = missCount (stats c0))).
      - intros k' c' item _ H'. exact H'.
      - repeat split. }
    assert (In_ : forall it c0,
              hitRate (stats (set_insert it c0)) = hitRate (stats c0) /\
              hitCount (stats (set_insert it c0)) = hitCount (stats c0) /\
              missCount (stats (set_insert it c0)) = missCount (stats c0)).
    { intros it c0. unfold set_insert.
      destruct (map_get (key it) (memoryCache c0)); simpl; repeat split. }
    destruct Sw as (S1 & S2 & S3).
    destruct (wouldExceedStorageLimit config (calculateSize d) c); simpl.
    + destruct (negb _); simpl.
      * destruct (Sv (set_insert (new_item calculateSize config k d ttl now)
                        (cleanupOldItems jsonLength c))) as (A1 & A2 & A3).
        destruct (In_ (new_item calculateSize config k d ttl now)
                    (cleanupOldItems jsonLength c)) as (B1 & B2 & B3).
        apply K; [exact H | | | ].
        -- etransitivity; [exact A1|]. etransitivity; [exact B1 | exact S1].
        -- etransitivity; [exact A2|]. etransitivity; [exact B2 | exact S2].
        -- etransitivity; [exact A3|]. etransitivity; [exact B3 | exact S3].
      * apply K; assumption.
    + destruct (Sv (set_insert (new_item calculateSize config k d ttl now) c))
        as (A1 & A2 & A3).
      destruct (In_ (new_item calculateSize config k d ttl now) c) as (B1 & B2 & B3).
      apply K; [exact H | | | ].
      * etransitivity; [exact A1 | exact B1].
      * etransitivity; [exact A2 | exact B2].
      * etransitivity; [exact A3 | exact B3].
  - destruct (Rm k c) as (A1 & A2 & A3). apply K; assumption.
  - reflexivity.
  - unfold cleanup.
    assert (F : forall l acc,
              hitRate (stats (snd (fold_left (cleanup_visit jsonLength now) l acc)))
              = hitRate (stats (snd acc)) /\
              hitCount (stats (snd (fold_left (cleanup_visit jsonLength now) l acc)))
              = hitCount (stats (snd acc)) /\
              missCount (stats (snd (fold_left (cleanup_visit jsonLength now) l acc)))
              = missCount (stats (snd acc))).
    { induction l as [|x r IH]; intros acc; [repeat split|].
      cbn [fold_left].
      destruct (IH (cleanup_visit jsonLength now acc x)) as (I1 & I2 & I3).
      assert (E : hitRate (stats (snd (cleanup_visit jsonLength now acc x)))
                  = hitRate (stats (snd acc)) /\
                  hitCount (stats (snd (cleanup_visit jsonLength now acc x)))
                  = hitCount (stats (snd acc)) /\
                  missCount (stats (snd (cleanup_visit jsonLength now acc x)))
                  = missCount (stats (snd acc))).
      { destruct acc as [n c']. unfold cleanup_visit.
        destruct (map_get (key x) (memoryCache c')) as [cur|]; [|repeat split].
        destruct (isExpired now cur); [apply Rm | repeat split]. }
      destruct E as (E1 & E2 & E3).
      repeat split; etransitivity; eassumption. }
    specialize (F (memoryCache c) (0, c)). simpl in F.
    destruct (fold_left (cleanup_visit jsonLength now) (memoryCache c) (0, c))
      as [n c'].
    simpl in *. destruct F as (F1 & F2 & F3). apply K; assumption.
Qed.

(** X1.  Whatever snapshot the constructor loads and whatever public
    operations follow, [hitRate] is [hitCount / (hitCount + missCount)],
    and 0 as long as no lookup was counted. *)
Theorem hit_rate_accounting (stored : list (CacheItem V)) (now0 : Z)
    (ops : list (Op (V := V))) :
  rate_consistent
    (run calculateSize jsonLength config ops (loadFromStorage stored now0)).
Proof.
  unfold run.
  assert (H0 : rate_consistent (loadFromStorage stored now0 : CacheService V))
    by reflexivity.
  revert H0. generalize (loadFromStorage stored now0 : CacheService V).
  induction ops as [|o r IH]; intros c H; simpl; [exact H|].
  apply IH, apply_rate, H.
Qed.

(** *** The sweep of expired entries *)

Lemma keys_NoDup (m : list (CacheItem V)) :
  distinct_keys m = true -> NoDup (map key m).
Proof.
  induction m as [|x r IH]; simpl; [constructor|].
  destruct (map_get (key x) r) eqn:G; [discriminate|].
  intros D. constructor; [|auto].
  rewrite map_get_None in G. rewrite in_map_iff.
  intros (y & E & Hy). exact (G y Hy E).
Qed.

Lemma cleanup_fold_spec (now : Z) (l : list (CacheItem V)) : forall n c,
  well_formed c -> 0 <= n ->
  let r := fold_left (cleanup_visit jsonLength now) l (n, c) in
  well_formed (snd r) /\
  within c (snd r) /\
  (forall x, In x (memoryCache (snd r)) -> In x l -> isExpired now x = false) /\
  n <= fst r /\
  fst r - n <= Z.of_nat (entries c) - Z.of_nat (entries (snd r)).
Proof.
  induction l as [|a rest IH]; intros n c W N; cbn [fold_left]; cbv zeta.
  - simpl. split; [exact W|]. split; [intros x Hx; exact Hx|].
    split; [intros x _ []|]. lia.
  - set (acc := cleanup_visit jsonLength now (n, c) a).
    assert (A : well_formed (snd acc) /\ within c (snd acc) /\
                (In a (memoryCache (snd acc)) -> isExpired now a = false) /\
                n <= fst acc /\
                fst acc - n <= Z.of_nat (entries c) - Z.of_nat (entries (snd acc))).
    { unfold acc, cleanup_visit.
      destruct (map_get (key a) (memoryCache c)) as [cur|] eqn:G.
      - destruct (isExpired now cur) eqn:X; simpl.
        + split; [apply remove_well_formed, W|].
          split; [apply remove_within|].
          split.
          * intros Ha. pose proof (remove_absent_after (key a) c W) as Ab.
            rewrite map_get_None in Ab. now destruct (Ab a Ha).
          * split; [lia|].
            assert (S (entries (snd (remove jsonLength (key a) c))) <= entries c)%nat.
            { rewrite remove_eq, G. simpl.
              pose proof (remove_entry_entries _ _ _ G) as E.
              assert (entries (saveToStorage jsonLength (remove_entry cur c))
                      <= entries (remove_entry cur c))%nat.
              { apply (saveToStorage_inv jsonLength
                         (fun c' => (entries c' <= entries (remove_entry cur c))%nat)).
                - intros k' c' it G' H'.
                  pose proof (remove_entry_entries _ _ _ G'). lia.
                - lia. }
              lia. }
            lia.
        + split; [exact W|]. split; [intros x Hx; exact Hx|].
          split; [|lia].
          intros Ha. pose proof (distinct_keys_get _ _ W Ha) as G'.
          rewrite G in G'. injection G' as ->. exact X.
      - simpl. split; [exact W|]. split; [intros x Hx; exact Hx|].
        split; [|lia].
        intros Ha. pose proof (distinct_keys_get _ _ W Ha) as G'. congruence. }
    destruct A as (W' & In' & Xa & N' & D').
    destruct acc as [n' c'] eqn:Eacc. simpl in W', In', Xa, N', D'.
    destruct (IH n' c' W' ltac:(lia)) as (W2 & In2 & X2 & N2 & D2).
    split; [exact W2|]. split; [intros x Hx; apply In', In2, Hx|].
    split; [|split; [lia|]].
    + intros x Hx [<-|Hr]; [apply Xa, In2, Hx | apply X2; assumption].
    + assert (entries c' <= entries c)%nat.
      { clear -In' W'. unfold entries.
        apply NoDup_incl_length.
        - apply (NoDup_map_inv key). apply keys_NoDup. exact W'.
        - exact In'. }
      lia.
Qed.

(** X6.  After [cleanup()] no stored entry is expired; every stored entry
    was stored before; the number that [cleanup] returns is added to
    [expiredItems], is not negative and is at most the number of entries
    that went away. *)
Theorem cleanup_leaves_no_expired (now : Z) c :
  well_formed c ->
  let r := cleanup jsonLength now c in
  (forall x, In x (memoryCache (snd r)) -> isExpired now x = false) /\
  within c (snd r) /\
  expiredItems (stats (snd r)) = expiredItems (stats c) + fst r /\
  0 <= fst r <= Z.of_nat (entries c) - Z.of_nat (entries (snd r)).
Proof.
  intros W. unfold cleanup.
  pose proof (cleanup_fold_spec now (memoryCache c) 0 c W ltac:(lia)) as H.
  cbv zeta in H.
  assert (E : expiredItems
                (stats (snd (fold_left (cleanup_visit jsonLength now)
                               (memoryCache c) (0, c))))
              = expiredItems (stats c)).
  { assert (F : forall l acc,
              expiredItems (stats (snd (fold_left (cleanup_visit jsonLength now) l acc)))
              = expiredItems (stats (snd acc))).
    { induction l as [|x rest IH]; intros acc; [reflexivity|].
      cbn [fold_left]. rewrite IH.
      destruct acc as [n c']. unfold cleanup_visit.
      destruct (map_get (key x) (memoryCache c')) as [cur|]; [|reflexivity].
      destruct (isExpired now cur); [|reflexivity].
      simpl. now destruct (remove_counters jsonLength (key x) c') as (_ & Ex & _). }
    apply F. }
  destruct (fold_left (cleanup_visit jsonLength now) (memoryCache c) (0, c))
    as [n c'] eqn:Ef.
  simpl in *. destruct H as (_ & In' & X & N & D).
  split; [|split; [exact In' | split; [now rewrite E | unfold entries in *; simpl; lia]]].
  intros x Hx. apply X; [exact Hx | apply In', Hx].
Qed.

(** X7.  When no stored entry is expired, [cleanup()] returns 0 and leaves
    the cache as it is. *)
Theorem cleanup_of_fresh_cache (now : Z) c :
  (forall x, In x (memoryCache c) -> isExpired now x = false) ->
  cleanup jsonLength now c = (0, c).
Proof.
  intros F. unfold cleanup.
  assert (H : forall l, (forall x, In x l -> In x (memoryCache c)) ->
            fold_left (cleanup_visit jsonLength now) l (0, c) = (0, c)).
  { induction l as [|x rest IH]; intros Sub; [reflexivity|].
    cbn [fold_left].
    assert (E : cleanup_visit jsonLength now (0, c) x = (0, c)).
    { unfold cleanup_visit.
      destruct (map_get (key x) (memoryCache c)) as [cur|] eqn:G; [|reflexivity].
      now rewrite (F cur (map_get_In _ _ _ G)). }
    rewrite E. apply IH. intros y Hy. apply Sub. now right. }
  rewrite H by auto.
  destruct c as [m [ti hc mc hr ts av ex mo]]. simpl.
  now rewrite Z.add_0_r.
Qed.

(** *** Writes *)

(** X8.  A [set] for a key that is stored, when the cache has room and the
    snapshot fits the storage cap, replaces the entry in its place: the
    keys of the map and their order are as before, and the key holds the
    new entry. *)
Theorem set_replaces_in_place k (d : V) (ttl : option Z) (now : Z) c old :
  map_get k (memoryCache c) = Some old ->
  wouldExceedStorageLimit config (calculateSize d) c = false ->
  jsonLength (map_set (new_item calculateSize config k d ttl now) (memoryCache c))
    <= MAX_STORAGE_SIZE ->
  let r := set calculateSize jsonLength config k d ttl now c in
  fst r = true /\
  map key (memoryCache (snd r)) = map key (memoryCache c) /\
  map_get k (memoryCache (snd r)) = Some (new_item calculateSize config k d ttl now) /\
  totalItems (stats (snd r)) = totalItems (stats c) /\
  totalSize (stats (snd r)) = totalSize (stats c) - size old + calculateSize d.
Proof.
  intros G X F. unfold set, set_room. rewrite X.
  set (item := new_item calculateSize config k d ttl now) in *.
  assert (G' : map_get (key item) (memoryCache c) = Some old) by exact G.
  assert (E : set_insert item c
              = {| memoryCache := map_set item (memoryCache c);
                   stats := stats (set_insert item c) |}).
  { unfold set_insert. rewrite G'. reflexivity. }
  rewrite saveToStorage_fits by (rewrite E; exact F).
  simpl. split; [reflexivity|]. unfold set_insert. rewrite G'. simpl.
  split; [eapply map_set_keys; eauto|].
  split; [apply (map_get_set_same item)|]. split; reflexivity.
Qed.

Lemma remove_entry_bounded (bound : Z) k c item :
  map_get k (memoryCache c) = Some item ->
  sizes_not_negative c /\ totalSize (stats c) <= bound ->
  sizes_not_negative (remove_entry item c) /\
  totalSize (stats (remove_entry item c)) <= bound.
Proof.
  intros G [S B]. unfold sizes_not_negative in *. rewrite Forall_forall in S.
  split.
  - apply Forall_forall. intros x Hx. apply S. simpl in Hx.
    eapply map_delete_In; eauto.
  - simpl. pose proof (S item (map_get_In _ _ _ G)). lia.
Qed.

(** X9.  When no stored entry and no written value has a negative size, a
    [set] that returns [true] leaves [totalSize] within [maxSize]. *)
Theorem accepted_set_within_budget k (d : V) (ttl : option Z) (now : Z) c :
  sizes_not_negative c ->
  0 <= calculateSize d ->
  fst (set calculateSize jsonLength config k d ttl now c) = true ->
  totalSize (stats (snd (set calculateSize jsonLength config k d ttl now c)))
    <= maxSize config.
Proof.
  intros S D A.
  assert (Room : let r := set_room jsonLength config (calculateSize d) c in
                 fst r = true ->
                 sizes_not_negative (snd r) /\
                 totalSize (stats (snd r)) + calculateSize d <= maxSize config).
  { unfold set_room, wouldExceedStorageLimit.
    destruct (Z.ltb_spec (maxSize config) (totalSize (stats c) + calculateSize d));
      simpl.
    - destruct (Z.ltb_spec (maxSize config)
                  (totalSize (stats (cleanupOldItems jsonLength c)) + calculateSize d));
        simpl; [discriminate|].
      intros _. split; [|lia].
      unfold sizes_not_negative in *. rewrite Forall_forall in *.
      intros x Hx. apply S.
      destruct (evictions_only_remove c) as (_ & Sw & _). exact (Sw x Hx).
    - intros _. split; [exact S | lia]. }
  cbv zeta in Room.
  unfold set in *.
  destruct (set_room jsonLength config (calculateSize d) c) as [[|] c1];
    simpl in *; [|discriminate].
  destruct (Room eq_refl) as (S1 & B1).
  set (item := new_item calculateSize config k d ttl now).
  apply (saveToStorage_inv jsonLength
           (fun c' => sizes_not_negative c' /\ totalSize (stats c') <= maxSize config)).
  - intros k' c' it. apply remove_entry_bounded.
  - unfold sizes_not_negative in *. rewrite Forall_forall in S1.
    unfold set_insert.
    destruct (map_get (key item) (memoryCache c1)) as [ex|] eqn:G; simpl.
    + split.
      * apply Forall_forall. intros x Hx.
        destruct (map_set_In _ _ _ Hx) as [->|H]; [exact D | auto].
      * pose proof (S1 ex (map_get_In _ _ _ G)). change (size item) with (calculateSize d). lia.
    + split.
      * apply Forall_forall. intros x Hx.
        destruct (map_set_In _ _ _ Hx) as [->|H]; [exact D | auto].
      * change (size item) with (calculateSize d). lia.
Qed.

(** X10.  A [get] that hits stamps the entry with the time of the call and
    adds one to its [accessCount]; its value and expiry, and every other
    entry, stay as they are, so a later [get] before the expiry returns the
    same value. *)
Theorem hit_refreshes_entry k (now : Z) c item :
  map_get k (memoryCache c) = Some item ->
  isExpired now item = false ->
  let r := get jsonLength k now c in
  fst r = Some (data item) /\
  map_get k (memoryCache (snd r)) = Some (touched now item) /\
  (forall k', k' <> k ->
     map_get k' (memoryCache (snd r)) = map_get k' (memoryCache c)) /\
  (forall later, later <= expiresAt item ->
     fst (get jsonLength k later (snd r)) = Some (data item)).
Proof.
  intros G X. unfold get. rewrite G, X. simpl.
  pose proof (map_get_key _ _ _ G) as K.
  assert (G' : map_get k (map_set (touched now item) (memoryCache c))
               = Some (touched now item)).
  { rewrite <- K. apply (map_get_set_same (touched now item)). }
  split; [reflexivity|]. split; [exact G'|]. split.
  - intros k' N. apply map_get_set_other. simpl. congruence.
  - intros later L. fold (touched now item). rewrite G'.
    unfold isExpired. simpl.
    destruct (Z.ltb_spec (expiresAt item) later); [lia | reflexivity].
Qed.

(** X12.  The constructor loads only entries of the stored snapshot that
    are not expired at load time, under pairwise different keys. *)
Theorem load_drops_expired (stored : list (CacheItem V)) (now : Z) :
  let c := loadFromStorage stored now : CacheService V in
  (forall x, In x (memoryCache c) -> In x stored /\ isExpired now x = false) /\
  well_formed c /\
  (entries c <= List.length stored)%nat.
Proof.
  intros c.
  assert (H : forall l (m : list (CacheItem V)),
            let m' := fold_left
                        (fun m it => if isExpired now it then m else map_set it m) l m in
            (forall x, In x m' -> In x m \/ (In x l /\ isExpired now x = false)) /\
            (List.length m' <= List.length m + List.length l)%nat).
  { induction l as [|a rest IH]; intros m; cbn [fold_left].
    - simpl. split; [auto | lia].
    - specialize (IH (if isExpired now a then m else map_set a m)).
      cbv zeta in IH. destruct IH as (I1 & I2).
      destruct (isExpired now a) eqn:X.
      + split.
        * intros x Hx. destruct (I1 x Hx) as [H|[H1 H2]]; [auto|].
          right. split; [now right | exact H2].
        * simpl. lia.
      + split.
        * intros x Hx. destruct (I1 x Hx) as [H|[H1 H2]].
          -- destruct (map_set_In _ _ _ H) as [->|H']; [|auto].
             right. split; [now left | exact X].
          -- right. split; [now right | exact H2].
        * assert (List.length (map_set a m) <= S (List.length m))%nat.
          { destruct (map_get (key a) m) eqn:G.
            - rewrite (map_set_length_present _ _ _ G). lia.
            - rewrite (map_set_length_absent _ _ G). lia. }
          simpl. lia. }
  specialize (H stored []). cbv zeta in H. destruct H as (H1 & H2).
  split; [|split].
  - intros x Hx. destruct (H1 x Hx) as [[]|H]. exact H.
  - apply loadFromStorage_well_formed.
  - unfold entries. simpl in *. lia.
Qed.

End More.

End MoreCache.

Module MoreCacheWitnesses.
Import Cache CacheSpec CacheFacts MoreCacheSpec MoreCache.

Lemma five_in_turn_sizes : sizes_not_negative five_in_turn.
Proof. vm_compute. repeat constructor; discriminate. Qed.

Lemma five_in_turn_fresh x :
  In x (memoryCache five_in_turn) -> isExpired 10 x = false.
Proof.
  intros H. vm_compute in H.
  repeat (destruct H as [<-|H]; [reflexivity|]). destruct H.
Qed.

(** Removing the third of five entries. *)
Lemma remove_then_lookup_witness :
  well_formed five_in_turn /\
  fst (remove payload_length "k3" five_in_turn) = true /\
  has "k3" 10 (snd (remove payload_length "k3" five_in_turn)) = false.
Proof.
  assert (W : well_formed five_in_turn) by reflexivity.
  split; [exact W|].
  destruct (remove_then_lookup payload_length "k3" five_in_turn W)
    as (_ & P & _ & H & _).
  split; [apply P; discriminate | apply H].
Defined.

(** Five entries that expire at 1001 to 1005, swept at 1003. *)
Lemma cleanup_leaves_no_expired_witness :
  well_formed five_in_turn /\
  fst (cleanup payload_length 1003 five_in_turn) = 2 /\
  (forall x, In x (memoryCache (snd (cleanup payload_length 1003 five_in_turn))) ->
     isExpired 1003 x = false).
Proof.
  assert (W : well_formed five_in_turn) by reflexivity.
  split; [exact W|]. split; [reflexivity|].
  exact (proj1 (cleanup_leaves_no_expired payload_length 1003 five_in_turn W)).
Defined.

Lemma cleanup_of_fresh_cache_witness :
  (forall x, In x (memoryCache five_in_turn) -> isExpired 10 x = false) /\
  cleanup payload_length 10 five_in_turn = (0, five_in_turn).
Proof.
  split; [exact five_in_turn_fresh|].
  exact (cleanup_of_fresh_cache payload_length 10 five_in_turn five_in_turn_fresh).
Defined.

(** The third of five entries written again, with room to spare. *)
Lemma set_replaces_in_place_witness :
  map_get "k3" (memoryCache five_in_turn) = Some (stored_item_of_set "k3" 3) /\
  wouldExceedStorageLimit DEFAULT_CACHE_CONFIG (sized_payload_size 30) five_in_turn
    = false /\
  map key
    (memoryCache
       (snd (set sized_payload_size payload_length DEFAULT_CACHE_CONFIG
               "k3" 30 None 9 five_in_turn)))
  = ["k1"; "k2"; "k3"; "k4"; "k5"]%string.
Proof.
  assert (G : map_get "k3" (memoryCache five_in_turn)
              = Some (stored_item_of_set "k3" 3)) by reflexivity.
  assert (X : wouldExceedStorageLimit DEFAULT_CACHE_CONFIG (sized_payload_size 30)
                five_in_turn = false) by reflexivity.
  assert (F : payload_length
                (map_set (new_item sized_payload_size DEFAULT_CACHE_CONFIG "k3" 30 None 9)
                   (memoryCache five_in_turn)) <= MAX_STORAGE_SIZE)
    by (vm_compute; discriminate).
  split; [exact G|]. split; [exact X|].
  destruct (set_replaces_in_place sized_payload_size payload_length
              DEFAULT_CACHE_CONFIG "k3" 30 None 9 five_in_turn _ G X F)
    as (_ & K & _).
  rewrite K. reflexivity.
Defined.

(** A sixth entry written into a cache that is full. *)
Lemma accepted_set_within_budget_witness :
  sizes_not_negative five_in_turn /\
  0 <= sized_payload_size 20 /\
  fst (set sized_payload_size payload_length small_config "k6" 20 None 6 five_in_turn)
    = true /\
  totalSize
    (stats (snd (set sized_payload_size payload_length small_config
                   "k6" 20 None 6 five_in_turn)))
    <= maxSize small_config.
Proof.
  assert (D : 0 <= sized_payload_size 20) by (vm_compute; discriminate).
  assert (A : fst (set sized_payload_size payload_length small_config
                     "k6" 20 None 6 five_in_turn) = true) by reflexivity.
  split; [exact five_in_turn_sizes|]. split; [exact D|]. split; [exact A|].
  exact (accepted_set_within_budget sized_payload_size payload_length small_config
           "k6" 20 None 6 five_in_turn five_in_turn_sizes D A).
Defined.

(** The second of five entries read at time 10. *)
Lemma hit_refreshes_entry_witness :
  map_get "k2" (memoryCache five_in_turn) = Some (stored_item_of_set "k2" 2) /\
  isExpired 10 (stored_item_of_set "k2" 2) = false /\
  map_get "k2" (memoryCache (snd (get payload_length "k2" 10 five_in_turn)))
  = Some (touched 10 (stored_item_of_set "k2" 2)).
Proof.
  assert (G : map_get "k2" (memoryCache five_in_turn)
              = Some (stored_item_of_set "k2" 2)) by reflexivity.
  assert (X : isExpired 10 (stored_item_of_set "k2" 2) = false) by reflexivity.
  split; [exact G|]. split; [exact X|].
  exact (proj1 (proj2 (hit_refreshes_entry payload_length "k2" 10 five_in_turn _ G X))).
Defined.

End MoreCacheWitnesses.

(* ================================================================== *)
(** ** Text: the hash and the key of a question, the simulated stream *)
(* ================================================================== *)

Module TextFacts.
Import JSText TextSpec.
Local Open Scope string_scope.

(** *** Signed 32-bit integers *)

Lemma toInt32_shift (a k : Z) : toInt32 (a + k * two_pow_32) = toInt32 a.
Proof.
  unfold toInt32, two_pow_32.
  replace (a + k * 2 ^ 32 + 2 ^ 31) with (a + 2 ^ 31 + k * 2 ^ 32) by ring.
  now rewrite Z_mod_plus_full.
Qed.

Lemma toInt32_diff (a : Z) : exists k, toInt32 a = a + k * two_pow_32.
Proof.
  exists (- ((a + 2 ^ 31) / 2 ^ 32)). unfold toInt32, two_pow_32.
  rewrite Z.mod_eq by (vm_compute; discriminate). ring.
Qed.

Lemma toInt32_range (a : Z) : - 2 ^ 31 <= toInt32 a < 2 ^ 31.
Proof.
  unfold toInt32.
  pose proof (Z.mod_pos_bound (a + 2 ^ 31) (2 ^ 32) ltac:(reflexivity)) as B.
  change (2 ^ 32) with (2 * 2 ^ 31) in *. lia.
Qed.

Lemma hash_step_poly (x c : Z) :
  QaCache.hash_step (toInt32 x) c = toInt32 (31 * x + c).
Proof.
  unfold QaCache.hash_step, shiftLeft5.
  destruct (toInt32_diff x) as [k1 E1]. rewrite E1.
  destruct (toInt32_diff (x + k1 * two_pow_32)) as [k2 E2]. rewrite E2.
  destruct (toInt32_diff ((x + k1 * two_pow_32 + k2 * two_pow_32) * 32)) as [k3 E3].
  rewrite E3.
  replace ((x + k1 * two_pow_32 + k2 * two_pow_32) * 32 + k3 * two_pow_32
           - (x + k1 * two_pow_32) + c)
    with (31 * x + c + (31 * k1 + 32 * k2 + k3) * two_pow_32) by ring.
  apply toInt32_shift.
Qed.

Lemma hash_fold_poly (l : list Z) : forall x,
  fold_left QaCache.hash_step l (toInt32 x)
  = toInt32 (fold_left (fun h c => 31 * h + c) l x).
Proof.
  induction l as [|c r IH]; intros x; simpl; [reflexivity|].
  rewrite hash_step_poly. apply IH.
Qed.

(** X13.  The loop of [hashString] computes the polynomial hash of the
    code units at 31, reduced to a signed 32-bit integer; the number whose
    base-36 text becomes the key is between 0 and 2^31. *)
Theorem hashString_is_polynomial (str : string) :
  QaCache.hash_of str = toInt32 (poly31 (charCodes str)) /\
  0 <= Z.abs (QaCache.hash_of str) <= 2 ^ 31.
Proof.
  assert (E : QaCache.hash_of str = toInt32 (poly31 (charCodes str))).
  { unfold QaCache.hash_of, poly31. apply (hash_fold_poly _ 0). }
  split; [exact E|]. rewrite E.
  pose proof (toInt32_range (poly31 (charCodes str))). lia.
Qed.

(** *** The simulated stream *)

Lemma append_assoc (a b c : string) : (a ++ b) ++ c = a ++ (b ++ c).
Proof. induction a as [|x a IH]; simpl; [reflexivity | now rewrite IH]. Qed.

Lemma append_empty (a : string) : a ++ "" = a.
Proof. induction a as [|x a IH]; simpl; [reflexivity | now rewrite IH]. Qed.

Lemma chunks_concat (words : list string) :
  String.concat "" (GeminiLoop.chunks_of words) = String.concat " " words.
Proof.
  induction words as [|w rest IH]; [reflexivity|].
  destruct rest as [|w2 rest]; [reflexivity|].
  change (GeminiLoop.chunks_of (w :: w2 :: rest))
    with ((w ++ " ") :: GeminiLoop.chunks_of (w2 :: rest)).
  change (String.concat " " (w :: w2 :: rest))
    with (w ++ " " ++ String.concat " " (w2 :: rest)).
  rewrite <- IH.
  destruct (GeminiLoop.chunks_of (w2 :: rest)) as [|ch chs] eqn:E.
  - destruct rest; discriminate.
  - cbn [String.concat].
    destruct chs; simpl; now rewrite append_assoc.
Qed.

Lemma split_space_join (s : string) :
  String.concat " " (split_space s) = s.
Proof.
  induction s as [|c r IH]; [reflexivity|]. simpl.
  destruct (Ascii.eqb_spec c " ") as [->|N].
  - destruct (split_space r) as [|w ws] eqn:E.
    + destruct r; simpl in E; [discriminate|].
      destruct (Ascii.eqb a " "); [discriminate|].
      destruct (split_space r); discriminate.
    + change (String.concat " " ("" :: w :: ws))
        with ("" ++ " " ++ String.concat " " (w :: ws)).
      now rewrite IH.
  - destruct (split_space r) as [|w ws] eqn:E.
    + destruct r; simpl in E; [discriminate|].
      destruct (Ascii.eqb a " "); [discriminate|].
      destruct (split_space r); discriminate.
    + destruct ws as [|w2 ws].
      * simpl in *. now rewrite IH.
      * change (String.concat " " (String c w :: w2 :: ws))
          with (String c (w ++ " " ++ String.concat " " (w2 :: ws))).
        change (String.concat " " (w :: w2 :: ws))
          with (w ++ " " ++ String.concat " " (w2 :: ws)) in IH.
        now rewrite IH.
Qed.

Lemma split_space_length (s : string) :
  List.length (split_space s) = S (count_space s).
Proof.
  induction s as [|c r IH]; [reflexivity|]. simpl.
  destruct (Ascii.eqb c " "); simpl; [now rewrite IH|].
  destruct (split_space r) as [|w ws]; simpl in *; [discriminate | exact IH].
Qed.

Lemma chunks_length (words : list string) :
  List.length (GeminiLoop.chunks_of words) = List.length words.
Proof.
  induction words as [|w rest IH]; [reflexivity|].
  destruct rest as [|w2 rest]; [reflexivity|].
  change (GeminiLoop.chunks_of (w :: w2 :: rest))
    with ((w ++ " ") :: GeminiLoop.chunks_of (w2 :: rest)).
  cbn [List.length]. now rewrite IH.
Qed.

(** X11.  The chunks that [simulateStreamResponse] delivers for a cached
    answer, put together in the order of delivery, are the answer; there is
    one chunk more than the answer has spaces. *)
Theorem simulated_stream_is_the_answer (answer : string) :
  String.concat "" (GeminiLoop.simulateStreamResponse answer) = answer /\
  List.length (GeminiLoop.simulateStreamResponse answer) = S (count_space answer).
Proof.
  unfold GeminiLoop.simulateStreamResponse. split.
  - rewrite chunks_concat. apply split_space_join.
  - rewrite chunks_length. apply split_space_length.
Qed.

(** *** The normal form of a question *)

Lemma is_space_lower (c : ascii) : is_space (JS.lower_ascii c) = is_space c.
Proof. destruct c as [[] [] [] [] [] [] [] []]; reflexivity. Qed.

Lemma lower_ascii_idem (c : ascii) :
  JS.lower_ascii (JS.lower_ascii c) = JS.lower_ascii c.
Proof. destruct c as [[] [] [] [] [] [] [] []]; reflexivity. Qed.

Lemma lower_idem (s : string) :
  JS.toLowerCase (JS.toLowerCase s) = JS.toLowerCase s.
Proof.
  induction s as [|c r IH]; [reflexivity|].
  cbn [JS.toLowerCase]. now rewrite lower_ascii_idem, IH.
Qed.

Lemma lower_append (x y : string) :
  JS.toLowerCase (x ++ y) = JS.toLowerCase x ++ JS.toLowerCase y.
Proof.
  induction x as [|c r IH]; [reflexivity|].
  cbn [JS.toLowerCase append]. now rewrite IH.
Qed.

Lemma lower_all_spaces (s : string) :
  all_spaces (JS.toLowerCase s) = all_spaces s.
Proof.
  induction s as [|c r IH]; [reflexivity|].
  cbn [JS.toLowerCase all_spaces]. now rewrite is_space_lower, IH.
Qed.

Lemma lower_trimStart (s : string) :
  JS.toLowerCase (trimStart s) = trimStart (JS.toLowerCase s).
Proof.
  induction s as [|c r IH]; [reflexivity|].
  cbn [JS.toLowerCase trimStart]. rewrite is_space_lower.
  destruct (is_space c); [exact IH | reflexivity].
Qed.

Lemma lower_trimEnd (s : string) :
  JS.toLowerCase (trimEnd s) = trimEnd (JS.toLowerCase s).
Proof.
  induction s as [|c r IH]; [reflexivity|].
  cbn [JS.toLowerCase trimEnd]. rewrite <- IH, is_space_lower.
  destruct (trimEnd r); [destruct (is_space c)|]; reflexivity.
Qed.

Lemma lower_trim (s : string) : JS.toLowerCase (trim s) = trim (JS.toLowerCase s).
Proof. unfold trim. now rewrite lower_trimEnd, lower_trimStart. Qed.

Lemma lower_replace (s : string) : forall b,
  JS.toLowerCase (replace_runs b s) = replace_runs b (JS.toLowerCase s).
Proof.
  induction s as [|c r IH]; intros b; [reflexivity|].
  cbn [JS.toLowerCase replace_runs]. rewrite is_space_lower.
  destruct (is_space c); [destruct b|]; cbn [JS.toLowerCase]; now rewrite ?IH.
Qed.

Lemma trimStart_replace (s : string) : forall b,
  trimStart (replace_runs b s) = replace_runs false (trimStart s).
Proof.
  induction s as [|c r IH]; intros b; [reflexivity|].
  cbn [replace_runs trimStart].
  destruct (is_space c) eqn:E.
  - destruct b; [apply IH|]. cbn [trimStart].
    change (is_space " ") with true. cbv iota. apply IH.
  - cbn [trimStart replace_runs]. now rewrite E.
Qed.

Lemma trimEnd_idem (s : string) : trimEnd (trimEnd s) = trimEnd s.
Proof.
  induction s as [|c r IH]; [reflexivity|].
  cbn [trimEnd]. destruct (trimEnd r) as [|d e] eqn:E.
  - destruct (is_space c) eqn:S; [reflexivity|].
    cbn [trimEnd]. now rewrite S.
  - cbn [trimEnd] in *. now rewrite IH.
Qed.

Lemma replace_empty (x : string) : forall b,
  replace_runs b x = "" -> trimEnd x = "".
Proof.
  induction x as [|c r IH]; intros b H; [reflexivity|].
  cbn [replace_runs] in H. cbn [trimEnd].
  destruct (is_space c); [|discriminate].
  destruct b; [|discriminate]. now rewrite (IH _ H).
Qed.

Lemma replace_trimEnd_nonempty (r : string) (b : bool) d e :
  trimEnd r = String d e -> exists d' e', replace_runs b (String d e) = String d' e'.
Proof.
  intros E. destruct (replace_runs b (String d e)) as [|d' e'] eqn:R.
  - apply replace_empty in R. rewrite <- E, trimEnd_idem, E in R. discriminate.
  - eauto.
Qed.

Lemma trimEnd_replace (s : string) : forall b,
  trimEnd (replace_runs b s) = replace_runs b (trimEnd s).
Proof.
  induction s as [|c r IH]; intros b; [reflexivity|].
  cbn [replace_runs trimEnd].
  destruct (trimEnd r) as [|d e] eqn:E.
  - destruct (is_space c) eqn:S.
    + destruct b; [now rewrite IH|].
      cbn [trimEnd]. rewrite IH. reflexivity.
    + cbn [trimEnd replace_runs]. rewrite IH, S. reflexivity.
  - destruct (is_space c) eqn:S.
    + destruct b.
      * rewrite IH. cbn [replace_runs]. now rewrite S.
      * cbn [trimEnd]. rewrite IH.
        destruct (replace_trimEnd_nonempty r true d e E) as (d' & e' & R).
        cbn [replace_runs] in *. rewrite S. now rewrite R.
    + cbn [trimEnd]. rewrite IH.
      destruct (replace_trimEnd_nonempty r false d e E) as (d' & e' & R).
      cbn [replace_runs] in *. rewrite S. now rewrite R.
Qed.

Lemma trim_collapse (s : string) :
  trim (collapse_spaces s) = collapse_spaces (trim s).
Proof.
  unfold trim, collapse_spaces. now rewrite trimStart_replace, trimEnd_replace.
Qed.

Lemma trimStart_trimEnd (s : string) : trimStart (trimEnd s) = trimEnd (trimStart s).
Proof.
  induction s as [|c r IH]; [reflexivity|].
  cbn [trimStart trimEnd].
  destruct (is_space c) eqn:S.
  - rewrite <- IH. destruct (trimEnd r); [reflexivity|].
    cbn [trimStart]. now rewrite S.
  - cbn [trimEnd]. destruct (trimEnd r); cbn [trimStart]; now rewrite S.
Qed.

Lemma trimStart_idem (s : string) : trimStart (trimStart s) = trimStart s.
Proof.
  induction s as [|c r IH]; [reflexivity|].
  cbn [trimStart]. destruct (is_space c) eqn:S; [exact IH|].
  cbn [trimStart]. now rewrite S.
Qed.

Lemma trim_idem (s : string) : trim (trim s) = trim s.
Proof.
  unfold trim. now rewrite trimStart_trimEnd, trimStart_idem, trimEnd_idem.
Qed.

Lemma replace_idem (s : string) : forall b,
  replace_runs b (replace_runs b s) = replace_runs b s.
Proof.
  induction s as [|c r IH]; intros b; [reflexivity|].
  cbn [replace_runs]. destruct (is_space c) eqn:S.
  - destruct b; [apply IH|]. cbn [replace_runs].
    change (is_space " ") with true. cbv iota. now rewrite IH.
  - cbn [replace_runs]. now rewrite S, IH.
Qed.

Lemma trimStart_pad (pad s : string) :
  all_spaces pad = true -> trimStart (pad ++ s) = trimStart s.
Proof.
  induction pad as [|c r IH]; intros H; [reflexivity|].
  cbn [all_spaces] in H. apply andb_prop in H as [S H].
  cbn [append trimStart]. rewrite S. now apply IH.
Qed.

Lemma trimEnd_spaces (pad : string) : all_spaces pad = true -> trimEnd pad = "".
Proof.
  induction pad as [|c r IH]; intros H; [reflexivity|].
  cbn [all_spaces] in H. apply andb_prop in H as [S H].
  cbn [trimEnd]. now rewrite (IH H), S.
Qed.

Lemma trimEnd_pad (s pad : string) :
  all_spaces pad = true -> trimEnd (s ++ pad) = trimEnd s.
Proof.
  intros H. induction s as [|c r IH].
  - now apply trimEnd_spaces.
  - cbn [append trimEnd]. now rewrite IH.
Qed.

Lemma trim_pad (pad1 s pad2 : string) :
  all_spaces pad1 = true -> all_spaces pad2 = true ->
  trim (pad1 ++ s ++ pad2) = trim s.
Proof.
  intros H1 H2. unfold trim.
  rewrite <- !trimStart_trimEnd, <- append_assoc, trimEnd_pad by assumption.
  now rewrite !trimStart_trimEnd, trimStart_pad.
Qed.

Lemma replace_spaces (run b : string) :
  all_spaces run = true -> replace_runs true (run ++ b) = replace_runs true b.
Proof.
  induction run as [|c r IH]; intros H; [reflexivity|].
  cbn [all_spaces] in H. apply andb_prop in H as [S H].
  cbn [append replace_runs]. rewrite S. now apply IH.
Qed.

Lemma replace_run_any (a run b : string) : forall f,
  all_spaces run = true -> run <> "" ->
  replace_runs f (a ++ run ++ b) = replace_runs f (a ++ " " ++ b).
Proof.
  induction a as [|c r IH]; intros f H N.
  - destruct run as [|c r]; [congruence|].
    cbn [all_spaces] in H. apply andb_prop in H as [S H].
    cbn [append replace_runs]. rewrite S. change (is_space " ") with true.
    cbv iota. now rewrite replace_spaces.
  - cbn [append replace_runs].
    destruct (is_space c); [destruct f|]; now rewrite IH.
Qed.

Lemma normalized_alt (s : string) :
  QaCache.normalized s = trim (collapse_spaces (JS.toLowerCase s)).
Proof. unfold QaCache.normalized. now rewrite lower_trim, trim_collapse. Qed.

Lemma normalized_idem (s : string) :
  QaCache.normalized (QaCache.normalized s) = QaCache.normalized s.
Proof.
  rewrite (normalized_alt (QaCache.normalized s)). unfold QaCache.normalized.
  unfold collapse_spaces.
  rewrite lower_replace, lower_idem, replace_idem.
  fold (collapse_spaces (JS.toLowerCase (trim s))).
  rewrite trim_collapse, lower_trim, trim_idem. reflexivity.
Qed.

Lemma normalized_key (q q' : string) :
  QaCache.normalized q' = QaCache.normalized q ->
  QaCache.generateQuestionKey q' = QaCache.generateQuestionKey q.
Proof. unfold QaCache.generateQuestionKey. now intros ->. Qed.

(** X14.  For a question of ASCII characters, whitespace before and after
    it and the case of its letters make no difference to the key that
    [generateQuestionKey] gives, and the normal form of the question has
    the key of the question. *)
Theorem question_key_ignores_case_and_padding (q pad1 pad2 : string) :
  ascii_only q = true -> all_spaces pad1 = true -> all_spaces pad2 = true ->
  QaCache.generateQuestionKey (pad1 ++ q ++ pad2) = QaCache.generateQuestionKey q /\
  QaCache.generateQuestionKey (JS.toLowerCase q) = QaCache.generateQuestionKey q /\
  QaCache.generateQuestionKey (QaCache.normalized q) = QaCache.generateQuestionKey q.
Proof.
  intros _ H1 H2. repeat split; apply normalized_key.
  - unfold QaCache.normalized. now rewrite trim_pad.
  - unfold QaCache.normalized. now rewrite <- lower_trim, lower_idem.
  - apply normalized_idem.
Qed.

(** X15.  Between two parts of ASCII characters, one run of whitespace is
    as good as another: the key does not depend on how long the run is or
    which whitespace characters it is made of. *)
Theorem question_key_ignores_run_length (a b run1 run2 : string) :
  ascii_only a = true -> ascii_only b = true ->
  all_spaces run1 = true -> run1 <> "" ->
  all_spaces run2 = true -> run2 <> "" ->
  QaCache.generateQuestionKey (a ++ run1 ++ b)
  = QaCache.generateQuestionKey (a ++ run2 ++ b).
Proof.
  intros _ _ H1 N1 H2 N2. apply normalized_key.
  rewrite !normalized_alt, !lower_append. unfold collapse_spaces.
  rewrite (replace_run_any _ (JS.toLowerCase run1)),
          (replace_run_any _ (JS.toLowerCase run2)); trivial;
    try (now rewrite lower_all_spaces);
    intros E; [destruct run2 | destruct run1]; (congruence || discriminate).
Qed.

(** *** The text of the hash *)

Lemma digit36_value (d : Z) : 0 <= d < 36 -> digit_value (digit36 d) = d.
Proof.
  intros H.
  assert (E : d = Z.of_nat (Z.to_nat d)) by lia.
  assert (B : (Z.to_nat d < 36)%nat) by lia.
  rewrite E. generalize dependent (Z.to_nat d). intros k _ B.
  do 36 (destruct k as [|k]; [reflexivity|]). lia.
Qed.

Lemma digits36_value (fuel : nat) : forall n acc,
  0 <= n < 36 ^ Z.of_nat fuel ->
  value36 (digits36 fuel n acc) 0 = value36 acc n.
Proof.
  induction fuel as [|f IH]; intros n acc H.
  - simpl in *. now replace n with 0 by lia.
  - cbn [digits36]. cbv zeta.
    assert (M : 0 <= n mod 36 < 36) by (apply Z.mod_pos_bound; lia).
    destruct (Z.ltb_spec n 36) as [L|L].
    + cbn [value36]. rewrite digit36_value by exact M.
      rewrite Z.mod_small by lia. reflexivity.
    + rewrite IH.
      * cbn [value36]. rewrite digit36_value by exact M.
        f_equal. pose proof (Z.div_mod n 36). lia.
      * rewrite Nat2Z.inj_succ, Z.pow_succ_r in H by lia.
        split; [apply Z.div_pos; lia|].
        apply Z.div_lt_upper_bound; lia.
Qed.

Lemma toString36_parse (n : Z) : 0 <= n -> parse36 (toString36 n) = n.
Proof.
  intros H. unfold parse36, toString36. rewrite digits36_value; [reflexivity|].
  split; [exact H|].
  destruct (Z.eq_dec n 0) as [->|N]; [reflexivity|].
  rewrite Nat2Z.inj_succ, Z2Nat.id by apply Z.log2_nonneg.
  apply Z.lt_le_trans with (2 ^ Z.succ (Z.log2 n)).
  - apply Z.log2_spec. lia.
  - apply Z.pow_le_mono_l. pose proof (Z.log2_nonneg n). lia.
Qed.

(** X28.  The text that [hashString] returns for a string stands, read in
    base 36, for the absolute value of the hash; so two questions have the
    same key exactly when the hashes of their normal forms are equal or
    opposite. *)
Theorem question_key_is_the_hash (q q' : string) :
  parse36 (QaCache.hashString q) = Z.abs (QaCache.hash_of q) /\
  (QaCache.generateQuestionKey q = QaCache.generateQuestionKey q' <->
   Z.abs (QaCache.hash_of (QaCache.normalized q))
   = Z.abs (QaCache.hash_of (QaCache.normalized q'))).
Proof.
  assert (P : forall s, parse36 (QaCache.hashString s) = Z.abs (QaCache.hash_of s)).
  { intros s. unfold QaCache.hashString. apply toString36_parse, Z.abs_nonneg. }
  split; [apply P|]. unfold QaCache.generateQuestionKey. split.
  - intros E. injection E as E. rewrite <- !P. now rewrite E.
  - intros E. unfold QaCache.hashString. now rewrite E.
Qed.

Lemma question_key_ignores_case_and_padding_witness :
  QaCache.generateQuestionKey ("  " ++ "What is Rocq?" ++ " ")
    = QaCache.generateQuestionKey "What is Rocq?" /\
  QaCache.generateQuestionKey (JS.toLowerCase "What is Rocq?")
    = QaCache.generateQuestionKey "What is Rocq?" /\
  QaCache.generateQuestionKey (QaCache.normalized "What is Rocq?")
    = QaCache.generateQuestionKey "What is Rocq?".
Proof.
  apply (question_key_ignores_case_and_padding "What is Rocq?" "  " " ");
    reflexivity.
Defined.

Lemma question_key_ignores_run_length_witness :
  QaCache.generateQuestionKey ("What" ++ "   " ++ "is Rocq?")
  = QaCache.generateQuestionKey ("What" ++ " " ++ "is Rocq?").
Proof.
  apply (question_key_ignores_run_length "What" "is Rocq?" "   " " ");
    try reflexivity; discriminate.
Defined.

End TextFacts.

(* ================================================================== *)
(** ** The cache of questions and answers *)
(* ================================================================== *)

Module QaFacts.
Import Cache CacheSpec CacheFacts QaCache QaSpec.
Local Open Scope string_scope.
Local Open Scope Z_scope.

Section Qa.
Variable calculateSize : Pair -> Z.
Variable jsonLength : list (CacheItem Pair) -> Z.
Variable config : CacheConfig.

Lemma set_insert_stored (item : CacheItem Pair) (c : CacheService Pair) :
  map_get (key item) (memoryCache (set_insert item c)) = Some item.
Proof.
  unfold set_insert.
  destruct (map_get (key item) (memoryCache c)); simpl; apply map_get_set_same.
Qed.

(** X16.  After [setAnswer(q, a)] has returned [true] with a snapshot that
    fits the storage cap, [getAnswer(q')] returns [a] until the entry
    expires, for every question [q'] that has the key of [q]: the question
    that is stored with the answer is not compared.  After the expiry it
    returns [null]. *)
Theorem answer_for_same_key (q q' a : string) (ttl : option Z) (now : Z)
    (c : CacheService Pair) :
  let d := {| question := q; answer := a |} in
  let item := new_item calculateSize config (generateQuestionKey q) d ttl now in
  let room := set_room jsonLength config (calculateSize d) c in
  let c' := snd (setAnswer calculateSize jsonLength config q a ttl now c) in
  generateQuestionKey q' = generateQuestionKey q ->
  fst (setAnswer calculateSize jsonLength config q a ttl now c) = true ->
  jsonLength (memoryCache (set_insert item (snd room))) <= MAX_STORAGE_SIZE ->
  forall t,
    fst (getAnswer jsonLength q' t c')
    = if t <=? now + JS.or_default ttl (defaultTTL config) then Some a else None.
Proof.
  intros d item room c' K A F t.
  assert (E : c' = set_insert item (snd room)).
  { unfold c', setAnswer, set in *. fold d room in A |- *. fold item.
    destruct room as [[|] c1]; simpl in *; [|discriminate].
    now rewrite saveToStorage_fits. }
  unfold getAnswer, get. rewrite K, E.
  change (generateQuestionKey q) with (key item).
  rewrite set_insert_stored. unfold isExpired.
  change (expiresAt item) with (now + JS.or_default ttl (defaultTTL config)).
  destruct (Z.ltb_spec (now + JS.or_default ttl (defaultTTL config)) t);
    destruct (Z.leb_spec t (now + JS.or_default ttl (defaultTTL config)));
    try lia; reflexivity.
Qed.

End Qa.

(** Two questions with one key: the answer to the first is the answer to
    the second. *)
Lemma answer_for_same_key_witness :
  generateQuestionKey "b_" = generateQuestionKey "a~" /\
  fst (getAnswer pairs_length "b_" 1000
         (snd (setAnswer pair_size pairs_length DEFAULT_CACHE_CONFIG
                 "a~" "42" None 0 no_answers)))
  = Some "42".
Proof.
  split; [reflexivity|].
  exact (answer_for_same_key pair_size pairs_length DEFAULT_CACHE_CONFIG
           "a~" "b_" "42" None 0 no_answers eq_refl eq_refl
           ltac:(vm_compute; discriminate) 1000).
Defined.

End QaFacts.

(* ================================================================== *)
(** ** The retries and the error classes of the two services *)
(* ================================================================== *)

Module ServiceFacts.
Import Api GeminiLoop MoreSpec.
Local Open Scope Z_scope.

Lemma attempts_spec (maxRetries : Z) (send : nat -> ApiError + string) :
  forall (left attempt : nat) (lastError : option ApiError) (sleeps : list Z),
    left <> O ->
    Z.of_nat attempt + Z.of_nat left = maxRetries + 1 ->
    exists k,
      (attempt <= k)%nat /\
      Z.of_nat k <= maxRetries /\
      calls (attempts maxRetries send left attempt lastError sleeps) = S k /\
      (forall j, (attempt <= j < k)%nat -> stops send j = false) /\
      (stops send k = true \/ Z.of_nat k = maxRetries) /\
      slept (attempts maxRetries send left attempt lastError sleeps)
        = sleeps ++ map (delay_after send) (seq attempt (k - attempt)) /\
      outcome (attempts maxRetries send left attempt lastError sleeps)
        = ending send k.
Proof.
  induction left as [|left' IH]; intros attempt lastError sleeps N E; [congruence|].
  cbn [attempts].
  assert (Here : forall r : Run,
            calls r = S attempt -> slept r = sleeps -> outcome r = ending send attempt ->
            (stops send attempt = true \/ Z.of_nat attempt = maxRetries) ->
            exists k,
              (attempt <= k)%nat /\ Z.of_nat k <= maxRetries /\ calls r = S k /\
              (forall j, (attempt <= j < k)%nat -> stops send j = false) /\
              (stops send k = true \/ Z.of_nat k = maxRetries) /\
              slept r = sleeps ++ map (delay_after send) (seq attempt (k - attempt)) /\
              outcome r = ending send k).
  { intros r C S O H. exists attempt. repeat split; try assumption; try lia.
    rewrite Nat.sub_diag. simpl. now rewrite app_nil_r. }
  unfold stops, ending in *.
  destruct (send attempt) as [error|response] eqn:Se.
  - destruct (Queue.is_true (retryable (GeminiService.createApiError error))) eqn:Rt;
      cbn [negb].
    + destruct (Z.eqb_spec (Z.of_nat attempt) maxRetries) as [M|M].
      * apply Here; try reflexivity. now right.
      * destruct (IH (Datatypes.S attempt)
                    (Some (GeminiService.createApiError error))
                    (sleeps ++ [GeminiService.calculateRetryDelay (Z.of_nat attempt)
                                  (retryAfter (GeminiService.createApiError error))]))
          as (k & K1 & K2 & K3 & K4 & K5 & K6 & K7); [lia | lia |].
        exists k. repeat split; try assumption; try lia.
        -- intros j Hj. destruct (Nat.eq_dec j attempt) as [->|D].
           ++ now rewrite Se, Rt.
           ++ apply K4. lia.
        -- rewrite K6, <- app_assoc. f_equal.
           replace (k - attempt)%nat with (Datatypes.S (k - Datatypes.S attempt)) by lia.
           cbn [seq map app]. unfold delay_after at 2. now rewrite Se.
    + apply Here; try reflexivity. now left.
  - apply Here; try reflexivity. now left.
Qed.

(** X17.  With a number of retries that is not negative,
    [processMessageWithRetry] makes its calls one after the other and ends
    with the first call that answers or fails with an error that is not
    retryable, and with call number [maxRetries] at the latest.  It has
    slept once after each call before that one, for the delay that
    [calculateRetryDelay] gives; it returns the answer of the last call or
    throws its classified error, never the [Unknown error occurred] of the
    last line. *)
Theorem retry_loop_ends_at_first_final_call (maxRetries : Z)
    (send : nat -> ApiError + string) :
  0 <= maxRetries ->
  let r := processMessageWithRetry_for maxRetries send in
  exists k,
    calls r = S k /\
    Z.of_nat k <= maxRetries /\
    (forall j, (j < k)%nat -> stops send j = false) /\
    (stops send k = true \/ Z.of_nat k = maxRetries) /\
    slept r = map (delay_after send) (seq 0 k) /\
    outcome r = ending send k.
Proof.
  intros M r. unfold r, processMessageWithRetry_for.
  destruct (attempts_spec maxRetries send (Z.to_nat (maxRetries + 1)) 0 None [])
    as (k & _ & K2 & K3 & K4 & K5 & K6 & K7); [lia | lia |].
  exists k. rewrite Nat.sub_0_r in K6. repeat split; try assumption.
  intros j Hj. apply K4. lia.
Qed.

(** X18.  The delay before a retry of the Gemini service: after an error
    classified as a rate limit it is 5000 ms at every attempt, the
    exponential back-off does not apply; after another retryable error that
    carries no delay of its own it is 5000 ms doubled at each attempt and
    capped at 30000 ms. *)
Theorem gemini_retry_delay (e : ApiError) (attempt : Z) :
  0 <= attempt ->
  let a := GeminiService.createApiError e in
  let delay := GeminiService.calculateRetryDelay attempt (retryAfter a) in
  (type a = Some RATE_LIMIT_EXCEEDED -> delay = 5000) /\
  (type a <> Some RATE_LIMIT_EXCEEDED -> retryAfter e = None ->
     delay = Z.min (5000 * 2 ^ attempt) 30000 /\ 5000 <= delay <= 30000 /\
     (3 <= attempt -> delay = 30000)).
Proof.
  intros A a delay. unfold delay, a, GeminiService.createApiError.
  assert (P : 1 <= 2 ^ attempt) by (apply Z.pow_le_mono_r with (b := 0); lia).
  assert (P3 : 3 <= attempt -> 8 <= 2 ^ attempt).
  { intros H. change 8 with (2 ^ 3). apply Z.pow_le_mono_r; lia. }
  destruct (JS.includes (message e) "429" || JS.includes (message e) "RESOURCE_EXHAUSTED")%bool.
  { split; [reflexivity | intros N; now destruct N]. }
  assert (G : retryAfter e = None ->
              GeminiService.calculateRetryDelay attempt (retryAfter e)
                = Z.min (5000 * 2 ^ attempt) 30000 /\
              5000 <= GeminiService.calculateRetryDelay attempt (retryAfter e) <= 30000 /\
              (3 <= attempt ->
               GeminiService.calculateRetryDelay attempt (retryAfter e) = 30000)).
  { intros ->. unfold GeminiService.calculateRetryDelay, RETRY_DELAY_MS. simpl JS.truthy.
    cbv iota. repeat split; lia. }
  destruct (JS.includes (message e) "network" || JS.includes (message e) "fetch")%bool;
    [|destruct (JS.includes (message e) "timeout")];
    (split; [discriminate | intros _; exact G]).
Qed.

Lemma gemini_retry_delay_witness :
  0 <= 1 /\
  GeminiService.calculateRetryDelay 1
    (retryAfter (GeminiService.createApiError QueueSpec.network_down)) = 10000 /\
  GeminiService.calculateRetryDelay 1
    (retryAfter (GeminiService.createApiError QueueSpec.too_many_requests)) = 5000.
Proof.
  assert (A : 0 <= 1) by (vm_compute; discriminate).
  assert (N : type (GeminiService.createApiError QueueSpec.network_down)
              <> Some RATE_LIMIT_EXCEEDED) by (vm_compute; discriminate).
  split; [exact A|]. split.
  - exact (proj1 (proj2 (gemini_retry_delay QueueSpec.network_down 1 A) N eq_refl)).
  - exact (proj1 (gemini_retry_delay QueueSpec.too_many_requests 1 A) eq_refl).
Defined.

Lemma retry_loop_ends_at_first_final_call_witness :
  exists k,
    calls (processMessageWithRetry (answers_at 2 QueueSpec.network_down "text")) = S k /\
    Z.of_nat k <= MAX_RETRIES /\
    (forall j, (j < k)%nat ->
       stops (answers_at 2 QueueSpec.network_down "text") j = false) /\
    (stops (answers_at 2 QueueSpec.network_down "text") k = true
     \/ Z.of_nat k = MAX_RETRIES) /\
    slept (processMessageWithRetry (answers_at 2 QueueSpec.network_down "text"))
      = map (delay_after (answers_at 2 QueueSpec.network_down "text")) (seq 0 k) /\
    outcome (processMessageWithRetry (answers_at 2 QueueSpec.network_down "text"))
      = ending (answers_at 2 QueueSpec.network_down "text") k.
Proof.
  exact (retry_loop_ends_at_first_final_call MAX_RETRIES
           (answers_at 2 QueueSpec.network_down "text")
           ltac:(vm_compute; discriminate)).
Defined.

(** X19.  The status that the Gemini service reports for an error it has
    classified is [ERROR] exactly when the error is not retryable, and
    otherwise [RATE_LIMITED] or [RETRYING]; the classification keeps the
    message and knows four types only. *)
Theorem gemini_status_follows_retryable (e : ApiError) :
  let a := GeminiService.createApiError e in
  (getResponseStatusFromError a = Response.ERROR <-> retryable a = Some false) /\
  (getResponseStatusFromError a <> Response.ERROR <-> retryable a = Some true) /\
  getResponseStatusFromError a <> Response.SUCCESS /\
  getResponseStatusFromError a <> Response.CACHED /\
  message a = message e /\
  type a <> Some INVALID_REQUEST /\ type a <> Some SERVER_ERROR /\ type a <> None.
Proof.
  cbv zeta. unfold GeminiService.createApiError, getResponseStatusFromError.
  destruct (JS.includes (message e) "429" || JS.includes (message e) "RESOURCE_EXHAUSTED")%bool;
    [|destruct (JS.includes (message e) "network" || JS.includes (message e) "fetch")%bool;
      [|destruct (JS.includes (message e) "timeout")]];
    cbn; repeat split; intros; try congruence; try discriminate.
Qed.

(** X20.  The Ollama service decides the type of an error and whether it
    is retryable by two lists of words that differ: an error of type
    [TIMEOUT] or [SERVER_ERROR] is retryable and one of type [UNKNOWN] is
    not, but an error of type [RATE_LIMIT_EXCEEDED] or [NETWORK_ERROR] need
    not be retryable, its status being [RATE_LIMITED] or [RETRYING], and
    one of type [INVALID_REQUEST] may be. *)
Theorem ollama_type_and_retryable :
  (forall e,
     let a := OllamaService.createApiError e in
     (type a = Some TIMEOUT \/ type a = Some SERVER_ERROR -> retryable a = Some true) /\
     (type a = Some UNKNOWN ->
        retryable a = Some false /\
        OllamaStatus.getResponseStatusFromError a = Response.ERROR)) /\
  (let a := OllamaService.createApiError QueueSpec.too_many_requests in
   type a = Some RATE_LIMIT_EXCEEDED /\ retryable a = Some false /\
   OllamaStatus.getResponseStatusFromError a = Response.RATE_LIMITED) /\
  (let a := OllamaService.createApiError (Error "Failed to fetch") in
   type a = Some NETWORK_ERROR /\ retryable a = Some false /\
   OllamaStatus.getResponseStatusFromError a = Response.RETRYING) /\
  (let a := OllamaService.createApiError (Error "400 from server") in
   type a = Some INVALID_REQUEST /\ retryable a = Some true /\
   OllamaStatus.getResponseStatusFromError a = Response.ERROR).
Proof.
  split; [|repeat split].
  intros e a. unfold a, OllamaService.createApiError, OllamaService.getErrorType,
    OllamaService.isRetryableError, OllamaStatus.getResponseStatusFromError.
  cbn [type retryable].
  set (m := JS.toLowerCase (message e)).
  destruct (JS.includes m "rate limit"), (JS.includes m "429"),
    (JS.includes m "network"), (JS.includes m "fetch"), (JS.includes m "timeout"),
    (JS.includes m "400"), (JS.includes m "invalid"),
    (JS.includes m "500"), (JS.includes m "server");
    cbn; (split; [intros [H|H] | intros H]); try discriminate; try reflexivity;
    try (split; reflexivity).
Qed.

End ServiceFacts.

(* ================================================================== *)
(** ** The queue in use *)
(* ================================================================== *)

Module MoreQueue.
Import Api Queue QueueSpec QueueFacts MoreSpec.

Section More.
Context {T R : Type}.
Implicit Types (q : RequestQueue T R) (item x y : QueueItem T R) (i : nat).

Lemma processRequest_stats i t1 t2 q item :
  processing q = [] ->
  nth_error (queue q) i = Some item ->
  stats (processRequest i t1 t2 q) = stats (updateStats (completed t1 t2 item) q).
Proof.
  intros P N. unfold processRequest, processRequest_with. rewrite N, P. simpl.
  unfold processRequest_started. rewrite N, P.
  unfold processRequest_try. simpl.
  rewrite (nth_error_set_item_same _ _ _ _ N). reflexivity.
Qed.

Lemma delays_emit (e : Emitted T R) q :
  (forall k c d, e <> requestRetrying k c d) ->
  scheduled_delays (emit e q) = scheduled_delays q.
Proof.
  intros H. unfold scheduled_delays, emit. simpl. rewrite flat_map_app. simpl.
  destruct e; try (now rewrite app_nil_r). now destruct (H i count delay).
Qed.

Lemma turn_calm t1 t2 q :
  idle q -> calm q -> calm (startProcessing_turn t1 t2 q).
Proof.
  intros [P F] (N & S1 & S2 & D).
  unfold startProcessing_turn. destruct (admits q) as [i|] eqn:A;
    [|repeat split; assumption].
  destruct (admits_pending _ _ A) as (_ & _ & item & Ni & St).
  destruct (processRequest_idle i t1 t2 q item P Ni) as (Q & _ & E & _).
  pose proof (processRequest_stats i t1 t2 q item P Ni) as Es.
  assert (Hi : never_failed item).
  { rewrite Forall_forall in N. apply N. eapply nth_error_In, Ni. }
  destruct Hi as (_ & Hr & He & Hc).
  split; [|split; [|split]].
  - rewrite Q. apply set_item_Forall; [|exact N].
    repeat split; simpl; auto.
  - rewrite Es. unfold updateStats. simpl. exact S1.
  - rewrite Es. unfold updateStats. simpl. rewrite Hc. simpl. exact S2.
  - unfold scheduled_delays in *. rewrite E, flat_map_app, D. reflexivity.
Qed.

Lemma apply_calm q (o : Op T R) : idle q -> calm q -> calm (apply q o).
Proof.
  intros I C. pose proof I as [P F]. pose proof C as (N & S1 & S2 & D).
  destruct o; simpl.
  - split; [|split; [exact S1 | split; [exact S2|]]].
    + simpl. rewrite Forall_forall in *. intros z Hz.
      apply (Permutation_in _ (JSFacts.sort_perm compare_items _)) in Hz.
      apply in_app_or in Hz. destruct Hz as [Hz|[<-|[]]]; [auto|].
      repeat split. now left.
    + unfold addRequest. rewrite delays_emit by discriminate. exact D.
  - now apply turn_calm.
  - destruct (cancelRequest_cases k now q) as [E|(i & item & _ & Ni & _ & E)];
      rewrite E; simpl; [repeat split; assumption|].
    assert (Hi : never_failed item).
    { rewrite Forall_forall in N. apply N. eapply nth_error_In, Ni. }
    destruct Hi as (_ & Hr & He & Hc).
    split; [|split; [exact S1 | split; [exact S2|]]].
    + simpl. apply set_item_Forall; [|exact N]. repeat split; simpl; auto.
    + rewrite delays_emit by discriminate. exact D.
  - split; [constructor|]. split; [reflexivity|]. split; [reflexivity|].
    unfold clear. rewrite delays_emit by discriminate. exact D.
  - exact C.
  - unfold start. destruct (isProcessing q); [exact C|].
    apply turn_calm; [exact I | exact C].
Qed.

Lemma run_calm (ops : list (Op T R)) : forall q,
  idle q -> calm q -> calm (run ops q).
Proof.
  unfold run. induction ops as [|o r IH]; intros q I C; simpl; [exact C|].
  apply IH; [now apply apply_idle | now apply apply_calm].
Qed.

(** X21.  In a queue that was constructed and then used in any way,
    nothing has ever failed: every item is pending, completed or cancelled,
    with no result, no error and no retry; the counters of failures and
    retries are 0 and no retry was ever scheduled; [getStatus] reports
    neither failed nor retrying nor processing items; and no run of
    [checkCompletion] resolves the promise of [addRequest] with a value or
    rejects it with an error of the request. *)
Theorem used_queue_has_no_failures (maxc : Z) (policy : RetryPolicy)
    (ops : list (Op T R)) :
  let q := run ops (new maxc policy) in
  Forall never_failed (queue q) /\
  totalFailed (stats q) = 0 /\ totalRetries (stats q) = 0 /\
  scheduled_delays q = [] /\
  failedCount (getStatus q) = 0 /\ retryingCount (getStatus q) = 0 /\
  processingCount (getStatus q) = 0 /\
  (forall k,
     match checkCompletion k q with
     | Resolved (Some _) | RejectedWith _ => False
     | _ => True
     end).
Proof.
  intros q.
  destruct (used_queue maxc policy ops) as ((P & F) & _ & _). fold q in P, F.
  assert (C : calm q).
  { apply run_calm; [apply new_idle|]. repeat split. constructor. }
  destruct C as (N & S1 & S2 & D).
  assert (Z : forall s, s <> PENDING -> s <> COMPLETED -> s <> CANCELLED ->
              count_status s q = 0).
  { intros s H1 H2 H3. unfold count_status. rewrite count_none; [reflexivity|].
    eapply Forall_impl; [|exact N]. intros a ([H|[H|H]] & _); congruence. }
  repeat split; try assumption.
  - apply Z; discriminate.
  - apply Z; discriminate.
  - simpl. now rewrite P.
  - intros k. unfold checkCompletion.
    destruct (find (fun it => String.eqb (id it) k) (queue q)) as [item|] eqn:Fi;
      [|exact I].
    apply find_some in Fi as [Hi _].
    rewrite Forall_forall in N. destruct (N _ Hi) as ([H|[H|H]] & Hr & _);
      rewrite H; try exact I. now rewrite Hr.
Qed.

(** X22.  [clear] forgets everything but the ceiling and the running
    state: [getStatus] reports an empty queue and the turns of the loop
    that follow change nothing.  The promise of a request that was waiting
    is rejected at its next event: as not found when that is a run of
    [checkCompletion], as timed out when the timer of its timeout fires
    first, whose [cancelRequest] finds nothing to cancel. *)
Theorem clear_forgets_everything q :
  getStatus (clear q) = nothing_queued /\
  stats (clear q) = emptyStats /\
  isProcessing (clear q) = isProcessing q /\
  maxConcurrentRequests (clear q) = maxConcurrentRequests q /\
  (forall k p, settled p = StillWaiting ->
     check k p (clear q) = {| timer := false; settled := RejectedNotFound |}) /\
  (forall k now p, settled p = StillWaiting -> timer p = true ->
     timeoutTimer k now p (clear q)
     = ({| timer := false; settled := RejectedTimedOut |}, clear q)) /\
  (forall k now, cancelRequest k now (clear q) = (false, clear q)) /\
  (forall t1 t2, startProcessing_turn t1 t2 (clear q) = clear q).
Proof.
  split; [reflexivity|]. split; [reflexivity|]. split; [reflexivity|].
  split; [reflexivity|]. split; [|split; [|split; [reflexivity|]]].
  - intros k p W. unfold check. rewrite W. simpl. now rewrite andb_false_r.
  - intros k now p W Tm. unfold timeoutTimer. now rewrite Tm, W.
  - intros t1 t2. unfold startProcessing_turn, admits, getNextPendingItem. simpl.
    destruct (isProcessing q); [|reflexivity].
    now destruct (0 <? maxConcurrentRequests q - 0).
Qed.

Lemma apply_stopped q (o : Op T R) :
  keeps_stopped o = true -> isProcessing q = false ->
  isProcessing (apply q o) = false /\
  admission_order (apply q o) = admission_order q.
Proof.
  intros K S. unfold admission_order.
  destruct o; simpl in *; try discriminate.
  - split; [exact S|]. rewrite flat_map_app. simpl. now rewrite app_nil_r.
  - unfold startProcessing_turn, admits. rewrite S. now split.
  - destruct (cancelRequest_cases k now q) as [E|(i & item & _ & _ & _ & E)];
      rewrite E; simpl; [now split|].
    split; [exact S|]. rewrite flat_map_app. simpl. now rewrite app_nil_r.
  - split; [exact S|]. rewrite flat_map_app. simpl. now rewrite app_nil_r.
  - now split.
Qed.

(** X23.  After [stop], and until [start] is called, no request is
    started, whatever is added, cancelled or cleared and however many turns
    the loop would take.  [start] on a stopped queue takes a turn of the
    loop at once: after [stop] and [start] a queue that was running is as
    after one turn. *)
Theorem stopped_queue_starts_nothing q (ops : list (Op T R)) :
  forallb keeps_stopped ops = true ->
  isProcessing (run ops (stop q)) = false /\
  admission_order (run ops (stop q)) = admission_order q /\
  admits (run ops (stop q)) = None /\
  (forall t1 t2,
     start t1 t2 (run ops (stop q))
     = startProcessing_turn t1 t2 (with_isProcessing true (run ops (stop q)))) /\
  (forall t1 t2, isProcessing q = true ->
     start t1 t2 (stop q) = startProcessing_turn t1 t2 q).
Proof.
  intros K.
  assert (G : forall q0, isProcessing q0 = false ->
            isProcessing (run ops q0) = false /\
            admission_order (run ops q0) = admission_order q0).
  { unfold run. induction ops as [|o r IH]; intros q0 S; simpl; [now split|].
    simpl in K. apply andb_prop in K as [Ko Kr].
    destruct (apply_stopped q0 o Ko S) as [S' A'].
    destruct (IH Kr _ S') as [S'' A'']. split; [exact S'' | congruence]. }
  destruct (G (stop q) eq_refl) as [S A].
  split; [exact S|]. split; [exact A|]. split; [|split].
  - unfold admits. now rewrite S.
  - intros t1 t2. unfold start. now rewrite S.
  - intros t1 t2 H. unfold start. simpl. f_equal.
    destruct q; simpl in *; subst; reflexivity.
Qed.

(** *** The counter of processed items *)

Local Abbreviation cnt s l :=
  (Z.of_nat (List.length (filter (fun it : QueueItem T R => status_eqb (status it) s) l))).

Lemma cnt_perm s (l l' : list (QueueItem T R)) :
  Permutation l l' -> cnt s l = cnt s l'.
Proof.
  induction 1; simpl; try lia.
  - destruct (status_eqb (status x) s); simpl; lia.
  - destruct (status_eqb (status x) s), (status_eqb (status y) s); simpl; lia.
Qed.

Lemma cnt_app s (l l' : list (QueueItem T R)) : cnt s (l ++ l') = cnt s l + cnt s l'.
Proof. rewrite filter_app, length_app. lia. Qed.

Lemma cnt_set_item s i x (l : list (QueueItem T R)) old :
  nth_error l i = Some old ->
  cnt s (set_item i x l)
  = cnt s l - (if status_eqb (status old) s then 1 else 0)
    + (if status_eqb (status x) s then 1 else 0).
Proof.
  revert i. induction l as [|a r IH]; intros [|i]; simpl; try discriminate.
  - intros [= ->].
    destruct (status_eqb (status old) s), (status_eqb (status x) s);
      cbn [List.length]; lia.
  - intros N. specialize (IH _ N).
    destruct (status_eqb (status a) s); cbn [List.length] in *; lia.
Qed.

Lemma turn_count t1 t2 q :
  idle q -> counted q -> counted (startProcessing_turn t1 t2 q).
Proof.
  intros [P F] [N A]. unfold counted, count_status in *.
  unfold startProcessing_turn. destruct (admits q) as [i|] eqn:Ad; [|now split].
  destruct (admits_pending _ _ Ad) as (_ & _ & item & Ni & St).
  destruct (processRequest_idle i t1 t2 q item P Ni) as (Q & _).
  rewrite (processRequest_stats i t1 t2 q item P Ni), Q.
  rewrite (cnt_set_item _ _ _ _ _ Ni). rewrite St. simpl.
  split; lia.
Qed.

Lemma apply_count q (o : Op T R) : idle q -> counted q -> counted (apply q o).
Proof.
  intros I C. pose proof C as [N A]. unfold counted, count_status in *.
  destruct o; simpl in *.
  - rewrite (cnt_perm _ _ _ (JSFacts.sort_perm compare_items _)), cnt_app.
    simpl. rewrite !Z.add_0_r. now split.
  - now apply turn_count.
  - destruct (cancelRequest_cases k now q) as [E|(i & item & _ & Ni & Sc & E)];
      rewrite E; simpl; [now split|].
    rewrite (cnt_set_item _ _ _ _ _ Ni).
    assert (Z3 : status_eqb (status item) COMPLETED = false).
    { destruct (status item); simpl; congruence. }
    rewrite Z3. simpl status_eqb. cbv iota. rewrite !Z.sub_0_r, !Z.add_0_r.
    now split.
  - split; reflexivity.
  - now split.
  - unfold start. destruct (isProcessing q); [now split|].
    apply (turn_count t_start t_end (with_isProcessing true q)); [exact I | exact C].
Qed.

(** X24.  In a queue that was constructed and then used, [totalProcessed]
    is the number of completed items in the queue: a turn that admits an
    item adds one to both, [clear] resets both, and nothing else changes
    either; and while the queue holds no completed item,
    [averageProcessingTime], which [getStatus] reports, is 0. *)
Theorem processed_counts_completed (maxc : Z) (policy : RetryPolicy)
    (ops : list (Op T R)) :
  let q := run ops (new maxc policy) in
  totalProcessed (stats q) = count_status COMPLETED q /\
  (count_status COMPLETED q = 0 -> averageProcessingTime (stats q) = JS.of_Z 0) /\
  st_averageProcessingTime (getStatus q) = averageProcessingTime (stats q).
Proof.
  intros q.
  assert (G : forall q0, idle q0 -> counted q0 -> counted (run ops q0)).
  { unfold run. induction ops as [|o r IH]; intros q0 I M; simpl; [exact M|].
    apply IH; [now apply apply_idle | now apply apply_count]. }
  destruct (G (new maxc policy) (new_idle maxc policy)) as [N A].
  { split; reflexivity. }
  fold q in N, A. split; [exact N|]. split; [exact A | reflexivity].
Qed.

(** *** Where [addRequest] puts the new item *)

Lemma filter_none {A : Type} (p : A -> bool) (l : list A) :
  (forall z, In z l -> p z = false) -> filter p l = [].
Proof.
  induction l as [|a r IH]; intros H; simpl; [reflexivity|].
  rewrite (H a (or_introl eq_refl)). apply IH. intros z Hz. apply H. now right.
Qed.

Lemma filter_all {A : Type} (p : A -> bool) (l : list A) :
  (forall z, In z l -> p z = true) -> filter p l = l.
Proof.
  induction l as [|a r IH]; intros H; simpl; [reflexivity|].
  rewrite (H a (or_introl eq_refl)). f_equal. apply IH. intros z Hz. apply H. now right.
Qed.

Lemma behind_all x a (r : list (QueueItem T R)) :
  Forall (fun y => compare_items a y <= 0) r -> 0 < compare_items a x ->
  ahead_of x r = [] /\ behind x r = r.
Proof.
  intros F G. rewrite Forall_forall in F.
  assert (H : forall y, In y r -> (compare_items y x <=? 0) = false).
  { intros y Hy. destruct (Z.leb_spec (compare_items y x) 0) as [L|L]; [|reflexivity].
    pose proof (compare_trans _ _ _ (F _ Hy) L). lia. }
  split; [apply filter_none, H | apply filter_all].
  intros y Hy. now rewrite (H _ Hy).
Qed.

Lemma sort_snoc (l : list (QueueItem T R)) x :
  StronglySorted (fun a b => compare_items a b <= 0) l ->
  JS.sort compare_items (l ++ [x]) = ahead_of x l ++ x :: behind x l /\
  ahead_of x l ++ behind x l = l.
Proof.
  induction 1 as [|a r Sr IH Fa]; [now split|].
  destruct IH as [IH1 IH2]. simpl. rewrite IH1.
  unfold ahead_of, behind in *. simpl.
  destruct (Z.leb_spec (compare_items a x) 0) as [L|L]; simpl.
  - split; [|now rewrite IH2].
    apply JSFacts.insert_head. rewrite Forall_forall in *. intros y Hy.
    apply in_app_or in Hy. destruct Hy as [Hy|[<-|Hy]].
    + apply filter_In in Hy as [Hy _]. now apply Fa.
    + exact L.
    + apply filter_In in Hy as [Hy _]. now apply Fa.
  - destruct (behind_all x a r Fa L) as [E1 E2]. unfold ahead_of, behind in *.
    rewrite E1, E2. simpl.
    destruct (Z.leb_spec (compare_items a x) 0) as [L'|_]; [lia|].
    split; [|reflexivity]. now rewrite JSFacts.insert_head.
Qed.

(** X25.  In a queue that was constructed and then used, [addRequest]
    leaves the items it finds in their order and puts the new item among
    them: behind every item of smaller priority and every item of the same
    priority that is not younger, in front of all others. *)
Theorem addRequest_keeps_order (maxc : Z) (policy : RetryPolicy)
    (ops : list (Op T R)) (req : T) (handler : T -> Promised R)
    (options : Options) (newId : string) (now : Z) :
  let q := run ops (new maxc policy) in
  let x := new_request req options newId now q in
  queue (addRequest req handler options newId now q)
    = ahead_of x (queue q) ++ x :: behind x (queue q) /\
  ahead_of x (queue q) ++ behind x (queue q) = queue q /\
  (forall y, In y (ahead_of x (queue q)) -> goes_first y x) /\
  (forall y, In y (behind x (queue q)) ->
     priority x < priority y \/
     (priority x = priority y /\ createdAt x < createdAt y)).
Proof.
  intros q x.
  destruct (used_queue maxc policy ops) as (_ & S & _). fold q in S.
  destruct (sort_snoc (queue q) x S) as [E1 E2].
  split; [exact E1|]. split; [exact E2|]. split.
  - intros y Hy. apply filter_In in Hy as [_ Hy].
    apply compare_goes_first. lia.
  - intros y Hy. apply filter_In in Hy as [_ Hy].
    destruct (Z.leb_spec (compare_items y x) 0) as [L|L]; [discriminate|].
    assert (G : ~ goes_first y x) by (rewrite <- compare_goes_first; lia).
    unfold goes_first in G. lia.
Qed.

(** *** A request cancelled before it starts *)

Lemma find_index_middle (p : QueueItem T R -> bool) (a b : list (QueueItem T R)) x :
  (forall y, In y a -> p y = false) -> p x = true ->
  find_index p (a ++ x :: b) = Some (List.length a).
Proof.
  induction a as [|c r IH]; intros H Px; simpl; [now rewrite Px|].
  rewrite (H c (or_introl eq_refl)), IH; [reflexivity | | exact Px].
  intros y Hy. apply H. now right.
Qed.

Lemma set_item_middle (a b : list (QueueItem T R)) x x' :
  set_item (List.length a) x' (a ++ x :: b) = a ++ x' :: b.
Proof. induction a as [|c r IH]; simpl; [reflexivity | now rewrite IH]. Qed.

Lemma nth_error_middle (a b : list (QueueItem T R)) x :
  nth_error (a ++ x :: b) (List.length a) = Some x.
Proof. induction a as [|c r IH]; simpl; [reflexivity | exact IH]. Qed.

Lemma find_middle (p : QueueItem T R -> bool) (a b : list (QueueItem T R)) x :
  (forall y, In y a -> p y = false) -> p x = true ->
  find p (a ++ x :: b) = Some x.
Proof.
  induction a as [|c r IH]; intros H Px; simpl; [now rewrite Px|].
  rewrite (H c (or_introl eq_refl)). apply IH; [|exact Px].
  intros y Hy. apply H. now right.
Qed.

Lemma turn_cancelled k t1 t2 q :
  idle q -> cancelled_for_good k q ->
  cancelled_for_good k (startProcessing_turn t1 t2 q) /\
  (forall j, In j (admission_order (startProcessing_turn t1 t2 q)) ->
     In j (admission_order q) \/ j <> k).
Proof.
  intros [P F] C. unfold admission_order.
  unfold startProcessing_turn. destruct (admits q) as [i|] eqn:A; [|split; auto].
  destruct (admits_pending _ _ A) as (_ & _ & item & Ni & St).
  destruct (processRequest_idle i t1 t2 q item P Ni) as (Q & _ & E & _).
  assert (Nk : id item <> k).
  { intros Ik. pose proof (C item (nth_error_In _ _ Ni) Ik). congruence. }
  split.
  - intros y Hy Iy. rewrite Q in Hy.
    destruct (set_item_In _ _ _ _ Hy) as [->|H]; [|now apply C].
    simpl in Iy. congruence.
  - intros j. rewrite E, flat_map_app. simpl. intros Hj.
    apply in_app_or in Hj. destruct Hj as [Hj|[<-|[]]]; [now left | now right].
Qed.

Lemma apply_cancelled k q (o : Op T R) :
  adds_id k o = false -> idle q -> cancelled_for_good k q ->
  cancelled_for_good k (apply q o) /\
  (forall j, In j (admission_order (apply q o)) ->
     In j (admission_order q) \/ j <> k).
Proof.
  intros Ad I C. pose proof I as [P F].
  destruct o; simpl in *.
  - unfold admission_order. split.
    + intros y Hy Iy.
      apply (Permutation_in _ (JSFacts.sort_perm compare_items _)) in Hy.
      apply in_app_or in Hy. destruct Hy as [Hy|[<-|[]]]; [now apply C|].
      simpl in Iy. apply String.eqb_neq in Ad. congruence.
    + intros j. simpl. rewrite flat_map_app. simpl. rewrite app_nil_r. now left.
  - now apply turn_cancelled.
  - unfold admission_order.
    destruct (cancelRequest_cases k0 now q) as [E|(i & item & _ & Ni & _ & E)];
      rewrite E; simpl; [split; auto|].
    split.
    + intros y Hy Iy. destruct (set_item_In _ _ _ _ Hy) as [->|H]; [reflexivity|].
      now apply C.
    + intros j. rewrite flat_map_app. simpl. rewrite app_nil_r. now left.
  - unfold admission_order. split; [intros y []|].
    intros j. simpl. rewrite flat_map_app. simpl. rewrite app_nil_r. now left.
  - split; auto.
  - unfold start. destruct (isProcessing q); [split; auto|].
    apply (turn_cancelled k t_start t_end (with_isProcessing true q)); assumption.
Qed.

(** X26.  In a queue that was constructed and then used, a request whose
    id no item has is added and then cancelled before a turn of the loop.
    The promise of [addRequest] waits; [cancelRequest] returns [true], the
    item stays in the queue as [CANCELLED], and the queue is as ready for
    its next call as before.  The promise is rejected at its next event:
    as cancelled when that is a run of [checkCompletion], as timed out
    when the request has a timeout whose timer fires first; the
    [cancelRequest] of the timer leaves the item cancelled. *)
Theorem cancel_before_start (maxc : Z) (policy : RetryPolicy)
    (ops : list (Op T R)) (req : T) (handler : T -> Promised R)
    (options : Options) (k : string) (now now' : Z) :
  let q := run ops (new maxc policy) in
  let q1 := addRequest req handler options k now q in
  let promise := waitForCompletion k handler (o_timeout options) q1 in
  let r := cancelRequest k now' q1 in
  (forall y, In y (queue q) -> id y <> k) ->
  promise = {| timer := JS.truthy (o_timeout options); settled := StillWaiting |} /\
  fst r = true /\
  check k promise (snd r) = {| timer := false; settled := RejectedCancelled |} /\
  (forall t,
     fst (timeoutTimer k t promise (snd r))
     = (if JS.truthy (o_timeout options)
        then {| timer := false; settled := RejectedTimedOut |}
        else promise) /\
     cancelled_for_good k (snd (timeoutTimer k t promise (snd r)))) /\
  cancelled_for_good k (snd r) /\
  idle (snd r) /\
  pendingCount (getStatus (snd r)) = pendingCount (getStatus q) /\
  totalLength (getStatus (snd r)) = totalLength (getStatus q) + 1.
Proof.
  intros q q1 promise r Fresh.
  destruct (used_queue maxc policy ops) as ((P & F) & S & _). fold q in P, F, S.
  set (x := new_request req options k now q).
  destruct (sort_snoc (queue q) x S) as [E1 E2].
  set (a := ahead_of x (queue q)) in *. set (b := behind x (queue q)) in *.
  set (p := fun it : QueueItem T R => String.eqb (id it) k).
  assert (Pa : forall y, In y a -> p y = false).
  { intros y Hy. apply filter_In in Hy as [Hy _]. unfold p.
    apply String.eqb_neq. now apply Fresh. }
  assert (Pb : forall y, In y b -> p y = false).
  { intros y Hy. apply filter_In in Hy as [Hy _]. unfold p.
    apply String.eqb_neq. now apply Fresh. }
  assert (Px : p x = true) by apply String.eqb_refl.
  set (x' := with_completedAt now' (with_status CANCELLED x)).
  assert (Q1 : queue q1 = a ++ x :: b) by exact E1.
  assert (P0 : promise
               = {| timer := JS.truthy (o_timeout options); settled := StillWaiting |}).
  { unfold promise, waitForCompletion, checkCompletion. rewrite Q1. fold p.
    rewrite (find_middle p a b x Pa Px). simpl. now rewrite andb_true_r. }
  assert (Er : r = (true,
                    emit (requestCancelled k) (with_queue (a ++ x' :: b) q1))).
  { unfold r, cancelRequest, mutate. rewrite Q1. fold p.
    rewrite (find_index_middle p a b x Pa Px).
    rewrite nth_error_middle. simpl status. cbv iota beta.
    change (status_eqb PENDING COMPLETED) with false. cbv iota.
    now rewrite set_item_middle. }
  assert (Cg : cancelled_for_good k (snd r)).
  { rewrite Er. intros y Hy Iy. cbn [snd queue emit with_queue] in Hy.
    apply in_app_or in Hy. destruct Hy as [Hy|[<-|Hy]]; [| reflexivity |].
    - apply Pa in Hy. unfold p in Hy. apply String.eqb_neq in Hy. congruence.
    - apply Pb in Hy. unfold p in Hy. apply String.eqb_neq in Hy. congruence. }
  assert (Id : idle (snd r)).
  { rewrite Er. split; [exact P|]. cbn [snd queue emit with_queue].
    rewrite Forall_forall in *. intros y Hy.
    apply in_app_or in Hy. destruct Hy as [Hy|[<-|Hy]].
    - apply F. rewrite <- E2. apply in_or_app. now left.
    - discriminate.
    - apply F. rewrite <- E2. apply in_or_app. now right. }
  split; [exact P0|]. split; [now rewrite Er|].
  split; [|split; [|split; [exact Cg|split; [exact Id|split]]]].
  - rewrite P0. unfold check. cbn [settled is_waiting timer].
    unfold checkCompletion. rewrite Er. cbn [snd queue emit with_queue]. fold p.
    assert (Px' : p x' = true) by apply String.eqb_refl.
    rewrite (find_middle p a b x' Pa Px'). simpl. now rewrite andb_false_r.
  - intros t. rewrite P0. unfold timeoutTimer. cbn [timer settled is_waiting].
    destruct (JS.truthy (o_timeout options)); cbn [fst snd]; [|now split].
    split; [reflexivity|].
    exact (proj1 (apply_cancelled k (snd r) (OCancel k t) eq_refl Id Cg)).
  - rewrite Er. unfold getStatus, count_status.
    cbn [snd pendingCount queue emit with_queue].
    rewrite <- E2. rewrite !filter_app, !length_app. simpl. lia.
  - rewrite Er. unfold getStatus. cbn [snd totalLength queue emit with_queue].
    rewrite <- E2. rewrite !length_app. simpl. lia.
Qed.

(** X27.  Once every item with the id [k] is cancelled, no request with
    that id is started any more, whatever is called and however many turns
    the loop takes, unless [addRequest] gives the id to a new item. *)
Theorem cancelled_request_never_starts (k : string) q (ops : list (Op T R)) :
  idle q -> cancelled_for_good k q ->
  forallb (fun o => negb (adds_id k o)) ops = true ->
  cancelled_for_good k (run ops q) /\
  (forall j, In j (admission_order (run ops q)) ->
     In j (admission_order q) \/ j <> k) /\
  (forall i y, admits (run ops q) = Some i ->
     nth_error (queue (run ops q)) i = Some y -> id y <> k).
Proof.
  intros I C K.
  assert (G : cancelled_for_good k (run ops q) /\
              (forall j, In j (admission_order (run ops q)) ->
                 In j (admission_order q) \/ j <> k)).
  { revert q I C. unfold run. induction ops as [|o r IH]; intros q I C; simpl;
      [split; auto|].
    simpl in K. apply andb_prop in K as [Ko Kr]. apply negb_true_iff in Ko.
    destruct (apply_cancelled k q o Ko I C) as [C' A'].
    destruct (IH Kr _ (apply_idle q o I) C') as [C'' A''].
    split; [exact C''|]. intros j Hj.
    destruct (A'' j Hj) as [H|H]; [now apply A' | now right]. }
  destruct G as [C' A']. split; [exact C'|]. split; [exact A'|].
  intros i y Ad N Ik.
  destruct (admits_pending _ _ Ad) as (_ & _ & item & Ni & St).
  assert (item = y) by congruence. subst item.
  pose proof (C' y (nth_error_In _ _ N) Ik). congruence.
Qed.

End More.

End MoreQueue.

Module MoreQueueWitnesses.
Import Api Queue QueueSpec QueueFacts MoreSpec MoreQueue.
Local Open Scope string_scope.
Local Open Scope Z_scope.

(** A stopped queue with one request: turns, another request and a
    cancellation; then [start]. *)
Lemma stopped_queue_starts_nothing_witness :
  forallb keeps_stopped
    [OTurn 1 2; OAdd "again" answer no_options "req_2" 3; OTurn 4 5;
     OCancel "req_2" 6] = true /\
  isProcessing
    (run [OTurn 1 2; OAdd "again" answer no_options "req_2" 3; OTurn 4 5;
          OCancel "req_2" 6] (stop one_request)) = false /\
  admission_order
    (run [OTurn 1 2; OAdd "again" answer no_options "req_2" 3; OTurn 4 5;
          OCancel "req_2" 6] (stop one_request))
    = admission_order one_request /\
  admits
    (run [OTurn 1 2; OAdd "again" answer no_options "req_2" 3; OTurn 4 5;
          OCancel "req_2" 6] (stop one_request)) = None /\
  isProcessing one_request = true /\
  start 7 8 (stop one_request) = startProcessing_turn 7 8 one_request /\
  statuses (start 7 8 (stop one_request)) = [COMPLETED].
Proof.
  split; [reflexivity|].
  destruct (stopped_queue_starts_nothing one_request
              [OTurn 1 2; OAdd "again" answer no_options "req_2" 3; OTurn 4 5;
               OCancel "req_2" 6] eq_refl) as (A & B & C & _ & D).
  split; [exact A|]. split; [exact B|]. split; [exact C|].
  split; [reflexivity|]. split; [exact (D 7 8 eq_refl) | reflexivity].
Defined.

Lemma four_requests_ids (y : QueueItem string string) :
  In y (queue (run four_requests (new 1 DEFAULT_RETRY_POLICY))) -> id y <> "e".
Proof.
  intros H. apply (in_map id) in H.
  assert (E : map id (queue (run four_requests (new 1 DEFAULT_RETRY_POLICY)))
              = ["b"; "d"; "c"; "a"]) by (vm_compute; reflexivity).
  rewrite E in H. simpl in H.
  intros K. rewrite K in H.
  repeat (destruct H as [H|H]; [discriminate|]). destruct H.
Qed.

(** A fifth request with a timeout of 30 seconds, cancelled two
    milliseconds after it was added. *)
Lemma cancel_before_start_witness :
  (forall y, In y (queue (run four_requests (new 1 DEFAULT_RETRY_POLICY))) ->
     id y <> "e") /\
  fst (cancelRequest "e" 7
         (addRequest "fifth" answer half_a_minute "e" 5
            (run four_requests (new 1 DEFAULT_RETRY_POLICY)))) = true /\
  check "e"
    (waitForCompletion "e" answer (o_timeout half_a_minute)
       (addRequest "fifth" answer half_a_minute "e" 5
          (run four_requests (new 1 DEFAULT_RETRY_POLICY))))
    (snd (cancelRequest "e" 7
            (addRequest "fifth" answer half_a_minute "e" 5
               (run four_requests (new 1 DEFAULT_RETRY_POLICY)))))
  = {| timer := false; settled := RejectedCancelled |} /\
  fst (timeoutTimer "e" 30005
         (waitForCompletion "e" answer (o_timeout half_a_minute)
            (addRequest "fifth" answer half_a_minute "e" 5
               (run four_requests (new 1 DEFAULT_RETRY_POLICY))))
         (snd (cancelRequest "e" 7
                 (addRequest "fifth" answer half_a_minute "e" 5
                    (run four_requests (new 1 DEFAULT_RETRY_POLICY))))))
  = {| timer := false; settled := RejectedTimedOut |}.
Proof.
  split; [exact four_requests_ids|].
  destruct (cancel_before_start 1 DEFAULT_RETRY_POLICY four_requests
              "fifth" answer half_a_minute "e" 5 7 four_requests_ids)
    as (_ & A & B & C & _).
  split; [exact A|]. split; [exact B|]. exact (proj1 (C 30005)).
Defined.

Lemma cancelled_request_idle : idle cancelled_request.
Proof. split; [reflexivity|]. repeat constructor. discriminate. Qed.

Lemma cancelled_request_for_good : cancelled_for_good "req_1" cancelled_request.
Proof. intros y [<-|[]] _. reflexivity. Qed.

(** The cancelled request, two turns and another request. *)
Lemma cancelled_request_never_starts_witness :
  idle cancelled_request /\
  cancelled_for_good "req_1" cancelled_request /\
  forallb (fun o => negb (adds_id "req_1" o))
    [OTurn 6 7; OAdd "again" answer no_options "req_2" 8; OTurn 9 10] = true /\
  cancelled_for_good "req_1"
    (run [OTurn 6 7; OAdd "again" answer no_options "req_2" 8; OTurn 9 10]
       cancelled_request) /\
  (forall j,
     In j (admission_order
             (run [OTurn 6 7; OAdd "again" answer no_options "req_2" 8; OTurn 9 10]
                cancelled_request)) ->
     In j (admission_order cancelled_request) \/ j <> "req_1").
Proof.
  split; [exact cancelled_request_idle|].
  split; [exact cancelled_request_for_good|].
  split; [reflexivity|].
  destruct (cancelled_request_never_starts "req_1" cancelled_request
              [OTurn 6 7; OAdd "again" answer no_options "req_2" 8; OTurn 9 10]
              cancelled_request_idle cancelled_request_for_good eq_refl)
    as (A & B & _).
  exact (conj A B).
Defined.

End MoreQueueWitnesses.

(* ================================================================== *)
(** ** The queue and a handler that fails *)
(* ================================================================== *)

Module RetryClaims.
Import Api Queue QueueSpec QueueFacts MoreSpec MoreQueue.

Section Claims.
Context {T R : Type}.
Implicit Types (q : RequestQueue T R) (item x y : QueueItem T R).

Lemma used_queue_calm (maxc : Z) (policy : RetryPolicy) (ops : list (Op T R)) :
  calm (run ops (new maxc policy)).
Proof. apply run_calm; [apply new_idle|]. repeat split. constructor. Qed.

Lemma lone_request_completes (req : T) (handler : T -> Promised R)
    (options : Options) (newId : string) (now t1 t2 : Z) :
  let q := run [OAdd req handler options newId now; OTurn t1 t2]
             (new 1 DEFAULT_RETRY_POLICY) in
  statuses q = [COMPLETED] /\
  checkCompletion newId q = Resolved None /\
  scheduled_delays q = [].
Proof.
  intros q.
  set (q0 := addRequest req handler options newId now (new 1 DEFAULT_RETRY_POLICY)).
  set (item := {| id := newId; request := req; status := PENDING; createdAt := now;
                  startedAt := None; completedAt := None; retryCount := 0;
                  retryPolicy :=
                    merge_policy DEFAULT_RETRY_POLICY (o_retryPolicy options);
                  priority := JS.or_default (o_priority options) 0;
                  error := None; result := None |} : QueueItem T R).
  assert (R0 : ready q0 [item]) by (repeat split).
  destruct (turn_ready t1 t2 q0 _ 0%nat item R0 eq_refl eq_refl) as ((Q & _) & _).
  assert (Eq : q = startProcessing_turn t1 t2 q0) by reflexivity.
  split; [rewrite Eq; unfold statuses; now rewrite Q|]. split.
  - unfold checkCompletion. rewrite Eq, Q. simpl. now rewrite String.eqb_refl.
  - now destruct (used_queue_calm 1 DEFAULT_RETRY_POLICY
                    [OAdd req handler options newId now; OTurn t1 t2])
      as (_ & _ & _ & D).
Qed.

(** C3, taken at the code.  A request whose handler fails with an error
    that the queue would classify as retryable is added, with the retry
    policy of the claim, to a queue that was constructed and then used in
    any way, and anything may follow.  The queue schedules no retry, after
    1000 ms or any other delay, and no item is ever [RETRYING] or
    [FAILED]: [processRequest] contains no call of the handler, so the
    failure goes unnoticed.  Alone in a new queue the request is completed
    at the first turn, and the next run of [checkCompletion] resolves the
    promise of [addRequest] with [undefined]. *)
Theorem failing_request_is_not_retried (maxc : Z) (policy : RetryPolicy)
    (before after : list (Op T R)) (req : T) (handler : T -> Promised R)
    (e : ApiError) (newId : string) (now : Z) :
  handler req = Rejects e ->
  retryable (createApiError e) = Some true ->
  retryAfter (createApiError e) = None ->
  let q := run (before ++ OAdd req handler three_retries newId now :: after)
             (new maxc policy) in
  scheduled_delays q = [] /\
  Forall never_failed (queue q) /\
  totalRetries (stats q) = 0 /\ totalFailed (stats q) = 0 /\
  (forall t1 t2,
     let q1 := run [OAdd req handler three_retries newId now; OTurn t1 t2]
                 (new 1 DEFAULT_RETRY_POLICY) in
     statuses q1 = [COMPLETED] /\
     checkCompletion newId q1 = Resolved None /\
     scheduled_delays q1 = []).
Proof.
  intros _ _ _ q.
  destruct (used_queue_calm maxc policy
              (before ++ OAdd req handler three_retries newId now :: after))
    as (N & S1 & S2 & D).
  fold q in N, S1, S2, D.
  repeat split; try assumption;
    apply (lone_request_completes req handler three_retries newId now t1 t2).
Qed.

(** C7, taken at the code.  A request whose handler fails with an error
    that the queue would classify as retryable with a [retryAfter], as a
    rate-limit error with its 5000 ms, is added to a queue that was
    constructed and then used in any way, and anything may follow.  The
    queue schedules no retry, after [retryAfter] or any other delay:
    [processRequest] contains no call of the handler, so the failure goes
    unnoticed.  Nor would [retryAfter] be the delay if [handleRequestError]
    were reached: [calculateRetryDelay] of the queue gives the same delay
    whatever error the item carries, while [calculateRetryDelay] of the
    Gemini service returns a [retryAfter] that is not 0. *)
Theorem suggested_delay_is_never_scheduled (maxc : Z) (policy : RetryPolicy)
    (before after : list (Op T R)) (req : T) (handler : T -> Promised R)
    (options : Options) (e : ApiError) (d : Z) (newId : string) (now : Z) :
  handler req = Rejects e ->
  retryable (createApiError e) = Some true ->
  retryAfter (createApiError e) = Some d ->
  let q := run (before ++ OAdd req handler options newId now :: after)
             (new maxc policy) in
  scheduled_delays q = [] /\
  Forall never_failed (queue q) /\
  (forall t1 t2,
     let q1 := run [OAdd req handler options newId now; OTurn t1 t2]
                 (new 1 DEFAULT_RETRY_POLICY) in
     statuses q1 = [COMPLETED] /\
     checkCompletion newId q1 = Resolved None /\
     scheduled_delays q1 = []) /\
  (forall item,
     calculateRetryDelay (with_error (createApiError e) item)
     = calculateRetryDelay item) /\
  (d <> 0 ->
   forall attempt,
     GeminiService.calculateRetryDelay attempt (retryAfter (createApiError e)) = d).
Proof.
  intros _ _ Ha q.
  destruct (used_queue_calm maxc policy
              (before ++ OAdd req handler options newId now :: after))
    as (N & _ & _ & D).
  fold q in N, D.
  split; [exact D|]. split; [exact N|]. split; [|split].
  - intros t1 t2. apply lone_request_completes.
  - reflexivity.
  - intros Nz attempt. rewrite Ha. unfold GeminiService.calculateRetryDelay. simpl.
    destruct (Z.eqb_spec d 0); [contradiction | reflexivity].
Qed.

End Claims.

(** A handler that fails with a network error, between a request that is
    answered and two turns of the loop. *)
Lemma failing_request_is_not_retried_witness :
  refuses network_down "question"%string = Rejects network_down /\
  retryable (createApiError network_down) = Some true /\
  retryAfter (createApiError network_down) = None /\
  scheduled_delays
    (run ([OAdd "first"%string answer no_options "req_0" 0]
          ++ OAdd "question"%string (refuses network_down) three_retries "req_1" 1
             :: [OTurn 2 3; OTurn 4 5])
       (new 1 DEFAULT_RETRY_POLICY)) = [] /\
  statuses
    (run [OAdd "question"%string (refuses network_down) three_retries "req_1" 1;
          OTurn 2 3]
       (new 1 DEFAULT_RETRY_POLICY)) = [COMPLETED].
Proof.
  split; [reflexivity|]. split; [reflexivity|]. split; [reflexivity|].
  destruct (failing_request_is_not_retried 1 DEFAULT_RETRY_POLICY
              [OAdd "first"%string answer no_options "req_0" 0] [OTurn 2 3; OTurn 4 5]
              "question"%string (refuses network_down) network_down "req_1"%string 1
              eq_refl eq_refl eq_refl)
    as (D & _ & _ & _ & L).
  split; [exact D|]. exact (proj1 (L 2 3)).
Defined.

(** A handler that fails with a rate-limit error. *)
Lemma suggested_delay_is_never_scheduled_witness :
  refuses too_many_requests "question"%string = Rejects too_many_requests /\
  retryable (createApiError too_many_requests) = Some true /\
  retryAfter (createApiError too_many_requests) = Some 5000 /\
  scheduled_delays
    (run ([OAdd "first"%string answer no_options "req_0" 0]
          ++ OAdd "question"%string (refuses too_many_requests) no_options "req_1" 1
             :: [OTurn 2 3; OTurn 4 5])
       (new 1 DEFAULT_RETRY_POLICY)) = [] /\
  GeminiService.calculateRetryDelay 0
    (retryAfter (createApiError too_many_requests)) = 5000.
Proof.
  split; [reflexivity|]. split; [reflexivity|]. split; [reflexivity|].
  destruct (suggested_delay_is_never_scheduled 1 DEFAULT_RETRY_POLICY
              [OAdd "first"%string answer no_options "req_0" 0] [OTurn 2 3; OTurn 4 5]
              "question"%string (refuses too_many_requests) no_options
              too_many_requests 5000 "req_1"%string 1
              eq_refl eq_refl eq_refl)
    as (D & _ & _ & _ & G).
  split; [exact D|]. apply G. discriminate.
Defined.

End RetryClaims.
